(** * PairwiseNameComparator: a shallow embedding of [PairwiseNameComparator.pyx]

    The Cython module is embedded function by function.

    - A [char*] is a [cstring]: the bytes of the object it points into.  Every
      C routine below reads it up to the first NUL byte or up to the end of the
      list (a Python [bytes] object carries an implicit terminator).
    - A Python [str] is a [pystr], a list of code points; [encode_utf8] is
      [str.encode('utf-8')] and [py_split] is [str.split()].
    - [int] and [size_t] counters are unbounded ([Z], [nat]): names are taken to
      be shorter than 2^31 bytes, so none of them wraps.  [unsigned long] is
      64 bits wide and [char] is signed, as on x86-64 Linux; the wrap-around of
      [hash_string] is written out.
    - Allocation is taken to succeed: the [MemoryError] paths are not embedded.
    - [a % b] on C integers is compiled by Cython (directive [cdivision] left at
      its default) to a test of [b] against zero that raises
      [ZeroDivisionError]; a [cdef] function without [noexcept] propagates the
      exception to its caller.
    - Loops whose termination is not structural take a fuel argument and
      answer [OutOfFuel] when it is used up; [lookup_loop_returns] and
      [create_tradeout_table_total] show that the fuel supplied is always
      enough. *)

From Stdlib Require Import Ascii String.
From Stdlib Require Import List ZArith NArith Bool Lia Arith Permutation Sorted.
Import ListNotations.

Local Open Scope Z_scope.

(* ====================================================================== *)
(** ** Outcomes of a call                                                  *)
(* ====================================================================== *)

Inductive exn : Type :=
| ZeroDivisionError
| UnicodeEncodeError.

Inductive outcome (A : Type) : Type :=
| Return (a : A)
| Raise (e : exn)
| OutOfFuel.

Arguments Return {A} a.
Arguments Raise {A} e.
Arguments OutOfFuel {A}.

Definition bind {A B : Type} (m : outcome A) (f : A -> outcome B) : outcome B :=
  match m with
  | Return a => f a
  | Raise e => Raise e
  | OutOfFuel => OutOfFuel
  end.

Notation "x <- m ;; k" := (bind m (fun x => k))
  (at level 61, m at next level, right associativity).

(** [for x in xs: acc = body(acc, x)], stopping at the first exception. *)
Fixpoint for_each {A S : Type} (xs : list A) (body : S -> A -> outcome S) (acc : S)
  : outcome S :=
  match xs with
  | [] => Return acc
  | x :: xs' => acc' <- body acc x ;; for_each xs' body acc'
  end.

(** [range(n)] and [range(lo, hi)] for C [int] bounds. *)
Definition range (n : Z) : list Z := map Z.of_nat (seq 0 (Z.to_nat n)).
Definition range_from (lo hi : Z) : list Z :=
  map (fun k => lo + Z.of_nat k) (seq 0 (Z.to_nat (hi - lo))).

(* ====================================================================== *)
(** ** C strings                                                           *)
(* ====================================================================== *)

Definition cstring := list ascii.

Definition NUL : ascii := Ascii.zero.
Definition SPACE : ascii := Ascii.Space.

Definition is_nul (c : ascii) : bool := Ascii.eqb c NUL.
Definition is_space (c : ascii) : bool := (Z.of_N (N_of_ascii c) =? 32).

Definition lit (s : string) : cstring := list_ascii_of_string s.

(** The bytes a [char*] reader sees: everything before the first NUL. *)
Fixpoint cstr (s : cstring) : cstring :=
  match s with
  | [] => []
  | c :: s' => if is_nul c then [] else c :: cstr s'
  end.

(** [strcpy(dst, src)]: the destination holds the bytes of [src] up to its
    terminator. *)
Definition strcpy (src : cstring) : cstring := cstr src.

(** [strlen]. *)
Definition strlen (s : cstring) : nat := length (cstr s).

Definition uchar (c : ascii) : Z := Z.of_N (N_of_ascii c).

(** [strcmp]: difference of the first pair of bytes that differ, read as
    [unsigned char]; the terminator counts as byte 0. *)
Fixpoint strcmp (a b : cstring) : Z :=
  match a, b with
  | [], [] => 0
  | [], cb :: _ => 0 - uchar cb
  | ca :: _, [] => uchar ca
  | ca :: a', cb :: b' =>
      if negb (uchar ca =? uchar cb) then uchar ca - uchar cb
      else if is_nul ca then 0
      else strcmp a' b'
  end.

(* ====================================================================== *)
(** ** String sets                                                         *)
(* ====================================================================== *)

(** [StringSet]: [strings] holds the [size] initialised slots of the array. *)
Record StringSet : Type := mkStringSet {
  strings : list cstring;
  ss_capacity : nat
}.

Definition ss_size (ss : StringSet) : nat := length (strings ss).

Definition create_string_set (initial_capacity : nat) : StringSet :=
  mkStringSet [] initial_capacity.

(** [string_set_contains]: linear scan with [strcmp]. *)
Definition string_set_contains (ss : StringSet) (s : cstring) : bool :=
  existsb (fun t => strcmp t s =? 0) (strings ss).

(* ====================================================================== *)
(** ** Hash function                                                       *)
(* ====================================================================== *)

Definition ULONG_MOD : Z := 2 ^ 64.

(** [c = s[0]] with [char] signed. *)
Definition char_to_int (c : ascii) : Z :=
  let u := uchar c in if u <? 128 then u else u - 256.

Fixpoint hash_loop (s : cstring) (hash_val : Z) : Z :=
  match s with
  | [] => hash_val
  | c :: s' =>
      if is_nul c then hash_val
      else hash_loop s'
             (((Z.shiftl hash_val 5 mod ULONG_MOD + hash_val) mod ULONG_MOD
               + char_to_int c) mod ULONG_MOD)
  end.

Definition hash_string (s : cstring) : Z := hash_loop s 5381.

(* ====================================================================== *)
(** ** String utilities                                                    *)
(* ====================================================================== *)

Fixpoint count_words_loop (s : cstring) (count : Z) (in_word : bool) : Z :=
  match s with
  | [] => count
  | c :: s' =>
      if is_nul c then count
      else if is_space c then count_words_loop s' count false
      else if negb in_word then count_words_loop s' (count + 1) true
      else count_words_loop s' count in_word
  end.

Definition count_words (s : cstring) : Z := count_words_loop s 0 false.

(** The loop of [extract_word].  The result is the content of [output] read
    as a C string: the bytes stored at indices [out_idx ..], in order; both
    exits write the terminator at [out_idx]. *)
Fixpoint extract_word_loop (s : cstring) (word_index max_len : Z)
    (current_word : Z) (in_word : bool) (out_idx : Z) : cstring :=
  match s with
  | [] => []
  | c :: s' =>
      if is_nul c then []
      else if is_space c then
        if in_word && (current_word =? word_index) then []
        else extract_word_loop s' word_index max_len current_word false out_idx
      else
        let current_word' := if negb in_word then current_word + 1 else current_word in
        if (current_word' =? word_index + 1) && (out_idx <? max_len - 1)
        then c :: extract_word_loop s' word_index max_len current_word' true (out_idx + 1)
        else extract_word_loop s' word_index max_len current_word' true out_idx
  end.

Definition extract_word (s : cstring) (word_index : Z) (max_len : Z) : cstring :=
  extract_word_loop s word_index max_len 0 false 0.

(* ====================================================================== *)
(** ** Tradeout table                                                      *)
(* ====================================================================== *)

(** A slot of the table; [None] is the NULL pointer. *)
Record WordTradeouts : Type := mkWordTradeouts {
  word : option cstring;
  tradeouts : option StringSet
}.

Record TradeoutTable : Type := mkTradeoutTable {
  entries : list WordTradeouts;
  tt_capacity : nat;
  tt_size : nat
}.

Definition empty_slot : WordTradeouts := mkWordTradeouts None None.

(** [tt.entries[index]]. *)
Definition entry_at (tt : TradeoutTable) (index : nat) : WordTradeouts :=
  nth index (entries tt) empty_slot.

(** The probe loop of [tradeout_table_lookup]. *)
Fixpoint lookup_loop (fuel : nat) (tt : TradeoutTable) (w : cstring)
    (start_index index : nat) : outcome (option StringSet) :=
  match fuel with
  | O => OutOfFuel
  | S fuel' =>
      match word (entry_at tt index) with
      | None => Return None
      | Some stored =>
          if strcmp stored w =? 0 then Return (tradeouts (entry_at tt index))
          else
            let index' := ((index + 1) mod tt_capacity tt)%nat in
            if (index' =? start_index)%nat then Return None
            else lookup_loop fuel' tt w start_index index'
      end
  end.

Definition tradeout_table_lookup (tt : TradeoutTable) (w : cstring)
  : outcome (option StringSet) :=
  let hash_val := hash_string w in
  if (tt_capacity tt =? 0)%nat then Raise ZeroDivisionError
  else
    let index := Z.to_nat (hash_val mod Z.of_nat (tt_capacity tt)) in
    lookup_loop (tt_capacity tt) tt w index index.

(* ====================================================================== *)
(** ** Validation logic                                                    *)
(* ====================================================================== *)

(** Size of [word_buf], [word_a] and [word_b]. *)
Definition WORD_BUF : Z := 1024.

(** First counting loop: words of A that match a word of B. *)
Definition matches_a_in_b (name_a name_b : cstring) (len_a len_b : Z)
    (tt : TradeoutTable) : outcome Z :=
  for_each (range len_a)
    (fun matches i =>
       let word_buf := extract_word name_a i WORD_BUF in
       if existsb (fun j => strcmp word_buf (extract_word name_b j WORD_BUF) =? 0)
                  (range len_b)
       then Return (matches + 1)
       else
         found <- tradeout_table_lookup tt word_buf ;;
         match found with
         | Some ts =>
             if existsb (fun j => string_set_contains ts (extract_word name_b j WORD_BUF))
                        (range len_b)
             then Return (matches + 1)
             else Return matches
         | None => Return matches
         end)
    0.

(** Second counting loop: words of B that match a word of A. *)
Definition matches_b_in_a (name_a name_b : cstring) (len_a len_b : Z)
    (tt : TradeoutTable) : outcome Z :=
  for_each (range len_b)
    (fun matches i =>
       let word_buf := extract_word name_b i WORD_BUF in
       if existsb (fun j => strcmp word_buf (extract_word name_a j WORD_BUF) =? 0)
                  (range len_a)
       then Return (matches + 1)
       else
         found <- tradeout_table_lookup tt word_buf ;;
         match found with
         | Some ts =>
             if existsb (fun j => string_set_contains ts (extract_word name_a j WORD_BUF))
                        (range len_a)
             then Return (matches + 1)
             else Return matches
         | None => Return matches
         end)
    0.

(** [validate_match]; the C [int] it returns is used as a truth value. *)
Definition validate_match (name_a name_b : cstring) (tt : TradeoutTable)
  : outcome bool :=
  let len_a := count_words name_a in
  let len_b := count_words name_b in
  if (len_a <? 2) || (len_b <? 2) then Return false
  else
    m_ab <- matches_a_in_b name_a name_b len_a len_b tt ;;
    m_ba <- matches_b_in_a name_a name_b len_a len_b tt ;;
    let num_mismatches_a := len_a - m_ab in
    let num_mismatches_b := len_b - m_ba in
    if (len_a =? 3) && negb (num_mismatches_a =? 0) && (len_b >=? 3) then Return false
    else if (len_b =? 3) && negb (num_mismatches_b =? 0) && (len_a >=? 3) then Return false
    else if (len_b - num_mismatches_b <? 2) || (len_a - num_mismatches_a <? 2)
    then Return false
    else Return true.

(* ====================================================================== *)
(** ** Python strings                                                      *)
(* ====================================================================== *)

(** A Python [str]: its code points. *)
Definition pystr := list N.

Definition pystr_of (s : string) : pystr := map N_of_ascii (list_ascii_of_string s).

Definition byte (n : N) : ascii := ascii_of_N n.

(** UTF-8 encoding of one code point; surrogates and values past U+10FFFF
    have none. *)
Definition encode_code_point (c : N) : option (list ascii) :=
  (if c <? 0x80 then Some [byte c]
   else if c <? 0x800 then
     Some [byte (0xC0 + c / 64); byte (0x80 + c mod 64)]
   else if c <? 0x10000 then
     if (0xD800 <=? c) && (c <=? 0xDFFF) then None
     else Some [byte (0xE0 + c / 4096); byte (0x80 + (c / 64) mod 64);
                byte (0x80 + c mod 64)]
   else if c <? 0x110000 then
     Some [byte (0xF0 + c / 262144); byte (0x80 + (c / 4096) mod 64);
           byte (0x80 + (c / 64) mod 64); byte (0x80 + c mod 64)]
   else None)%N.

(** [s.encode('utf-8')]. *)
Fixpoint encode_utf8 (s : pystr) : outcome cstring :=
  match s with
  | [] => Return []
  | c :: s' =>
      match encode_code_point c with
      | None => Raise UnicodeEncodeError
      | Some bs => rest <- encode_utf8 s' ;; Return (bs ++ rest)
      end
  end.

(** The code points [str.split()] treats as separators. *)
Definition py_isspace (c : N) : bool :=
  ((0x09 <=? c) && (c <=? 0x0D) || (0x1C <=? c) && (c <=? 0x20)
   || (c =? 0x85) || (c =? 0xA0) || (c =? 0x1680)
   || (0x2000 <=? c) && (c <=? 0x200A)
   || (c =? 0x2028) || (c =? 0x2029) || (c =? 0x202F) || (c =? 0x205F)
   || (c =? 0x3000))%N.

Fixpoint py_split_loop (s : pystr) (cur : pystr) : list pystr :=
  match s with
  | [] => match cur with [] => [] | _ => [cur] end
  | c :: s' =>
      if py_isspace c then
        match cur with
        | [] => py_split_loop s' []
        | _ => cur :: py_split_loop s' []
        end
      else py_split_loop s' (cur ++ [c])
  end.

(** [s.split()]. *)
Definition py_split (s : pystr) : list pystr := py_split_loop s [].

(* ====================================================================== *)
(** ** Construction of the tradeout table                                  *)
(* ====================================================================== *)

Fixpoint update_nth {A : Type} (n : nat) (f : A -> A) (l : list A) : list A :=
  match l, n with
  | [], _ => []
  | x :: l', O => f x :: l'
  | x :: l', S n' => x :: update_nth n' f l'
  end.

Definition set_word (tt : TradeoutTable) (index : nat) (w : cstring) : TradeoutTable :=
  mkTradeoutTable
    (update_nth index (fun e => mkWordTradeouts (Some w) (tradeouts e)) (entries tt))
    (tt_capacity tt) (tt_size tt).

Definition set_tradeouts (tt : TradeoutTable) (index : nat) (ts : StringSet)
  : TradeoutTable :=
  mkTradeoutTable
    (update_nth index (fun e => mkWordTradeouts (word e) (Some ts)) (entries tt))
    (tt_capacity tt) (tt_size tt).

(** [tradeout_set.strings[tradeout_set.size] = copy of s; size += 1]. *)
Definition ss_push (ts : StringSet) (s : cstring) : StringSet :=
  mkStringSet (strings ts ++ [strcpy s]) (ss_capacity ts).

(** "Find slot": linear probing for a free slot. *)
Fixpoint find_slot (fuel : nat) (tt : TradeoutTable) (index : nat) : outcome nat :=
  match fuel with
  | O => OutOfFuel
  | S fuel' =>
      match word (entry_at tt index) with
      | None => Return index
      | Some _ => find_slot fuel' tt ((index + 1) mod tt_capacity tt)%nat
      end
  end.

(** "Add matches". *)
Fixpoint add_matches (matches : list pystr) (ts : StringSet) : outcome StringSet :=
  match matches with
  | [] => Return ts
  | m :: rest =>
      match_bytes <- encode_utf8 m ;;
      if (ss_capacity ts <=? ss_size ts)%nat then Return ts
      else add_matches rest (ss_push ts match_bytes)
  end.

(** One iteration of the loop over [word_to_matches.items()]. *)
Definition insert_item (tt : TradeoutTable) (item : pystr * list pystr)
  : outcome TradeoutTable :=
  let '(w, matches) := item in
  word_bytes <- encode_utf8 w ;;
  let word_len := length word_bytes in
  let hash_val := hash_string word_bytes in
  if (tt_capacity tt =? 0)%nat then Raise ZeroDivisionError
  else
    index <- find_slot (tt_capacity tt) tt
               (Z.to_nat (hash_val mod Z.of_nat (tt_capacity tt))) ;;
    let tt := set_word tt index (strcpy word_bytes) in
    let tradeout_set := create_string_set (length matches + 1) in
    let tradeout_set :=
      if (word_len =? 1)%nat then ss_push tradeout_set word_bytes else tradeout_set in
    tradeout_set <- add_matches matches tradeout_set ;;
    Return (set_tradeouts tt index tradeout_set).

(** [create_tradeout_table]; the dict is the list of its items in iteration
    order. *)
Definition create_tradeout_table (word_to_matches : list (pystr * list pystr))
  : outcome TradeoutTable :=
  let dict_size := length word_to_matches in
  let tt := mkTradeoutTable (repeat empty_slot (dict_size * 2)) (dict_size * 2) dict_size in
  for_each word_to_matches insert_item tt.

(* ====================================================================== *)
(** ** Parallel matching                                                   *)
(* ====================================================================== *)

Record NamePair : Type := mkNamePair {
  name1 : cstring;
  name2 : cstring
}.

(** [name_ptrs[i]]. *)
Definition name_at (name_ptrs : list cstring) (i : Z) : cstring :=
  nth (Z.to_nat i) name_ptrs [].

(** Resolution of the worker count; [cpu_count] is
    [multiprocessing.cpu_count()]. *)
Definition resolve_threads (num_threads cpu_count : Z) : Z :=
  if num_threads =? 0 then cpu_count
  else if num_threads =? -1 then Z.max 1 (cpu_count - 1)
  else num_threads.

(** "Filter to names with 2+ words". *)
Definition valid_names (all_names : list pystr) : list pystr :=
  filter (fun n => (2 <=? length (py_split n))%nat) all_names.

(** [[n.encode('utf-8') for n in valid_names]]. *)
Fixpoint encode_all (names : list pystr) : outcome (list cstring) :=
  match names with
  | [] => Return []
  | n :: rest =>
      b <- encode_utf8 n ;;
      bs <- encode_all rest ;;
      Return (b :: bs)
  end.

(** Body of the [prange] loop for the outer index [i]: the inner loop over
    [j], appending to the buffer of the worker that runs it. *)
Definition scan_row (name_ptrs : list cstring) (n_names : Z) (tt : TradeoutTable)
    (buf : list NamePair) (i : Z) : outcome (list NamePair) :=
  for_each (range_from (i + 1) n_names)
    (fun buf j =>
       ok <- validate_match (name_at name_ptrs i) (name_at name_ptrs j) tt ;;
       if ok : bool
       then Return (buf ++ [mkNamePair (name_at name_ptrs i) (name_at name_ptrs j)])
       else Return buf)
    buf.

(** A worker runs the outer indices it claims one after the other. *)
Definition run_worker (name_ptrs : list cstring) (n_names : Z) (tt : TradeoutTable)
    (claimed : list Z) : outcome (list NamePair) :=
  for_each claimed (scan_row name_ptrs n_names tt) [].

(** The [prange] loop under a schedule: [sched] lists, for each worker in
    the order of its thread number, the outer indices it claims, in the order
    it runs them.  The loop raises when an iteration raises. *)
Fixpoint parallel_loop (name_ptrs : list cstring) (n_names : Z) (tt : TradeoutTable)
    (sched : list (list Z)) : outcome (list (list NamePair)) :=
  match sched with
  | [] => Return []
  | claimed :: sched' =>
      buf <- run_worker name_ptrs n_names tt claimed ;;
      bufs <- parallel_loop name_ptrs n_names tt sched' ;;
      Return (buf :: bufs)
  end.

(** "Serial collection".  A result is given by the two C strings that the
    source decodes back to [str]. *)
Definition collect (thread_results : list (list NamePair)) : list (cstring * cstring) :=
  concat (map (map (fun p => (cstr (name1 p), cstr (name2 p)))) thread_results).

(** A schedule of [n_names] outer iterations over [n_threads] workers: every
    iteration is run once, by one worker. *)
Definition schedule_of (n_threads n_names : Z) (sched : list (list Z)) : Prop :=
  Z.of_nat (length sched) = n_threads /\ Permutation (concat sched) (range n_names).

(** [parallel_find_matches]; [pair_to_names] is never read and is left out. *)
Definition parallel_find_matches (all_names : list pystr)
    (word_to_matches : list (pystr * list pystr)) (num_threads : Z)
    (cpu_count : Z) (sched : list (list Z)) : outcome (list (cstring * cstring)) :=
  let n_threads := resolve_threads num_threads cpu_count in
  tt <- create_tradeout_table word_to_matches ;;
  let valid := valid_names all_names in
  let n_names := Z.of_nat (length valid) in
  bytes_list <- encode_all valid ;;
  thread_results <- parallel_loop bytes_list n_names tt sched ;;
  Return (collect thread_results).

(** *** Comparison of two runs

    Two runs agree when they raise the same exception or return the same
    pairs up to order. *)
Definition same_result_set {B : Type} (r1 r2 : outcome (list B)) : Prop :=
  match r1, r2 with
  | Return l1, Return l2 => Permutation l1 l2
  | Raise e1, Raise e2 => e1 = e2
  | _, _ => False
  end.

(* ====================================================================== *)
(** ** Words as the specification describes them                           *)
(* ====================================================================== *)

(** The words of a name: its maximal runs of non-space bytes (up to the
    terminator). *)
Fixpoint words_loop (s : cstring) (cur : cstring) : list cstring :=
  match s with
  | [] => match cur with [] => [] | _ => [cur] end
  | c :: s' =>
      if is_nul c then match cur with [] => [] | _ => [cur] end
      else if is_space c then
        match cur with
        | [] => words_loop s' []
        | _ => cur :: words_loop s' []
        end
      else words_loop s' (cur ++ [c])
  end.

Definition words (s : cstring) : list cstring := words_loop s [].

(** Bound on the bytes of a word kept for matching. *)
Definition WORD_MAX : nat := 1023.

(** The name with every word cut down to its first [WORD_MAX] bytes; [kept]
    counts the bytes of the current word already kept. *)
Fixpoint truncate_words_loop (s : cstring) (kept : nat) : cstring :=
  match s with
  | [] => []
  | c :: s' =>
      if is_nul c then c :: s'
      else if is_space c then c :: truncate_words_loop s' 0
      else if (kept <? WORD_MAX)%nat then c :: truncate_words_loop s' (S kept)
      else truncate_words_loop s' kept
  end.

Definition truncate_words (s : cstring) : cstring := truncate_words_loop s 0.

(* ====================================================================== *)
(** ** Sample inputs                                                       *)
(* ====================================================================== *)

(** [{"Bob": ["Robert"]}] *)
Definition bob_robert : list (pystr * list pystr) :=
  [(pystr_of "Bob", [pystr_of "Robert"])].

(** [{"Bob": []}] *)
Definition bob_alone : list (pystr * list pystr) :=
  [(pystr_of "Bob", [])].

(** [{"a\0b": ["x"], "a\0c": ["y"]}]: two keys with the same C string. *)
Definition a_nul_b : pystr := [0x61; 0; 0x62]%N.
Definition a_nul_c : pystr := [0x61; 0; 0x63]%N.
Definition nul_keys : list (pystr * list pystr) :=
  [(a_nul_b, [pystr_of "x"]); (a_nul_c, [pystr_of "y"])].

(** [{"Bob": ["Robert"], "B": []}] *)
Definition bob_and_b : list (pystr * list pystr) :=
  [(pystr_of "Bob", [pystr_of "Robert"]); (pystr_of "B", [])].

(** [{"\u00e9": ["e"]}]: a key of one character and two bytes. *)
Definition e_acute : pystr := [0xE9]%N.
Definition e_acute_key : list (pystr * list pystr) :=
  [(e_acute, [pystr_of "e"])].

(** ["Alice\tSmith"] *)
Definition alice_tab_smith : pystr :=
  pystr_of "Alice" ++ [9%N] ++ pystr_of "Smith".

(* ====================================================================== *)
(** ** Notions used in the statements                                     *)
(* ====================================================================== *)

(** The bytes of a string before its first space or terminator. *)
Fixpoint leading_run (s : cstring) : cstring :=
  match s with
  | [] => []
  | c :: s' => if is_nul c || is_space c then [] else c :: leading_run s'
  end.

(** An outcome that is a value or a [ZeroDivisionError]. *)
Definition clean {A : Type} (m : outcome A) : Prop :=
  match m with
  | Return _ => True
  | Raise e => e = ZeroDivisionError
  | OutOfFuel => False
  end.

(** Every pair a worker stores was accepted by [validate_match]. *)
Definition accepted (tt : TradeoutTable) (p : NamePair) : Prop :=
  validate_match (name1 p) (name2 p) tt = Return true.

Definition is_filled (e : WordTradeouts) : bool :=
  match word e with Some _ => true | None => false end.

Definition filled_count (es : list WordTradeouts) : nat :=
  length (filter is_filled es).

(** Slot at which the probe sequence of [w] starts, and its [d]-th slot. *)
Definition slot_of (tt : TradeoutTable) (w : cstring) : nat :=
  Z.to_nat (hash_string w mod Z.of_nat (tt_capacity tt)).

Definition probe (tt : TradeoutTable) (w : cstring) (d : nat) : nat :=
  ((slot_of tt w + d) mod tt_capacity tt)%nat.

(** [w] sits with its set [ts] on its own probe sequence, behind slots that
    hold other words. *)
Definition stored_at (tt : TradeoutTable) (w : cstring) (ts : StringSet) : Prop :=
  exists d, (d < tt_capacity tt)%nat
    /\ entry_at tt (probe tt w d) = mkWordTradeouts (Some w) (Some ts)
    /\ forall k, (k < d)%nat ->
         exists w', word (entry_at tt (probe tt w k)) = Some w' /\ w' <> w.

(** The table holds exactly the words of [keys], each with its set. *)
Record table_inv (tt : TradeoutTable) (keys : list (cstring * StringSet)) : Prop := {
  inv_length : length (entries tt) = tt_capacity tt;
  inv_count : filled_count (entries tt) = length keys;
  inv_words : forall i w, word (entry_at tt i) = Some w -> In w (map fst keys);
  inv_normal : forall w, In w (map fst keys) -> cstr w = w;
  inv_stored : forall w ts, In (w, ts) keys -> stored_at tt w ts;
  inv_nodup : NoDup (map fst keys)
}.

(** The C string under which a key is stored. *)
Definition c_key (w : pystr) : cstring :=
  match encode_utf8 w with
  | Return b => cstr b
  | _ => []
  end.

(** The tradeout set of an item before its matches are added. *)
Definition item_set_start (word_bytes : cstring) (matches : list pystr) : StringSet :=
  if (length word_bytes =? 1)%nat
  then ss_push (create_string_set (length matches + 1)) word_bytes
  else create_string_set (length matches + 1).

(** The word [validate_match] compares a name by: what [extract_word] stores
    for index 0. *)
Definition first_word (s : cstring) : cstring := extract_word s 0 WORD_BUF.

(** Whether the first word of [a] is counted as matching in [b]: it equals
    the first word of [b], or its tradeout set holds the first word of [b] or
    the empty string. *)
Definition first_word_matches (tt : TradeoutTable) (a b : cstring) : outcome bool :=
  if strcmp (first_word a) (first_word b) =? 0 then Return true
  else
    found <- tradeout_table_lookup tt (first_word a) ;;
    Return match found with
           | Some ts => string_set_contains ts (first_word b)
                        || string_set_contains ts []
           | None => false
           end.

(** The acceptance rules on the word counts and the two first-word
    verdicts. *)
Definition accepts (len_a len_b : Z) (match_a match_b : bool) : bool :=
  negb ((len_a =? 3) && negb match_a && (len_b >=? 3))
  && negb ((len_b =? 3) && negb match_b && (len_a >=? 3))
  && negb ((len_b =? 2) && negb match_b || (len_a =? 2) && negb match_a).

(** What the inner loop of the scan adds to a buffer for the positions
    [i] and [j]. *)
Definition pair_if_accepted (name_ptrs : list cstring) (tt : TradeoutTable)
    (i j : Z) : outcome (list NamePair) :=
  ok <- validate_match (name_at name_ptrs i) (name_at name_ptrs j) tt ;;
  Return (if ok : bool
          then [mkNamePair (name_at name_ptrs i) (name_at name_ptrs j)]
          else []).

(* ====================================================================== *)
(** ** The lookup utility: a hash table of keys                            *)
(* ====================================================================== *)

(** [HashEntry]; [he_exists] is the field [exists]. *)
Record HashEntry : Type := mkHashEntry {
  he_key : option cstring;
  he_exists : bool
}.

Record HashTable : Type := mkHashTable {
  ht_entries : list HashEntry;
  ht_capacity : nat;
  ht_size : nat
}.

Definition empty_entry : HashEntry := mkHashEntry None false.

(** [ht.entries[index]]. *)
Definition ht_entry_at (ht : HashTable) (index : nat) : HashEntry :=
  nth index (ht_entries ht) empty_entry.

(** [ht.entries[index].key] read as a C string.  A slot marked as existing
    holds a key in every table [create_hash_table] builds
    ([create_hash_table_keys]); the NULL pointer reads as the empty string
    here. *)
Definition ht_key_at (ht : HashTable) (index : nat) : cstring :=
  match he_key (ht_entry_at ht index) with
  | Some k => k
  | None => []
  end.

(** "Find slot using linear probing". *)
Fixpoint ht_find_slot (fuel : nat) (ht : HashTable) (index : nat) : outcome nat :=
  match fuel with
  | O => OutOfFuel
  | S fuel' =>
      if he_exists (ht_entry_at ht index)
      then ht_find_slot fuel' ht ((index + 1) mod ht_capacity ht)%nat
      else Return index
  end.

(** One iteration of the loop over the keys of the dict: the slot receives
    a copy of all the bytes of the key and is marked as existing. *)
Definition ht_insert_key (ht : HashTable) (k : pystr) : outcome HashTable :=
  key_bytes <- encode_utf8 k ;;
  let hash_val := hash_string key_bytes in
  if (ht_capacity ht =? 0)%nat then Raise ZeroDivisionError
  else
    index <- ht_find_slot (ht_capacity ht) ht
               (Z.to_nat (hash_val mod Z.of_nat (ht_capacity ht))) ;;
    Return (mkHashTable
              (update_nth index (fun _ => mkHashEntry (Some key_bytes) true)
                 (ht_entries ht))
              (ht_capacity ht) (ht_size ht)).

(** [create_hash_table]; the dict is given by its keys in iteration order,
    its values are not read. *)
Definition create_hash_table (py_dict : list pystr) : outcome HashTable :=
  let dict_size := length py_dict in
  let ht := mkHashTable (repeat empty_entry (dict_size * 2)) (dict_size * 2) dict_size in
  for_each py_dict ht_insert_key ht.

(** The probe loop of [hash_table_contains]. *)
Fixpoint ht_contains_loop (fuel : nat) (ht : HashTable) (k : cstring)
    (start_index index : nat) : outcome bool :=
  match fuel with
  | O => OutOfFuel
  | S fuel' =>
      if he_exists (ht_entry_at ht index) then
        if strcmp (ht_key_at ht index) k =? 0 then Return true
        else
          let index' := ((index + 1) mod ht_capacity ht)%nat in
          if (index' =? start_index)%nat then Return false
          else ht_contains_loop fuel' ht k start_index index'
      else Return false
  end.

Definition hash_table_contains (ht : HashTable) (k : cstring) : outcome bool :=
  let hash_val := hash_string k in
  if (ht_capacity ht =? 0)%nat then Raise ZeroDivisionError
  else
    let index := Z.to_nat (hash_val mod Z.of_nat (ht_capacity ht)) in
    ht_contains_loop (ht_capacity ht) ht k index index.

(** [size_t] arithmetic wraps at 2^64. *)
Definition SIZE_MOD : Z := 2 ^ 64.

(** [transform_string]: the bytes stored in [output] before the terminator,
    which is written at index [min(len_input, max_len - 1)]. *)
Definition transform_string (input : cstring) (max_len : Z) : cstring :=
  let len_input := Z.of_nat (strlen input) in
  let bound := (max_len - 1) mod SIZE_MOD in
  fold_left
    (fun output i =>
       if i <? bound
       then output ++ [nth (Z.to_nat (len_input - 1 - i)) input NUL]
       else output)
    (range len_input) [].

(** Size of the buffer [parallel_lookup] transforms into. *)
Definition max_transform_len : Z := 1000.

(** [parallel_lookup].  Every iteration of the [prange] loop reads the
    shared table and writes [results[i]] only, so the iterations are run in
    the order of the index; [num_threads] has no part in the result and is
    left out. *)
Definition parallel_lookup (strings : list pystr) (lookup_dict : list pystr)
  : outcome (list Z) :=
  ht <- create_hash_table lookup_dict ;;
  let n_strings := Z.of_nat (length strings) in
  bytes_list <- encode_all strings ;;
  results <- for_each (range n_strings)
               (fun results i =>
                  r <- hash_table_contains ht
                         (transform_string (name_at bytes_list i) max_transform_len) ;;
                  Return (results ++ [r]))
               [] ;;
  Return (filter (fun i => nth (Z.to_nat i) results false) (range n_strings)).

(** Notions for the statements about the hash table. *)
Definition ht_filled_count (es : list HashEntry) : nat :=
  length (filter he_exists es).

Definition ht_slot_of (ht : HashTable) (k : cstring) : nat :=
  Z.to_nat (hash_string k mod Z.of_nat (ht_capacity ht)).

(** The table holds the keys [stored], each on its own probe sequence behind
    slots that are in use. *)
Record ht_inv (ht : HashTable) (stored : list cstring) : Prop := {
  hti_length : length (ht_entries ht) = ht_capacity ht;
  hti_count : ht_filled_count (ht_entries ht) = length stored;
  hti_keys : forall i, he_exists (ht_entry_at ht i) = true ->
                       exists k, he_key (ht_entry_at ht i) = Some k /\ In k stored;
  hti_stored : forall k, In k stored ->
     exists d, (d < ht_capacity ht)%nat
       /\ ht_entry_at ht ((ht_slot_of ht k + d) mod ht_capacity ht)
          = mkHashEntry (Some k) true
       /\ forall j, (j < d)%nat ->
            he_exists (ht_entry_at ht ((ht_slot_of ht k + j) mod ht_capacity ht)) = true
}.

(** A name free of U+0000 whose only separators are spaces. *)
Definition plain_name (n : pystr) : Prop :=
  Forall (fun c => c <> 0%N /\ (py_isspace c = true -> c = 32%N)) n.

(** [ts] is the set of the first item, in the order of insertion, that is
    stored under the C string [w]. *)
Definition first_binding (keys : list (cstring * StringSet)) (w : cstring)
    (ts : StringSet) : Prop :=
  exists before after,
    keys = before ++ (w, ts) :: after /\ ~ In w (map fst before).

(** The table holds the words of [keys], given in the order of insertion;
    several items may share a C string, and the first of them is the one on
    the probe sequence of that string. *)
Record table_inv_first (tt : TradeoutTable) (keys : list (cstring * StringSet))
  : Prop := {
  invf_length : length (entries tt) = tt_capacity tt;
  invf_count : filled_count (entries tt) = length keys;
  invf_words : forall i w, word (entry_at tt i) = Some w -> In w (map fst keys);
  invf_normal : forall w, In w (map fst keys) -> cstr w = w;
  invf_stored : forall w ts, first_binding keys w ts -> stored_at tt w ts
}.

(** The item of the mapping is stored as the pair [key]: the C string of
    its encoded key and the set built from its matches. *)
Definition item_stored_as (item : pystr * list pystr) (key : cstring * StringSet)
  : Prop :=
  exists wb,
    encode_utf8 (fst item) = Return wb
    /\ fst key = cstr wb
    /\ add_matches (snd item) (item_set_start wb (snd item)) = Return (snd key).

(* ====================================================================== *)
(** * Properties                                                           *)
(* ====================================================================== *)

(** ** Outcomes *)

Lemma clean_bind {A B : Type} (m : outcome A) (f : A -> outcome B) :
  clean m -> (forall a, m = Return a -> clean (f a)) -> clean (bind m f).
Proof.
  destruct m as [a| e |]; simpl; intros Hm Hf; auto.
Qed.

Lemma bind_swap {A B C : Type} (x : outcome A) (y : outcome B)
    (f : A -> B -> outcome C) :
  clean x -> clean y ->
  (a <- x ;; b <- y ;; f a b) = (b <- y ;; a <- x ;; f a b).
Proof.
  destruct x as [a| e |], y as [b| e' |]; simpl; intros Hx Hy;
    try contradiction; subst; reflexivity.
Qed.

Lemma clean_for_each {A S : Type} (xs : list A) (body : S -> A -> outcome S) :
  (forall acc x, In x xs -> clean (body acc x)) ->
  forall acc, clean (for_each xs body acc).
Proof.
  induction xs as [| x xs IH]; simpl; intros Hb acc; [exact I |].
  apply clean_bind; [apply Hb; now left |].
  intros a _. apply IH. intros; apply Hb; now right.
Qed.

Lemma for_each_ext {A S : Type} (xs : list A) (f g : S -> A -> outcome S) :
  (forall acc x, In x xs -> f acc x = g acc x) ->
  forall acc, for_each xs f acc = for_each xs g acc.
Proof.
  induction xs as [| x xs IH]; simpl; intros Hfg acc; [reflexivity |].
  rewrite Hfg by now left.
  destruct (g acc x); simpl; [| reflexivity | reflexivity].
  apply IH. intros; apply Hfg; now right.
Qed.

Lemma for_each_app {A S : Type} (xs ys : list A) (f : S -> A -> outcome S) acc :
  for_each (xs ++ ys) f acc = (acc' <- for_each xs f acc ;; for_each ys f acc').
Proof.
  revert acc; induction xs as [| x xs IH]; simpl; intros acc; [reflexivity |].
  destruct (f acc x); simpl; auto.
Qed.

(** A loop whose every iteration adds one. *)
Lemma for_each_count {A : Type} (xs : list A) (body : Z -> A -> outcome Z) :
  (forall acc x, In x xs -> body acc x = Return (acc + 1)) ->
  forall acc, for_each xs body acc = Return (acc + Z.of_nat (length xs)).
Proof.
  induction xs as [| x xs IH]; intros Hb acc.
  - simpl. f_equal. lia.
  - cbn [for_each]. rewrite Hb by now left. cbn [bind].
    rewrite IH by (intros; apply Hb; now right).
    f_equal. cbn [length]. lia.
Qed.

(** ** Ranges *)

Lemma in_range (n i : Z) : In i (range n) <-> 0 <= i < n.
Proof.
  unfold range. rewrite in_map_iff. split.
  - intros (k & <- & Hk). apply in_seq in Hk. lia.
  - intros Hi. exists (Z.to_nat i). split; [lia |]. apply in_seq. lia.
Qed.

Lemma length_range (n : Z) : 0 <= n -> Z.of_nat (length (range n)) = n.
Proof.
  intros Hn. unfold range. rewrite length_map, length_seq. lia.
Qed.

Lemma in_range_from (lo hi j : Z) : In j (range_from lo hi) <-> lo <= j < hi.
Proof.
  unfold range_from. rewrite in_map_iff. split.
  - intros (k & <- & Hk). apply in_seq in Hk. lia.
  - intros Hj. exists (Z.to_nat (j - lo)). split; [lia |]. apply in_seq. lia.
Qed.

(** ** C strings *)

Lemma uchar_inj (a b : ascii) : uchar a = uchar b -> a = b.
Proof.
  unfold uchar. intros H. apply N2Z.inj in H.
  rewrite <- (ascii_N_embedding a), <- (ascii_N_embedding b). now f_equal.
Qed.

Lemma strcmp_refl (s : cstring) : strcmp s s = 0.
Proof.
  induction s as [| c s IH]; simpl; [reflexivity |].
  rewrite Z.eqb_refl. simpl. destruct (is_nul c); auto.
Qed.

Lemma uchar_nul (c : ascii) : uchar c = 0 <-> is_nul c = true.
Proof.
  unfold is_nul, NUL. rewrite Ascii.eqb_eq. split.
  - intros H. apply uchar_inj. exact H.
  - intros ->. reflexivity.
Qed.

(** [strcmp] answers 0 exactly on strings with the same bytes before the
    terminator. *)
Lemma strcmp_zero (a b : cstring) : strcmp a b = 0 <-> cstr a = cstr b.
Proof.
  revert b; induction a as [| ca a IH]; intros [| cb b]; simpl.
  - tauto.
  - destruct (is_nul cb) eqn:E.
    + apply uchar_nul in E. rewrite E. tauto.
    + split; [| discriminate]. intros H.
      assert (uchar cb = 0) by lia. apply uchar_nul in H0. congruence.
  - destruct (is_nul ca) eqn:E.
    + apply uchar_nul in E. rewrite E. tauto.
    + split; [| discriminate]. intros H. apply uchar_nul in H. congruence.
  - destruct (uchar ca =? uchar cb) eqn:E; simpl.
    + apply Z.eqb_eq in E. apply uchar_inj in E. subst cb.
      destruct (is_nul ca); [tauto |]. rewrite IH.
      split; [intros ->; reflexivity | intros H; now inversion H].
    + apply Z.eqb_neq in E. split; [lia |].
      destruct (is_nul ca) eqn:Ea, (is_nul cb) eqn:Eb; try discriminate.
      * apply uchar_nul in Ea, Eb. congruence.
      * intros H. inversion H. congruence.
Qed.

Lemma cstr_idem (s : cstring) : cstr (cstr s) = cstr s.
Proof.
  induction s as [| c s IH]; simpl; [reflexivity |].
  destruct (is_nul c) eqn:E; simpl; [reflexivity |]. rewrite E. now f_equal.
Qed.

(** ** Termination of the lookup *)

Lemma probe_next (cap start k : nat) :
  (((start + k) mod cap + 1) mod cap = (start + (k + 1)) mod cap)%nat.
Proof.
  rewrite Nat.Div0.add_mod_idemp_l. f_equal. lia.
Qed.

Lemma probe_wrap (cap start : nat) :
  (start < cap -> (start + cap) mod cap = start)%nat.
Proof.
  intros H. rewrite <- Nat.Div0.add_mod_idemp_r, Nat.Div0.mod_same, Nat.add_0_r.
  now apply Nat.mod_small.
Qed.

(** After [k] probes the loop is at slot [(start + k) mod capacity]; the
    cycle guard stops it before the fuel [capacity - k] is used up. *)
Lemma lookup_loop_returns (tt : TradeoutTable) (w : cstring) (start : nat) :
  (start < tt_capacity tt)%nat ->
  forall fuel k, (k + fuel = tt_capacity tt)%nat -> (k < tt_capacity tt)%nat ->
  exists r, lookup_loop fuel tt w start ((start + k) mod tt_capacity tt)%nat = Return r.
Proof.
  intros Hstart. induction fuel as [| fuel IH]; intros k Hk Hlt; [lia |].
  cbn [lookup_loop].
  destruct (word (entry_at tt _)) as [stored |]; [| eauto].
  destruct (strcmp stored w =? 0); [eauto |].
  rewrite probe_next.
  destruct (Nat.eqb_spec ((start + (k + 1)) mod tt_capacity tt) start) as [E | E];
    [eauto |].
  apply IH; [lia |].
  destruct (Nat.eq_dec (k + 1) (tt_capacity tt)) as [Hc | Hc]; [| lia].
  exfalso. apply E. rewrite Hc. now apply probe_wrap.
Qed.

Lemma hash_slot_bound (h : Z) (cap : nat) :
  (cap <> 0 -> Z.to_nat (h mod Z.of_nat cap) < cap)%nat.
Proof.
  intros Hc. assert (0 <= h mod Z.of_nat cap < Z.of_nat cap) by (apply Z.mod_pos_bound; lia).
  lia.
Qed.

(** On a table with at least one slot the lookup returns. *)
Lemma tradeout_table_lookup_returns (tt : TradeoutTable) (w : cstring) :
  tt_capacity tt <> 0%nat -> exists r, tradeout_table_lookup tt w = Return r.
Proof.
  intros Hc. unfold tradeout_table_lookup.
  destruct (Nat.eqb_spec (tt_capacity tt) 0) as [E | _]; [contradiction |].
  pose proof (hash_slot_bound (hash_string w) _ Hc) as Hb.
  destruct (lookup_loop_returns tt w _ Hb (tt_capacity tt) 0%nat) as [r Hr]; [lia | lia |].
  rewrite Nat.add_0_r, Nat.mod_small in Hr by exact Hb. eauto.
Qed.

Lemma tradeout_table_lookup_clean (tt : TradeoutTable) (w : cstring) :
  clean (tradeout_table_lookup tt w).
Proof.
  destruct (Nat.eq_dec (tt_capacity tt) 0) as [E | E].
  - unfold tradeout_table_lookup. rewrite E. reflexivity.
  - destruct (tradeout_table_lookup_returns tt w E) as [r ->]. exact I.
Qed.

(** ** The two counting loops *)

Lemma matches_b_in_a_swap (a b : cstring) (len_a len_b : Z) (tt : TradeoutTable) :
  matches_b_in_a a b len_a len_b tt = matches_a_in_b b a len_b len_a tt.
Proof. reflexivity. Qed.

Lemma matches_a_in_b_clean (a b : cstring) (len_a len_b : Z) (tt : TradeoutTable) :
  clean (matches_a_in_b a b len_a len_b tt).
Proof.
  unfold matches_a_in_b. apply clean_for_each. intros acc i _.
  destruct (existsb _ _); [exact I |].
  apply clean_bind; [apply tradeout_table_lookup_clean |].
  intros [ts |] _; [destruct (existsb _ _) |]; exact I.
Qed.

Lemma validate_match_clean (a b : cstring) (tt : TradeoutTable) :
  clean (validate_match a b tt).
Proof.
  unfold validate_match.
  destruct (_ || _); [exact I |].
  apply clean_bind; [apply matches_a_in_b_clean |]. intros m_ab _.
  apply clean_bind; [rewrite matches_b_in_a_swap; apply matches_a_in_b_clean |].
  intros m_ba _.
  repeat match goal with |- clean (if ?c then _ else _) => destruct c end; exact I.
Qed.

(** [validate_match] returns: it yields a truth value, or the
    [ZeroDivisionError] of a lookup in a table without slots. *)
Lemma validate_match_returns (a b : cstring) (tt : TradeoutTable) :
  (exists r, validate_match a b tt = Return r)
  \/ validate_match a b tt = Raise ZeroDivisionError.
Proof.
  pose proof (validate_match_clean a b tt) as H.
  destruct (validate_match a b tt) as [r | e |]; simpl in H;
    [eauto | subst; auto | contradiction].
Qed.

(** C1.  [validate_match] is symmetric in its two names, for every tradeout
    table (whatever the synonym mapping it was built from): both orders give
    the same truth value, or both raise. *)
Theorem validate_match_symmetric (a b : cstring) (tt : TradeoutTable) :
  validate_match a b tt = validate_match b a tt.
Proof.
  unfold validate_match.
  rewrite (orb_comm (count_words b <? 2)).
  destruct (_ || _); [reflexivity |].
  rewrite !matches_b_in_a_swap.
  rewrite (bind_swap (matches_a_in_b b a _ _ tt))
    by apply matches_a_in_b_clean.
  destruct (matches_a_in_b a b _ _ tt) as [x | |]; [| reflexivity | reflexivity].
  destruct (matches_a_in_b b a _ _ tt) as [y | |]; [| reflexivity | reflexivity].
  cbn [bind].
  rewrite (orb_comm (count_words b - _ <? 2)).
  repeat match goal with |- context [if ?c then _ else _] => destruct c end;
    reflexivity.
Qed.

(** ** Identical names *)

Lemma matches_self (n : cstring) (tt : TradeoutTable) :
  0 <= count_words n ->
  matches_a_in_b n n (count_words n) (count_words n) tt = Return (count_words n).
Proof.
  intros Hn. unfold matches_a_in_b.
  rewrite for_each_count.
  - rewrite length_range by exact Hn. reflexivity.
  - intros acc i Hi.
    replace (existsb _ _) with true; [reflexivity |].
    symmetry. apply existsb_exists. exists i. split; [exact Hi |].
    rewrite strcmp_refl. reflexivity.
Qed.

(** C4.  A name with at least two space-delimited words matches an
    identical copy of itself, for every tradeout table. *)
Theorem validate_match_identical (n : cstring) (tt : TradeoutTable) :
  2 <= count_words n -> validate_match n n tt = Return true.
Proof.
  intros Hn. unfold validate_match.
  replace (count_words n <? 2) with false by (symmetry; apply Z.ltb_ge; lia).
  cbn [orb]. rewrite matches_b_in_a_swap, matches_self by lia. cbn [bind].
  rewrite Z.sub_diag, Z.sub_0_r. cbn [Z.eqb negb andb].
  rewrite !andb_false_r. cbn [andb].
  replace (count_words n <? 2) with false by (symmetry; apply Z.ltb_ge; lia).
  reflexivity.
Qed.

Lemma validate_match_identical_witness :
  2 <= count_words (lit "Alice Smith")
  /\ validate_match (lit "Alice Smith") (lit "Alice Smith")
       (mkTradeoutTable [] 0 0) = Return true.
Proof.
  split; [vm_compute; discriminate |].
  apply (validate_match_identical (lit "Alice Smith")). vm_compute. discriminate.
Defined.

(** ** Word extraction *)

(** Past index 0 [extract_word] stores nothing: the early return fires at
    the space that ends word [word_index - 1], before the requested word is
    reached. *)
Lemma extract_word_loop_later (s : cstring) (word_index max_len : Z) :
  forall current_word in_word out_idx,
    current_word < word_index \/ (current_word = word_index /\ in_word = true) ->
    extract_word_loop s word_index max_len current_word in_word out_idx = [].
Proof.
  induction s as [| c s IH]; intros cw iw oi H; cbn [extract_word_loop];
    [reflexivity |].
  destruct (is_nul c); [reflexivity |].
  destruct (is_space c).
  - destruct (iw && (cw =? word_index)) eqn:E; [reflexivity |].
    apply IH. destruct H as [H | [H1 H2]]; [now left |].
    subst. rewrite Z.eqb_refl in E. discriminate.
  - cbv zeta.
    replace ((if negb iw then cw + 1 else cw) =? word_index + 1) with false.
    + cbn [andb]. apply IH. destruct iw; cbn [negb]; lia.
    + symmetry. apply Z.eqb_neq. destruct H as [H | [H1 H2]]; subst; cbn [negb];
        [destruct iw; cbn [negb] |]; lia.
Qed.

Lemma extract_word_later_empty (s : cstring) (word_index max_len : Z) :
  1 <= word_index -> extract_word s word_index max_len = [].
Proof.
  intros H. apply extract_word_loop_later. lia.
Qed.

(** ** Truncation of over-long words *)

Lemma count_words_loop_truncate (s : cstring) :
  forall kept count in_word,
    ((0 < kept)%nat -> in_word = true) ->
    count_words_loop (truncate_words_loop s kept) count in_word
    = count_words_loop s count in_word.
Proof.
  induction s as [| c s IH]; intros k count iw Hk; [reflexivity |].
  cbn [truncate_words_loop].
  destruct (is_nul c) eqn:En; [reflexivity |].
  destruct (is_space c) eqn:Es.
  - cbn [count_words_loop]. rewrite En, Es. apply IH. lia.
  - destruct (Nat.ltb_spec k WORD_MAX) as [Hlt | Hge].
    + cbn [count_words_loop]. rewrite En, Es.
      destruct iw; cbn [negb]; apply IH; reflexivity.
    + cbn [count_words_loop]. rewrite En, Es.
      rewrite (Hk ltac:(unfold WORD_MAX in Hge; lia)). cbn [negb].
      rewrite <- (Hk ltac:(unfold WORD_MAX in Hge; lia)). apply IH. exact Hk.
Qed.

Lemma count_words_truncate (s : cstring) :
  count_words (truncate_words s) = count_words s.
Proof.
  apply count_words_loop_truncate. lia.
Qed.

(** While the requested word is copied, [out_idx] equals the number of its
    bytes kept so far; before it is reached, [out_idx] is 0. *)
Lemma extract_word_loop_truncate (s : cstring) (word_index : Z) :
  forall kept current_word in_word out_idx,
    ((0 < kept)%nat -> in_word = true) ->
    (in_word = true -> current_word = word_index + 1 -> out_idx = Z.of_nat kept) ->
    (current_word <= word_index -> out_idx = 0) ->
    extract_word_loop (truncate_words_loop s kept) word_index WORD_BUF
      current_word in_word out_idx
    = extract_word_loop s word_index WORD_BUF current_word in_word out_idx.
Proof.
  induction s as [| c s IH]; intros k cw iw oi Hk Hin Hbefore; [reflexivity |].
  cbn [truncate_words_loop].
  destruct (is_nul c) eqn:En; [reflexivity |].
  destruct (is_space c) eqn:Es.
  - cbn [extract_word_loop]. rewrite En, Es.
    destruct (iw && (cw =? word_index)); [reflexivity |].
    apply IH; [lia | discriminate | exact Hbefore].
  - unfold WORD_MAX, WORD_BUF in *.
    destruct (Nat.ltb_spec k 1023) as [Hlt | Hge].
    + cbn [extract_word_loop]. rewrite En, Es. cbv zeta.
      destruct ((if negb iw then cw + 1 else cw) =? word_index + 1) eqn:Ecw;
        [apply Z.eqb_eq in Ecw | apply Z.eqb_neq in Ecw].
      * assert (oi = Z.of_nat k) as Hoi.
        { destruct iw; cbn [negb] in Ecw; [auto |].
          rewrite Hbefore by lia.
          destruct k; [reflexivity |]. discriminate Hk. lia. }
        replace (oi <? 1024 - 1) with true by (symmetry; apply Z.ltb_lt; lia).
        cbn [andb]. f_equal. apply IH; [reflexivity | lia | lia].
      * cbn [andb]. apply IH; [reflexivity | intros; contradiction |].
        intros Hle. apply Hbefore. destruct iw; cbn [negb] in *; lia.
    + assert (iw = true) as -> by (apply Hk; lia).
      cbn [extract_word_loop]. rewrite En, Es. cbv zeta. cbn [negb].
      replace ((cw =? word_index + 1) && (oi <? 1024 - 1)) with false.
      * apply IH; assumption.
      * symmetry. apply andb_false_iff.
        destruct (Z.eqb_spec cw (word_index + 1)) as [E | E]; [right | now left].
        apply Z.ltb_ge. rewrite (Hin eq_refl E). lia.
Qed.

Lemma extract_word_truncate (s : cstring) (i : Z) :
  extract_word (truncate_words s) i WORD_BUF = extract_word s i WORD_BUF.
Proof.
  apply extract_word_loop_truncate; [lia | discriminate | reflexivity].
Qed.

Lemma existsb_ext_in {A : Type} (f g : A -> bool) (l : list A) :
  (forall x, In x l -> f x = g x) -> existsb f l = existsb g l.
Proof.
  induction l as [| x l IH]; simpl; intros H; [reflexivity |].
  rewrite H by now left. f_equal. apply IH. intros; apply H; now right.
Qed.

(** The counting loops read the names only through [extract_word]. *)
Lemma matches_a_in_b_words (a a' b b' : cstring) (len_a len_b : Z)
    (tt : TradeoutTable) :
  (forall i, extract_word a i WORD_BUF = extract_word a' i WORD_BUF) ->
  (forall j, extract_word b j WORD_BUF = extract_word b' j WORD_BUF) ->
  matches_a_in_b a b len_a len_b tt = matches_a_in_b a' b' len_a len_b tt.
Proof.
  intros Ha Hb. unfold matches_a_in_b. apply for_each_ext. intros acc i _.
  rewrite Ha.
  rewrite (existsb_ext_in _
             (fun j => strcmp (extract_word a' i WORD_BUF) (extract_word b' j WORD_BUF) =? 0))
    by (intros; now rewrite Hb).
  destruct (existsb _ _); [reflexivity |].
  destruct (tradeout_table_lookup tt _) as [[ts |] | |]; cbn [bind]; try reflexivity.
  rewrite (existsb_ext_in _
             (fun j => string_set_contains ts (extract_word b' j WORD_BUF)))
    by (intros; now rewrite Hb).
  reflexivity.
Qed.

(** C9.  Words are cut to 1023 bytes for matching: [validate_match] gives
    the same outcome on two names as on the names in which every word longer
    than 1023 bytes is replaced by its first 1023 bytes; an over-long word
    raises nothing of its own. *)
Theorem validate_match_truncates (a b : cstring) (tt : TradeoutTable) :
  validate_match a b tt = validate_match (truncate_words a) (truncate_words b) tt.
Proof.
  unfold validate_match. rewrite !count_words_truncate, !matches_b_in_a_swap.
  rewrite (matches_a_in_b_words (truncate_words a) a (truncate_words b) b)
    by apply extract_word_truncate.
  rewrite (matches_a_in_b_words (truncate_words b) b (truncate_words a) a)
    by apply extract_word_truncate.
  reflexivity.
Qed.

(** ** The acceptance rules on the words of the names *)

(** C2.  The three-word rule does not hold of the code.  Under the table
    built from [{"Bob": ["Robert"]}], "Alice B Smith" and
    "Alice Smith Jones" have three words each, the word "B" equals no word
    of the other name and has no tradeout entry, and yet [validate_match]
    accepts the pair: [extract_word] hands back the empty string for the
    second and third word of either name, so only the first words are
    compared. *)
Theorem three_word_rule_fails :
  exists tt,
    create_tradeout_table bob_robert = Return tt
    /\ words (lit "Alice B Smith") = [lit "Alice"; lit "B"; lit "Smith"]
    /\ words (lit "Alice Smith Jones") = [lit "Alice"; lit "Smith"; lit "Jones"]
    /\ tradeout_table_lookup tt (lit "B") = Return None
    /\ map (fun i => extract_word (lit "Alice B Smith") i WORD_BUF) (range 3)
       = [lit "Alice"; []; []]
    /\ validate_match (lit "Alice B Smith") (lit "Alice Smith Jones") tt
       = Return true.
Proof.
  eexists. split; [vm_compute; reflexivity |].
  repeat match goal with |- _ /\ _ => split end; vm_compute; reflexivity.
Qed.

(** C3.  The two-match floor does not hold of the code.  The four-word name
    "John Q Public Smith" and the two-word name "John Doe" share the single
    word "John" and no word of either has a tradeout entry, yet
    [validate_match] accepts the pair: every word past the first is
    extracted as the empty string and so matches the empty string extracted
    from the other name. *)
Theorem two_match_floor_fails :
  exists tt,
    create_tradeout_table bob_robert = Return tt
    /\ words (lit "John Q Public Smith")
       = [lit "John"; lit "Q"; lit "Public"; lit "Smith"]
    /\ words (lit "John Doe") = [lit "John"; lit "Doe"]
    /\ Forall (fun w => tradeout_table_lookup tt w = Return None)
         [lit "John"; lit "Q"; lit "Public"; lit "Smith"; lit "Doe"]
    /\ matches_a_in_b (lit "John Q Public Smith") (lit "John Doe") 4 2 tt = Return 4
    /\ matches_b_in_a (lit "John Q Public Smith") (lit "John Doe") 4 2 tt = Return 2
    /\ validate_match (lit "John Q Public Smith") (lit "John Doe") tt = Return true.
Proof.
  eexists. split; [vm_compute; reflexivity |].
  split; [vm_compute; reflexivity |].
  split; [vm_compute; reflexivity |].
  split; [repeat (apply Forall_cons; [vm_compute; reflexivity |]); apply Forall_nil |].
  repeat match goal with |- _ /\ _ => split end; vm_compute; reflexivity.
Qed.

(** ** Lookup in the table of an empty mapping *)

(** C8.  The table built from the empty mapping has capacity 0, and looking
    any word up in it raises [ZeroDivisionError] at [hash_val % tt.capacity]
    instead of answering "not found". *)
Theorem lookup_empty_mapping_raises (w : cstring) :
  exists tt,
    create_tradeout_table [] = Return tt
    /\ tt_capacity tt = 0%nat
    /\ tradeout_table_lookup tt w = Raise ZeroDivisionError.
Proof.
  eexists. split; [reflexivity |]. split; reflexivity.
Qed.

(** ** The scan *)

(** A property of the accumulator kept by every iteration holds at the end
    of the loop. *)
Lemma for_each_invariant {A S : Type} (I : S -> Prop) (xs : list A)
    (body : S -> A -> outcome S) :
  (forall acc x acc', In x xs -> I acc -> body acc x = Return acc' -> I acc') ->
  forall acc r, I acc -> for_each xs body acc = Return r -> I r.
Proof.
  induction xs as [| x xs IH]; cbn [for_each]; intros Hb acc r Hacc Hr.
  - now inversion Hr; subst.
  - destruct (body acc x) as [acc' | |] eqn:E; cbn [bind] in Hr; try discriminate.
    apply (IH (fun a y a' Hy => Hb a y a' (or_intror Hy)) acc' r); [| exact Hr].
    apply (Hb acc x acc'); [now left | exact Hacc | exact E].
Qed.

Lemma scan_row_accepted (name_ptrs : list cstring) (n_names : Z) (tt : TradeoutTable)
    (buf buf' : list NamePair) (i : Z) :
  Forall (accepted tt) buf ->
  scan_row name_ptrs n_names tt buf i = Return buf' ->
  Forall (accepted tt) buf'.
Proof.
  unfold scan_row. intros Hbuf. apply for_each_invariant; [| exact Hbuf].
  intros acc j acc' _ Hacc Hstep.
  destruct (validate_match _ _ tt) as [[|] | |] eqn:E; cbn [bind] in Hstep;
    inversion Hstep; subst; [| exact Hacc].
  apply Forall_app. split; [exact Hacc |]. constructor; [exact E | constructor].
Qed.

Lemma run_worker_accepted (name_ptrs : list cstring) (n_names : Z) (tt : TradeoutTable)
    (claimed : list Z) (buf : list NamePair) :
  run_worker name_ptrs n_names tt claimed = Return buf -> Forall (accepted tt) buf.
Proof.
  unfold run_worker. apply (for_each_invariant (Forall (accepted tt))); [| constructor].
  intros acc i acc' _ Hacc Hstep. eapply scan_row_accepted; eassumption.
Qed.

Lemma parallel_loop_accepted (name_ptrs : list cstring) (n_names : Z)
    (tt : TradeoutTable) (sched : list (list Z)) :
  forall bufs, parallel_loop name_ptrs n_names tt sched = Return bufs ->
               Forall (Forall (accepted tt)) bufs.
Proof.
  induction sched as [| claimed sched IH]; cbn [parallel_loop]; intros bufs H.
  - inversion H. constructor.
  - destruct (run_worker _ _ _ claimed) as [buf | |] eqn:E; cbn [bind] in H;
      try discriminate.
    destruct (parallel_loop _ _ _ sched) as [rest | |]; cbn [bind] in H;
      try discriminate.
    inversion H; subst. constructor; [| now apply IH].
    eapply run_worker_accepted; eassumption.
Qed.

Lemma validate_match_true_words (a b : cstring) (tt : TradeoutTable) :
  validate_match a b tt = Return true -> 2 <= count_words a /\ 2 <= count_words b.
Proof.
  unfold validate_match.
  destruct (Z.ltb_spec (count_words a) 2), (Z.ltb_spec (count_words b) 2);
    cbn [orb]; try discriminate.
  intros _. lia.
Qed.

Lemma validate_match_short (a b : cstring) (tt : TradeoutTable) :
  count_words a < 2 \/ count_words b < 2 -> validate_match a b tt = Return false.
Proof.
  intros H. unfold validate_match.
  destruct (Z.ltb_spec (count_words a) 2), (Z.ltb_spec (count_words b) 2);
    cbn [orb]; try reflexivity.
  lia.
Qed.

Lemma count_words_loop_cstr (s : cstring) :
  forall count in_word,
    count_words_loop (cstr s) count in_word = count_words_loop s count in_word.
Proof.
  induction s as [| c s IH]; intros count iw; [reflexivity |].
  cbn [cstr count_words_loop].
  destruct (is_nul c) eqn:En; [reflexivity |].
  cbn [count_words_loop]. rewrite En.
  destruct (is_space c); [apply IH |]. destruct (negb iw); apply IH.
Qed.

Lemma count_words_cstr (s : cstring) : count_words (cstr s) = count_words s.
Proof. apply count_words_loop_cstr. Qed.

Lemma in_collect (bufs : list (list NamePair)) (o1 o2 : cstring) :
  In (o1, o2) (collect bufs) ->
  exists buf p, In buf bufs /\ In p buf /\ o1 = cstr (name1 p) /\ o2 = cstr (name2 p).
Proof.
  unfold collect. intros H. apply in_concat in H. destruct H as (l & Hl & Hin).
  apply in_map_iff in Hl. destruct Hl as (buf & <- & Hbuf).
  apply in_map_iff in Hin. destruct Hin as (p & Hp & Hpin).
  inversion Hp; subst. eauto 6.
Qed.

Lemma valid_names_split (all_names : list pystr) (n : pystr) :
  In n (valid_names all_names) <-> In n all_names /\ (2 <= length (py_split n))%nat.
Proof.
  unfold valid_names. rewrite filter_In, Nat.leb_le. reflexivity.
Qed.

(** C6, as the code has it.  When [parallel_find_matches] returns: a name
    that [str.split()] cuts into fewer than two words is not in the scan
    domain; both names of every pair returned have at least two
    space-delimited words, so a name with fewer occurs in no pair; and
    [validate_match] answers false at once when either name has fewer than
    two space-delimited words. *)
Theorem two_word_minimum (all_names : list pystr)
    (word_to_matches : list (pystr * list pystr)) (num_threads cpu_count : Z)
    (sched : list (list Z)) (res : list (cstring * cstring)) :
  parallel_find_matches all_names word_to_matches num_threads cpu_count sched
    = Return res ->
  (forall n, (length (py_split n) < 2)%nat -> ~ In n (valid_names all_names))
  /\ (forall o1 o2, In (o1, o2) res -> 2 <= count_words o1 /\ 2 <= count_words o2)
  /\ (forall a b tt, count_words a < 2 \/ count_words b < 2 ->
                     validate_match a b tt = Return false).
Proof.
  intros Hres. split; [| split].
  - intros n Hn Hin. apply valid_names_split in Hin. lia.
  - unfold parallel_find_matches in Hres.
    destruct (create_tradeout_table word_to_matches) as [tt | |];
      cbn [bind] in Hres; try discriminate.
    destruct (encode_all _) as [bytes_list | |]; cbn [bind] in Hres; try discriminate.
    destruct (parallel_loop _ _ tt sched) as [bufs | |] eqn:E; cbn [bind] in Hres;
      try discriminate.
    inversion Hres; subst res. intros o1 o2 Hin.
    apply in_collect in Hin. destruct Hin as (buf & p & Hbuf & Hp & -> & ->).
    apply parallel_loop_accepted in E.
    rewrite Forall_forall in E. specialize (E buf Hbuf).
    rewrite Forall_forall in E. specialize (E p Hp).
    apply validate_match_true_words in E. now rewrite !count_words_cstr.
  - intros a b tt. apply validate_match_short.
Qed.

Lemma two_word_minimum_witness :
  parallel_find_matches [pystr_of "Alice Smith"; pystr_of "Al"; pystr_of "Alice Smith"]
    bob_robert 1 4 [[0; 1]]
  = Return [(lit "Alice Smith", lit "Alice Smith")]
  /\ ~ In (pystr_of "Al")
         (valid_names [pystr_of "Alice Smith"; pystr_of "Al"; pystr_of "Alice Smith"])
  /\ validate_match (lit "Al") (lit "Alice Smith") (mkTradeoutTable [] 0 0)
     = Return false.
Proof.
  pose proof (two_word_minimum
                [pystr_of "Alice Smith"; pystr_of "Al"; pystr_of "Alice Smith"]
                bob_robert 1 4 [[0; 1]] [(lit "Alice Smith", lit "Alice Smith")])
    as H.
  assert (parallel_find_matches
            [pystr_of "Alice Smith"; pystr_of "Al"; pystr_of "Alice Smith"]
            bob_robert 1 4 [[0; 1]]
          = Return [(lit "Alice Smith", lit "Alice Smith")]) as E
    by (vm_compute; reflexivity).
  destruct (H E) as (Ha & _ & Hc).
  split; [exact E |]. split.
  - apply Ha. vm_compute. lia.
  - apply Hc. left. vm_compute. reflexivity.
Defined.

(** C6, as stated, fails on the scan domain: "Alice\tSmith" has a single
    space-delimited word, yet [str.split()] cuts it in two and the filter
    keeps it. *)
Lemma tab_name_in_scan_domain :
  exists b,
    encode_utf8 alice_tab_smith = Return b
    /\ count_words b < 2
    /\ In alice_tab_smith (valid_names [alice_tab_smith]).
Proof.
  eexists. split; [vm_compute; reflexivity |].
  split; [vm_compute; reflexivity |].
  vm_compute. left. reflexivity.
Qed.

(** C5.  The scan pairs list positions, not values: on an input holding the
    name "Alice Smith" twice it returns the pair of that name with itself,
    and on an input holding it three times it returns that pair three
    times. *)
Theorem duplicate_names_are_paired :
  schedule_of (resolve_threads 1 4) 2 [[0; 1]]
  /\ parallel_find_matches [pystr_of "Alice Smith"; pystr_of "Alice Smith"]
       bob_robert 1 4 [[0; 1]]
     = Return [(lit "Alice Smith", lit "Alice Smith")]
  /\ parallel_find_matches
       [pystr_of "Alice Smith"; pystr_of "Alice Smith"; pystr_of "Alice Smith"]
       bob_robert 1 4 [[0; 1; 2]]
     = Return [(lit "Alice Smith", lit "Alice Smith");
               (lit "Alice Smith", lit "Alice Smith");
               (lit "Alice Smith", lit "Alice Smith")].
Proof.
  split; [split; [reflexivity | apply Permutation_refl] |].
  split; vm_compute; reflexivity.
Qed.

(** ** Slots of the table *)

Lemma mod_sub_once (a n : nat) : (n <= a < 2 * n -> a mod n = a - n)%nat.
Proof.
  intros H. symmetry. apply (Nat.mod_unique a n 1); lia.
Qed.

Lemma probe_neq_start (cap start j : nat) :
  (start < cap -> 0 < j < cap -> (start + j) mod cap <> start)%nat.
Proof.
  intros Hs Hj. destruct (Nat.lt_ge_cases (start + j) cap) as [H | H].
  - rewrite Nat.mod_small by exact H. lia.
  - rewrite mod_sub_once by lia. lia.
Qed.

(** Every slot is reached from every start within [cap] probes. *)
Lemma probe_reaches (cap start target : nat) :
  (start < cap -> target < cap ->
   exists d, d < cap /\ (start + d) mod cap = target)%nat.
Proof.
  intros Hs Ht. destruct (Nat.le_gt_cases start target) as [H | H].
  - exists (target - start)%nat. split; [lia |].
    rewrite Nat.mod_small by lia. lia.
  - exists (target + cap - start)%nat. split; [lia |].
    rewrite mod_sub_once by lia. lia.
Qed.

Lemma exists_free_slot (es : list WordTradeouts) :
  (filled_count es < length es)%nat ->
  exists i, (i < length es)%nat /\ word (nth i es empty_slot) = None.
Proof.
  unfold filled_count. induction es as [| e es IH]; cbn [filter length]; [lia |].
  unfold is_filled at 1. destruct (word e) eqn:E.
  - cbn [length]. intros H. destruct IH as (i & Hi & Hw); [lia |].
    exists (S i). split; [lia | exact Hw].
  - intros _. exists 0%nat. split; [lia | exact E].
Qed.

Lemma length_update_nth {A : Type} (n : nat) (f : A -> A) (l : list A) :
  length (update_nth n f l) = length l.
Proof.
  revert n; induction l as [| x l IH]; intros [| n]; simpl; auto.
Qed.

Lemma nth_update_nth_eq {A : Type} (n : nat) (f : A -> A) (l : list A) (d : A) :
  (n < length l)%nat -> nth n (update_nth n f l) d = f (nth n l d).
Proof.
  revert n; induction l as [| x l IH]; intros [| n]; simpl; intros H;
    try lia; auto. apply IH. lia.
Qed.

Lemma nth_update_nth_neq {A : Type} (n m : nat) (f : A -> A) (l : list A) (d : A) :
  n <> m -> nth m (update_nth n f l) d = nth m l d.
Proof.
  revert n m; induction l as [| x l IH]; intros [| n] [| m]; simpl; intros H;
    try congruence; auto.
Qed.

Lemma filled_count_update_fill (n : nat) (f : WordTradeouts -> WordTradeouts)
    (es : list WordTradeouts) :
  (n < length es)%nat -> word (nth n es empty_slot) = None ->
  (forall e, is_filled (f e) = true) ->
  filled_count (update_nth n f es) = S (filled_count es).
Proof.
  unfold filled_count. intros Hn Hw Hf.
  revert n Hn Hw; induction es as [| e es IH]; intros [| n] Hn Hw;
    cbn [length] in Hn; try lia; cbn [update_nth filter nth] in *.
  - rewrite Hf. unfold is_filled. rewrite Hw. reflexivity.
  - destruct (is_filled e); cbn [length]; rewrite IH by (auto; lia); reflexivity.
Qed.

Lemma filled_count_update_keep (n : nat) (f : WordTradeouts -> WordTradeouts)
    (es : list WordTradeouts) :
  (forall e, is_filled (f e) = is_filled e) ->
  filled_count (update_nth n f es) = filled_count es.
Proof.
  unfold filled_count. intros Hf.
  revert n; induction es as [| e es IH]; intros [| n]; cbn [update_nth filter];
    try reflexivity.
  - rewrite Hf. destruct (is_filled e); reflexivity.
  - destruct (is_filled e); cbn [length]; rewrite IH; reflexivity.
Qed.

Lemma filled_count_repeat_empty (n : nat) : filled_count (repeat empty_slot n) = 0%nat.
Proof.
  unfold filled_count. induction n as [| n IH]; [reflexivity | exact IH].
Qed.

Lemma probe_shift (cap i d : nat) :
  (((i + 1) mod cap + d) mod cap = (i + S d) mod cap)%nat.
Proof.
  rewrite Nat.Div0.add_mod_idemp_l. f_equal. lia.
Qed.

(** The probe for a free slot stops at the first free slot of the probe
    sequence, whenever one lies within reach of the fuel. *)
Lemma find_slot_finds (tt : TradeoutTable) :
  forall fuel index d,
    (index < tt_capacity tt)%nat -> (d < fuel)%nat ->
    word (entry_at tt ((index + d) mod tt_capacity tt)) = None ->
    exists d', (d' <= d)%nat
      /\ find_slot fuel tt index = Return ((index + d') mod tt_capacity tt)%nat
      /\ word (entry_at tt ((index + d') mod tt_capacity tt)) = None
      /\ forall k, (k < d')%nat ->
                   word (entry_at tt ((index + k) mod tt_capacity tt)) <> None.
Proof.
  induction fuel as [| fuel IH]; intros index d Hi Hd Hfree; [lia |].
  cbn [find_slot].
  destruct (word (entry_at tt index)) as [w |] eqn:E.
  - destruct d as [| d].
    { rewrite Nat.add_0_r, Nat.mod_small in Hfree by exact Hi. congruence. }
    destruct (IH ((index + 1) mod tt_capacity tt)%nat d) as (d' & Hd' & Hr & Hf & Hk).
    + apply Nat.mod_upper_bound. lia.
    + lia.
    + rewrite probe_shift. exact Hfree.
    + exists (S d'). rewrite probe_shift in Hr, Hf.
      repeat split; [lia | exact Hr | exact Hf |].
      intros [| k] Hlt.
      * rewrite Nat.add_0_r, Nat.mod_small by exact Hi. congruence.
      * specialize (Hk k ltac:(lia)). now rewrite probe_shift in Hk.
  - exists 0%nat. rewrite Nat.add_0_r, Nat.mod_small by exact Hi.
    repeat split; [lia | exact E | intros; lia].
Qed.

(** ** Keys stored in the table *)

Lemma hash_loop_cstr (s : cstring) :
  forall h, hash_loop (cstr s) h = hash_loop s h.
Proof.
  induction s as [| c s IH]; intros h; [reflexivity |].
  cbn [cstr hash_loop]. destruct (is_nul c) eqn:E; [reflexivity |].
  cbn [hash_loop]. rewrite E. apply IH.
Qed.

Lemma hash_string_cstr (s : cstring) : hash_string (cstr s) = hash_string s.
Proof. apply hash_loop_cstr. Qed.

Lemma slot_of_cstr (tt : TradeoutTable) (s : cstring) :
  slot_of tt (cstr s) = slot_of tt s.
Proof. unfold slot_of. now rewrite hash_string_cstr. Qed.

Lemma slot_of_bound (tt : TradeoutTable) (s : cstring) :
  tt_capacity tt <> 0%nat -> (slot_of tt s < tt_capacity tt)%nat.
Proof. apply hash_slot_bound. Qed.

(** The lookup walks the probe sequence of the word up to its slot. *)
Lemma lookup_loop_walk (tt : TradeoutTable) (q : cstring) (ts : StringSet)
    (start d : nat) :
  (start < tt_capacity tt)%nat -> (d < tt_capacity tt)%nat ->
  (exists w, entry_at tt ((start + d) mod tt_capacity tt)
             = mkWordTradeouts (Some w) (Some ts) /\ strcmp w q = 0) ->
  (forall k, (k < d)%nat ->
     exists w', word (entry_at tt ((start + k) mod tt_capacity tt)) = Some w'
                /\ strcmp w' q <> 0) ->
  forall fuel k, (k <= d)%nat -> (d < k + fuel)%nat ->
    lookup_loop fuel tt q start ((start + k) mod tt_capacity tt)%nat
    = Return (Some ts).
Proof.
  intros Hs Hd (w & Hw & Hcmp) Hbefore.
  induction fuel as [| fuel IH]; intros k Hk Hf; [lia |].
  cbn [lookup_loop].
  destruct (Nat.eq_dec k d) as [-> | Hne].
  - rewrite Hw. cbn [word tradeouts]. rewrite Hcmp. reflexivity.
  - destruct (Hbefore k ltac:(lia)) as (w' & Hw' & Hcmp').
    rewrite Hw'. apply Z.eqb_neq in Hcmp'. rewrite Hcmp'.
    rewrite probe_next.
    destruct (Nat.eqb_spec ((start + (k + 1)) mod tt_capacity tt) start) as [E | _].
    + exfalso. revert E. apply probe_neq_start; lia.
    + apply IH; lia.
Qed.

(** A set answered by the lookup comes from a slot whose word compares
    equal to the word looked up. *)
Lemma lookup_loop_some (tt : TradeoutTable) (q : cstring) (ts : StringSet) (start : nat) :
  forall fuel index,
    lookup_loop fuel tt q start index = Return (Some ts) ->
    exists j stored, word (entry_at tt j) = Some stored /\ strcmp stored q = 0.
Proof.
  induction fuel as [| fuel IH]; intros index H; cbn [lookup_loop] in H;
    [discriminate |].
  destruct (word (entry_at tt index)) as [stored |] eqn:E; [| discriminate].
  destruct (Z.eqb_spec (strcmp stored q) 0) as [Hc | _]; [eauto |].
  destruct (_ =? start)%nat; [discriminate |]. eapply IH; eassumption.
Qed.

Lemma table_inv_capacity (tt : TradeoutTable) (keys : list (cstring * StringSet))
    (w : cstring) (ts : StringSet) :
  table_inv tt keys -> In (w, ts) keys -> tt_capacity tt <> 0%nat.
Proof.
  intros Hinv Hin. destruct (inv_stored _ _ Hinv w ts Hin) as (d & Hd & _). lia.
Qed.

(** A stored key is found, with its own set. *)
Lemma lookup_stored (tt : TradeoutTable) (keys : list (cstring * StringSet))
    (w q : cstring) (ts : StringSet) :
  table_inv tt keys -> In (w, ts) keys -> cstr q = w ->
  tradeout_table_lookup tt q = Return (Some ts).
Proof.
  intros Hinv Hin Hq.
  pose proof (table_inv_capacity _ _ _ _ Hinv Hin) as Hcap.
  assert (cstr w = w) as Hnorm
    by (apply (inv_normal _ _ Hinv); apply in_map_iff; exists (w, ts); auto).
  destruct (inv_stored _ _ Hinv w ts Hin) as (d & Hd & Hentry & Hbefore).
  unfold tradeout_table_lookup.
  destruct (Nat.eqb_spec (tt_capacity tt) 0) as [E | _]; [contradiction |].
  fold (slot_of tt q).
  assert (slot_of tt q = slot_of tt w) as Hslot
    by (rewrite <- Hq; symmetry; apply slot_of_cstr).
  rewrite Hslot. pose proof (slot_of_bound tt w Hcap) as Hb.
  rewrite <- (Nat.mod_small (slot_of tt w) (tt_capacity tt)) at 2 by exact Hb.
  rewrite <- (Nat.add_0_r (slot_of tt w)) at 2.
  apply lookup_loop_walk with (d := d); try lia; try exact Hb.
  - exists w. split; [exact Hentry |]. apply strcmp_zero. congruence.
  - intros k Hk. destruct (Hbefore k Hk) as (w' & Hw' & Hne).
    exists w'. split; [exact Hw' |]. rewrite strcmp_zero.
    rewrite (inv_normal _ _ Hinv w') by (eapply inv_words; eassumption).
    congruence.
Qed.

(** A word that is no key is not found. *)
Lemma lookup_absent (tt : TradeoutTable) (keys : list (cstring * StringSet))
    (q : cstring) :
  table_inv tt keys -> tt_capacity tt <> 0%nat ->
  ~ In (cstr q) (map fst keys) ->
  tradeout_table_lookup tt q = Return None.
Proof.
  intros Hinv Hcap Hq.
  destruct (tradeout_table_lookup_returns tt q Hcap) as [[ts |] Hr]; [| exact Hr].
  exfalso. unfold tradeout_table_lookup in Hr.
  destruct (tt_capacity tt =? 0)%nat; [discriminate |].
  apply lookup_loop_some in Hr. destruct Hr as (j & stored & Hw & Hcmp).
  apply Hq. apply strcmp_zero in Hcmp.
  pose proof (inv_words _ _ Hinv j stored Hw) as Hin.
  rewrite (inv_normal _ _ Hinv stored Hin) in Hcmp. congruence.
Qed.

(** ** Construction of the table *)

Lemma encode_utf8_outcome (s : pystr) :
  (exists b, encode_utf8 s = Return b) \/ encode_utf8 s = Raise UnicodeEncodeError.
Proof.
  induction s as [| c s IH]; cbn [encode_utf8]; [eauto |].
  destruct (encode_code_point c); [| now right].
  destruct IH as [[b ->] | ->]; cbn [bind]; eauto.
Qed.

Lemma add_matches_outcome (matches : list pystr) :
  forall ts, (exists ts', add_matches matches ts = Return ts')
             \/ add_matches matches ts = Raise UnicodeEncodeError.
Proof.
  induction matches as [| m rest IH]; intros ts; cbn [add_matches]; [eauto |].
  destruct (encode_utf8_outcome m) as [[b ->] | ->]; cbn [bind]; [| now right].
  destruct (_ <=? _)%nat; [eauto | apply IH].
Qed.

(** With a free slot in the table the probe of "Find slot" returns it. *)
Lemma find_slot_free (tt : TradeoutTable) (start : nat) :
  length (entries tt) = tt_capacity tt ->
  (filled_count (entries tt) < tt_capacity tt)%nat ->
  (start < tt_capacity tt)%nat ->
  exists d, (d < tt_capacity tt)%nat
    /\ find_slot (tt_capacity tt) tt start = Return ((start + d) mod tt_capacity tt)%nat
    /\ word (entry_at tt ((start + d) mod tt_capacity tt)) = None
    /\ forall k, (k < d)%nat ->
                 word (entry_at tt ((start + k) mod tt_capacity tt)) <> None.
Proof.
  intros Hlen Hcount Hstart.
  destruct (exists_free_slot (entries tt)) as (i & Hi & Hfree); [lia |].
  destruct (probe_reaches (tt_capacity tt) start i) as (d & Hd & Hreach); [lia | lia |].
  destruct (find_slot_finds tt (tt_capacity tt) start d) as (d' & Hd' & Hr & Hf & Hk);
    [exact Hstart | exact Hd | unfold entry_at; now rewrite Hreach |].
  exists d'. repeat split; [lia | exact Hr | exact Hf | exact Hk].
Qed.

Lemma insert_item_return (tt tt' : TradeoutTable) (w : pystr) (matches : list pystr) :
  insert_item tt (w, matches) = Return tt' ->
  exists wb r ts,
    encode_utf8 w = Return wb
    /\ tt_capacity tt <> 0%nat
    /\ find_slot (tt_capacity tt) tt (slot_of tt wb) = Return r
    /\ add_matches matches (item_set_start wb matches) = Return ts
    /\ tt' = set_tradeouts (set_word tt r (strcpy wb)) r ts.
Proof.
  unfold insert_item. intros H.
  destruct (encode_utf8 w) as [wb | |] eqn:Ew; cbn [bind] in H; try discriminate.
  destruct (Nat.eqb_spec (tt_capacity tt) 0) as [E | E]; [discriminate |].
  fold (slot_of tt wb) in H.
  destruct (find_slot _ tt _) as [r | |] eqn:Er; cbn [bind] in H; try discriminate.
  fold (item_set_start wb matches) in H.
  destruct (add_matches matches _) as [ts | |] eqn:Ea; cbn [bind] in H;
    try discriminate.
  inversion H. exists wb, r, ts.
  split; [reflexivity |]. split; [exact E |]. split; [exact Er |].
  split; [exact Ea | reflexivity].
Qed.

Lemma entry_at_insert_same (tt : TradeoutTable) (r : nat) (w : cstring) (ts : StringSet) :
  (r < length (entries tt))%nat ->
  entry_at (set_tradeouts (set_word tt r w) r ts) r = mkWordTradeouts (Some w) (Some ts).
Proof.
  intros Hr. unfold entry_at, set_tradeouts, set_word. cbn [entries].
  rewrite nth_update_nth_eq by (rewrite length_update_nth; exact Hr).
  rewrite nth_update_nth_eq by exact Hr. reflexivity.
Qed.

Lemma entry_at_insert_other (tt : TradeoutTable) (r i : nat) (w : cstring)
    (ts : StringSet) :
  i <> r -> entry_at (set_tradeouts (set_word tt r w) r ts) i = entry_at tt i.
Proof.
  intros Hi. unfold entry_at, set_tradeouts, set_word. cbn [entries].
  rewrite !nth_update_nth_neq by congruence. reflexivity.
Qed.

Lemma filled_count_insert (tt : TradeoutTable) (r : nat) (w : cstring) (ts : StringSet) :
  (r < length (entries tt))%nat -> word (entry_at tt r) = None ->
  filled_count (entries (set_tradeouts (set_word tt r w) r ts))
  = S (filled_count (entries tt)).
Proof.
  intros Hr Hfree. unfold set_tradeouts, set_word. cbn [entries].
  rewrite filled_count_update_keep by reflexivity.
  apply filled_count_update_fill; [exact Hr | exact Hfree | reflexivity].
Qed.

Lemma length_insert (tt : TradeoutTable) (r : nat) (w : cstring) (ts : StringSet) :
  length (entries (set_tradeouts (set_word tt r w) r ts)) = length (entries tt).
Proof.
  unfold set_tradeouts, set_word. cbn [entries]. now rewrite !length_update_nth.
Qed.

(** One item more in a table with a free slot: the item is stored, or its
    encoding raises. *)
Lemma insert_item_progress (tt : TradeoutTable) (item : pystr * list pystr) :
  length (entries tt) = tt_capacity tt ->
  (filled_count (entries tt) < tt_capacity tt)%nat ->
  insert_item tt item = Raise UnicodeEncodeError
  \/ exists tt', insert_item tt item = Return tt'
       /\ length (entries tt') = tt_capacity tt'
       /\ tt_capacity tt' = tt_capacity tt
       /\ filled_count (entries tt') = S (filled_count (entries tt)).
Proof.
  intros Hlen Hcount. destruct item as [w matches]. unfold insert_item.
  destruct (encode_utf8_outcome w) as [[wb ->] | ->]; cbn [bind]; [| now left].
  destruct (Nat.eqb_spec (tt_capacity tt) 0) as [E | E]; [lia |].
  destruct (find_slot_free tt (Z.to_nat (hash_string wb mod Z.of_nat (tt_capacity tt))))
    as (d & Hd & -> & Hfree & _); [exact Hlen | exact Hcount | now apply hash_slot_bound |].
  cbn [bind].
  match goal with |- context [add_matches matches ?s] =>
    destruct (add_matches_outcome matches s) as [[ts ->] | ->] end;
    cbn [bind]; [| now left].
  right. eexists. split; [reflexivity |].
  assert (((Z.to_nat (hash_string wb mod Z.of_nat (tt_capacity tt)) + d)
           mod tt_capacity tt < length (entries tt))%nat) as Hr
    by (rewrite Hlen; apply Nat.mod_upper_bound; lia).
  split; [rewrite length_insert; exact Hlen |]. split; [reflexivity |].
  apply filled_count_insert; assumption.
Qed.

Lemma create_loop_total (items : list (pystr * list pystr)) :
  forall tt,
    length (entries tt) = tt_capacity tt ->
    (filled_count (entries tt) + length items <= tt_capacity tt)%nat ->
    for_each items insert_item tt = Raise UnicodeEncodeError
    \/ exists tt', for_each items insert_item tt = Return tt'.
Proof.
  induction items as [| item items IH]; intros tt Hlen Hcount; cbn [for_each];
    [eauto |].
  cbn [length] in Hcount.
  destruct (insert_item_progress tt item Hlen ltac:(lia))
    as [-> | (tt' & -> & Hlen' & Hcap & Hc)]; cbn [bind]; [now left |].
  apply IH; [exact Hlen' | lia].
Qed.

(** [create_tradeout_table] returns a table, unless a key or a match cannot
    be encoded: its probe for a free slot always ends. *)
Lemma create_tradeout_table_total (word_to_matches : list (pystr * list pystr)) :
  create_tradeout_table word_to_matches = Raise UnicodeEncodeError
  \/ exists tt, create_tradeout_table word_to_matches = Return tt.
Proof.
  unfold create_tradeout_table. apply create_loop_total; cbn [entries tt_capacity].
  - apply repeat_length.
  - rewrite filled_count_repeat_empty. lia.
Qed.

(** Storing a new key keeps the table in order. *)
Lemma insert_item_inv (tt tt' : TradeoutTable) (keys : list (cstring * StringSet))
    (w : pystr) (matches : list pystr) :
  table_inv tt keys ->
  (length keys < tt_capacity tt)%nat ->
  ~ In (c_key w) (map fst keys) ->
  insert_item tt (w, matches) = Return tt' ->
  exists wb ts,
    encode_utf8 w = Return wb
    /\ add_matches matches (item_set_start wb matches) = Return ts
    /\ tt_capacity tt' = tt_capacity tt
    /\ table_inv tt' ((cstr wb, ts) :: keys).
Proof.
  intros Hinv Hroom Hnew Hins.
  apply insert_item_return in Hins.
  destruct Hins as (wb & r & ts & Hw & Hcap & Hr & Hadd & ->).
  unfold c_key in Hnew. rewrite Hw in Hnew.
  pose proof (inv_length _ _ Hinv) as Hlen.
  destruct (find_slot_free tt (slot_of tt wb)) as (d & Hd & Hr' & Hfree & Hfilled);
    [exact Hlen | rewrite (inv_count _ _ Hinv); exact Hroom
     | now apply slot_of_bound |].
  rewrite Hr in Hr'. injection Hr' as Hrd.
  assert (r < length (entries tt))%nat as Hrlen
    by (rewrite Hrd, Hlen; apply Nat.mod_upper_bound; exact Hcap).
  rewrite <- Hrd in Hfree.
  assert (forall i, word (entry_at tt i) <> None -> i <> r) as Hother
    by (intros i Hi ->; contradiction).
  exists wb, ts. split; [exact Hw |]. split; [exact Hadd |]. split; [reflexivity |].
  unfold strcpy. constructor.
  - rewrite length_insert. exact Hlen.
  - rewrite filled_count_insert by assumption.
    rewrite (inv_count _ _ Hinv). reflexivity.
  - intros i w0 Hw0. cbn [map fst].
    destruct (Nat.eq_dec i r) as [-> | Hi].
    + rewrite entry_at_insert_same in Hw0 by exact Hrlen. cbn [word] in Hw0.
      left. congruence.
    + rewrite entry_at_insert_other in Hw0 by exact Hi.
      right. eapply inv_words; eassumption.
  - intros w0 [<- | Hw0]; [apply cstr_idem | now apply (inv_normal _ _ Hinv)].
  - intros w0 ts0 [Heq | Hin].
    + inversion Heq; subst w0 ts0. exists d. split; [exact Hd |].
      unfold probe. rewrite slot_of_cstr.
      change (tt_capacity (set_tradeouts (set_word tt r (cstr wb)) r ts))
        with (tt_capacity tt).
      change (slot_of (set_tradeouts (set_word tt r (cstr wb)) r ts) wb)
        with (slot_of tt wb).
      rewrite <- Hrd. split; [now apply entry_at_insert_same |].
      intros k Hk. specialize (Hfilled k Hk).
      rewrite entry_at_insert_other by (apply Hother; exact Hfilled).
      destruct (word (entry_at tt ((slot_of tt wb + k) mod tt_capacity tt)))
        as [w' |] eqn:E; [| contradiction].
      exists w'. split; [reflexivity |]. intros ->. apply Hnew.
      eapply inv_words; eassumption.
    + destruct (inv_stored _ _ Hinv w0 ts0 Hin) as (d0 & Hd0 & Hentry & Hbefore).
      exists d0. split; [exact Hd0 |].
      change (probe (set_tradeouts (set_word tt r (cstr wb)) r ts) w0)
        with (probe tt w0).
      split.
      * rewrite entry_at_insert_other; [exact Hentry |].
        apply Hother. rewrite Hentry. discriminate.
      * intros k Hk. destruct (Hbefore k Hk) as (w' & Hw' & Hne).
        exists w'. split; [| exact Hne].
        rewrite entry_at_insert_other; [exact Hw' |].
        apply Hother. rewrite Hw'. discriminate.
  - cbn [map fst]. constructor; [exact Hnew | apply (inv_nodup _ _ Hinv)].
Qed.

Lemma table_inv_start (n : nat) :
  table_inv (mkTradeoutTable (repeat empty_slot (n * 2)) (n * 2) n) [].
Proof.
  constructor; cbn [entries tt_capacity map length].
  - apply repeat_length.
  - apply filled_count_repeat_empty.
  - intros i w. unfold entry_at. cbn [entries].
    rewrite nth_repeat. discriminate.
  - intros w [].
  - intros w ts [].
  - constructor.
Qed.

(** The loop over the items, for items whose keys have pairwise different
    C strings: every item ends up stored, and nothing else does. *)
Lemma create_loop_inv (items : list (pystr * list pystr)) :
  forall tt keys tt',
    table_inv tt keys ->
    (length keys + length items <= tt_capacity tt)%nat ->
    NoDup (map (fun it => c_key (fst it)) items) ->
    (forall it, In it items -> ~ In (c_key (fst it)) (map fst keys)) ->
    for_each items insert_item tt = Return tt' ->
    exists keys',
      table_inv tt' keys'
      /\ tt_capacity tt' = tt_capacity tt
      /\ (forall k, In k keys -> In k keys')
      /\ (forall w ms, In (w, ms) items ->
            exists wb ts, encode_utf8 w = Return wb
                          /\ In (cstr wb, ts) keys'
                          /\ add_matches ms (item_set_start wb ms) = Return ts)
      /\ (forall k, In k (map fst keys') ->
            In k (map fst keys) \/ In k (map (fun it => c_key (fst it)) items)).
Proof.
  induction items as [| [w ms] items IH]; intros tt keys tt' Hinv Hroom Hnd Hfresh Hrun;
    cbn [for_each] in Hrun.
  - inversion Hrun; subst tt'. exists keys.
    split; [exact Hinv |]. split; [reflexivity |]. split; [auto |].
    split; [intros w ms [] | intros k Hk; now left].
  - cbn [length map fst] in *.
    destruct (insert_item tt (w, ms)) as [tt1 | |] eqn:Eins; cbn [bind] in Hrun;
      try discriminate.
    destruct (insert_item_inv tt tt1 keys w ms Hinv ltac:(lia)
                (Hfresh (w, ms) (or_introl eq_refl)) Eins)
      as (wb & ts & Hw & Hadd & Hcap & Hinv1).
    assert (c_key w = cstr wb) as Hkey by (unfold c_key; now rewrite Hw).
    inversion Hnd as [| ? ? Hnotin Hnd']; subst.
    destruct (IH tt1 ((cstr wb, ts) :: keys) tt' Hinv1) as
      (keys' & Hinv' & Hcap' & Hincl & Hitems & Honly).
    + cbn [length]. lia.
    + exact Hnd'.
    + intros it Hit [Heq | Hin]; cbn [fst] in *.
      * apply Hnotin. rewrite Hkey, Heq. apply in_map_iff. exists it. auto.
      * revert Hin. apply Hfresh. now right.
    + exact Hrun.
    + exists keys'. split; [exact Hinv' |]. split; [congruence |].
      split; [intros k Hk; apply Hincl; now right |]. split.
      * intros w0 ms0 [Heq | Hin]; [| now apply Hitems].
        inversion Heq; subst w0 ms0. exists wb, ts.
        split; [exact Hw |]. split; [apply Hincl; now left | exact Hadd].
      * intros k Hk. destruct (Honly k Hk) as [[<- | Hold] | Hrest]; cbn [fst].
        -- right. left. exact Hkey.
        -- now left.
        -- right. now right.
Qed.

(** The table built from a mapping whose keys have pairwise different
    C strings holds every item and nothing else. *)
Lemma create_tradeout_table_inv (word_to_matches : list (pystr * list pystr))
    (tt : TradeoutTable) :
  NoDup (map (fun it => c_key (fst it)) word_to_matches) ->
  create_tradeout_table word_to_matches = Return tt ->
  exists keys,
    table_inv tt keys
    /\ tt_capacity tt = (length word_to_matches * 2)%nat
    /\ (forall w ms, In (w, ms) word_to_matches ->
          exists wb ts, encode_utf8 w = Return wb
                        /\ In (cstr wb, ts) keys
                        /\ add_matches ms (item_set_start wb ms) = Return ts)
    /\ (forall k, In k (map fst keys) ->
          In k (map (fun it => c_key (fst it)) word_to_matches)).
Proof.
  intros Hnd Hrun. unfold create_tradeout_table in Hrun.
  destruct (create_loop_inv word_to_matches _ [] tt
              (table_inv_start (length word_to_matches)))
    as (keys & Hinv & Hcap & _ & Hitems & Honly);
    [cbn [length tt_capacity]; lia | exact Hnd | intros it _ [] | exact Hrun |].
  exists keys. split; [exact Hinv |]. split; [exact Hcap |].
  split; [exact Hitems |].
  intros k Hk. destruct (Honly k Hk) as [[] | H]. exact H.
Qed.

(** ** Content of the tradeout sets *)

(** "Add matches" on a set with room for all of them stores every match. *)
Lemma add_matches_strings (matches : list pystr) :
  forall ts0 ts,
    (ss_size ts0 + length matches <= ss_capacity ts0)%nat ->
    add_matches matches ts0 = Return ts ->
    ss_capacity ts = ss_capacity ts0
    /\ ss_size ts = (ss_size ts0 + length matches)%nat
    /\ (forall t, In t (strings ts0) -> In t (strings ts))
    /\ (forall s, In s matches ->
          exists sb, encode_utf8 s = Return sb /\ In (cstr sb) (strings ts)).
Proof.
  induction matches as [| m rest IH]; intros ts0 ts Hroom Hrun;
    cbn [add_matches length] in *.
  - inversion Hrun; subst ts.
    split; [reflexivity |]. split; [lia |]. split; [auto | intros s []].
  - destruct (encode_utf8 m) as [b | |] eqn:Eb; cbn [bind] in Hrun; try discriminate.
    destruct (Nat.leb_spec (ss_capacity ts0) (ss_size ts0)) as [Hfull | _]; [lia |].
    destruct (IH (ss_push ts0 b) ts) as (Hcap & Hsize & Hold & Hnew).
    + unfold ss_push, ss_size in *. cbn [strings ss_capacity].
      rewrite length_app. cbn [length]. lia.
    + exact Hrun.
    + unfold ss_push, ss_size in *. cbn [strings ss_capacity] in *.
      rewrite length_app in Hsize. cbn [length] in Hsize.
      split; [exact Hcap |]. split; [lia |]. split.
      * intros t Ht. apply Hold. apply in_or_app. now left.
      * intros s [<- | Hs]; [| now apply Hnew].
        exists b. split; [exact Eb |]. apply Hold. apply in_or_app. right. now left.
Qed.

Lemma string_set_contains_in (ts : StringSet) (s : cstring) :
  In (cstr s) (strings ts) -> string_set_contains ts s = true.
Proof.
  intros H. unfold string_set_contains. apply existsb_exists.
  exists (cstr s). split; [exact H |].
  apply Z.eqb_eq. apply strcmp_zero. apply cstr_idem.
Qed.

(** The set of an item: every match, the key itself when it is one byte
    long, and no more slots than its capacity. *)
Lemma item_set_contents (wb : cstring) (matches : list pystr) (ts : StringSet) :
  add_matches matches (item_set_start wb matches) = Return ts ->
  (forall s, In s matches ->
     exists sb, encode_utf8 s = Return sb /\ string_set_contains ts sb = true)
  /\ (length wb = 1%nat -> string_set_contains ts wb = true)
  /\ (matches <> [] \/ length wb = 1%nat -> (0 < ss_size ts)%nat)
  /\ (ss_size ts <= ss_capacity ts)%nat.
Proof.
  intros Hrun. apply add_matches_strings in Hrun.
  - destruct Hrun as (Hcap & Hsize & Hold & Hnew).
    split; [| split; [| split]].
    + intros s Hs. destruct (Hnew s Hs) as (sb & Hsb & Hin).
      exists sb. split; [exact Hsb | now apply string_set_contains_in].
    + intros Hlen. apply string_set_contains_in. apply Hold.
      unfold item_set_start. rewrite Hlen. cbn. now left.
    + intros [Hne | Hlen].
      * destruct matches; [contradiction | cbn [length] in Hsize; lia].
      * rewrite Hsize. unfold item_set_start, ss_size. rewrite Hlen. cbn. lia.
    + rewrite Hcap, Hsize. unfold item_set_start, ss_size.
      destruct (length wb =? 1)%nat; cbn; lia.
  - unfold item_set_start, ss_size.
    destruct (length wb =? 1)%nat; cbn; lia.
Qed.

(** *** Mappings whose keys may share a C string *)

Lemma lookup_first_binding (tt : TradeoutTable) (keys : list (cstring * StringSet))
    (w q : cstring) (ts : StringSet) :
  table_inv_first tt keys -> first_binding keys w ts -> cstr q = w ->
  tradeout_table_lookup tt q = Return (Some ts).
Proof.
  intros Hinv Hfirst Hq.
  assert (In w (map fst keys)) as Hw.
  { destruct Hfirst as (before & after & -> & _).
    rewrite map_app, in_app_iff. right. now left. }
  pose proof (invf_normal _ _ Hinv w Hw) as Hnorm.
  destruct (invf_stored _ _ Hinv w ts Hfirst) as (d & Hd & Hentry & Hbefore).
  assert (tt_capacity tt <> 0%nat) as Hcap by lia.
  unfold tradeout_table_lookup.
  destruct (Nat.eqb_spec (tt_capacity tt) 0) as [E | _]; [contradiction |].
  fold (slot_of tt q).
  assert (slot_of tt q = slot_of tt w) as Hslot
    by (rewrite <- Hq; symmetry; apply slot_of_cstr).
  rewrite Hslot. pose proof (slot_of_bound tt w Hcap) as Hb.
  rewrite <- (Nat.mod_small (slot_of tt w) (tt_capacity tt)) at 2 by exact Hb.
  rewrite <- (Nat.add_0_r (slot_of tt w)) at 2.
  apply lookup_loop_walk with (d := d); try lia; try exact Hb.
  - exists w. split; [exact Hentry |]. apply strcmp_zero. congruence.
  - intros k Hk. destruct (Hbefore k Hk) as (w' & Hw' & Hne).
    exists w'. split; [exact Hw' |]. rewrite strcmp_zero.
    rewrite (invf_normal _ _ Hinv w') by (eapply invf_words; eassumption).
    congruence.
Qed.

(** A binding that is first after one more insertion was first before, or is
    the new item under a C string not seen before. *)
Lemma first_binding_snoc (keys : list (cstring * StringSet)) (new : cstring * StringSet)
    (w : cstring) (ts : StringSet) :
  first_binding (keys ++ [new]) w ts ->
  first_binding keys w ts
  \/ (new = (w, ts) /\ ~ In w (map fst keys)).
Proof.
  intros (before & after & Heq & Hfresh).
  destruct (exists_last (l := (w, ts) :: after)) as (l' & z & Hl); [discriminate |].
  rewrite Hl, app_assoc in Heq. apply app_inj_tail in Heq. destruct Heq as [Hk Hz].
  destruct after as [| a after].
  - destruct l' as [| y l']; [| destruct l'; discriminate].
    cbn [app] in Hl. inversion Hl; subst z.
    right. rewrite app_nil_r in Hk. subst. auto.
  - left. exists before.
    destruct l' as [| y l']; [discriminate |].
    cbn [app] in Hl. inversion Hl; subst y. exists l'. auto.
Qed.

Lemma insert_item_inv_first (tt tt' : TradeoutTable)
    (keys : list (cstring * StringSet)) (w : pystr) (matches : list pystr) :
  table_inv_first tt keys ->
  (length keys < tt_capacity tt)%nat ->
  insert_item tt (w, matches) = Return tt' ->
  exists key,
    item_stored_as (w, matches) key
    /\ tt_capacity tt' = tt_capacity tt
    /\ table_inv_first tt' (keys ++ [key]).
Proof.
  intros Hinv Hroom Hins.
  apply insert_item_return in Hins.
  destruct Hins as (wb & r & ts & Hw & Hcap & Hr & Hadd & ->).
  pose proof (invf_length _ _ Hinv) as Hlen.
  destruct (find_slot_free tt (slot_of tt wb)) as (d & Hd & Hr' & Hfree & Hfilled);
    [exact Hlen | rewrite (invf_count _ _ Hinv); exact Hroom
     | now apply slot_of_bound |].
  rewrite Hr in Hr'. injection Hr' as Hrd.
  assert (r < length (entries tt))%nat as Hrlen
    by (rewrite Hrd, Hlen; apply Nat.mod_upper_bound; exact Hcap).
  rewrite <- Hrd in Hfree.
  assert (forall i, word (entry_at tt i) <> None -> i <> r) as Hother
    by (intros i Hi ->; contradiction).
  exists (cstr wb, ts). split; [exists wb; auto |]. split; [reflexivity |].
  unfold strcpy. constructor.
  - rewrite length_insert. exact Hlen.
  - rewrite filled_count_insert by assumption.
    rewrite (invf_count _ _ Hinv), length_app. cbn [length]. lia.
  - intros i w0 Hw0. rewrite map_app, in_app_iff. cbn [map fst In].
    destruct (Nat.eq_dec i r) as [-> | Hi].
    + rewrite entry_at_insert_same in Hw0 by exact Hrlen. cbn [word] in Hw0.
      right. left. congruence.
    + rewrite entry_at_insert_other in Hw0 by exact Hi.
      left. eapply invf_words; eassumption.
  - intros w0. rewrite map_app, in_app_iff. cbn [map fst In].
    intros [Hw0 | [<- | []]]; [now apply (invf_normal _ _ Hinv) | apply cstr_idem].
  - intros w0 ts0 Hfirst. apply first_binding_snoc in Hfirst.
    destruct Hfirst as [Hold | [Heq Hfresh]].
    + destruct (invf_stored _ _ Hinv w0 ts0 Hold) as (d0 & Hd0 & Hentry & Hbefore).
      exists d0. split; [exact Hd0 |].
      change (probe (set_tradeouts (set_word tt r (cstr wb)) r ts) w0)
        with (probe tt w0).
      split.
      * rewrite entry_at_insert_other; [exact Hentry |].
        apply Hother. rewrite Hentry. discriminate.
      * intros k Hk. destruct (Hbefore k Hk) as (w' & Hw' & Hne).
        exists w'. split; [| exact Hne].
        rewrite entry_at_insert_other; [exact Hw' |].
        apply Hother. rewrite Hw'. discriminate.
    + inversion Heq; subst w0 ts0. exists d. split; [exact Hd |].
      unfold probe. rewrite slot_of_cstr.
      change (tt_capacity (set_tradeouts (set_word tt r (cstr wb)) r ts))
        with (tt_capacity tt).
      change (slot_of (set_tradeouts (set_word tt r (cstr wb)) r ts) wb)
        with (slot_of tt wb).
      rewrite <- Hrd. split; [now apply entry_at_insert_same |].
      intros k Hk. specialize (Hfilled k Hk).
      rewrite entry_at_insert_other by (apply Hother; exact Hfilled).
      destruct (word (entry_at tt ((slot_of tt wb + k) mod tt_capacity tt)))
        as [w' |] eqn:E; [| contradiction].
      exists w'. split; [reflexivity |]. intros ->. apply Hfresh.
      eapply invf_words; eassumption.
Qed.

Lemma table_inv_first_start (n : nat) :
  table_inv_first (mkTradeoutTable (repeat empty_slot (n * 2)) (n * 2) n) [].
Proof.
  constructor; cbn [entries tt_capacity map length].
  - apply repeat_length.
  - apply filled_count_repeat_empty.
  - intros i w. unfold entry_at. cbn [entries].
    rewrite nth_repeat. discriminate.
  - intros w [].
  - intros w ts (before & after & Heq & _). destruct before; discriminate.
Qed.

Lemma create_loop_inv_first (items : list (pystr * list pystr)) :
  forall tt keys tt',
    table_inv_first tt keys ->
    (length keys + length items <= tt_capacity tt)%nat ->
    for_each items insert_item tt = Return tt' ->
    exists keys',
      table_inv_first tt' (keys ++ keys') /\ Forall2 item_stored_as items keys'.
Proof.
  induction items as [| [w ms] items IH]; intros tt keys tt' Hinv Hroom Hrun;
    cbn [for_each length] in *.
  - inversion Hrun; subst tt'. exists []. rewrite app_nil_r.
    split; [exact Hinv | constructor].
  - destruct (insert_item tt (w, ms)) as [tt1 | |] eqn:Eins; cbn [bind] in Hrun;
      try discriminate.
    destruct (insert_item_inv_first tt tt1 keys w ms Hinv ltac:(lia) Eins)
      as (key & Hkey & Hcap & Hinv1).
    destruct (IH tt1 (keys ++ [key]) tt' Hinv1) as (keys' & Hinv' & Hall).
    + rewrite length_app. cbn [length]. lia.
    + exact Hrun.
    + exists (key :: keys'). rewrite <- app_assoc in Hinv'.
      split; [exact Hinv' | constructor; assumption].
Qed.

Lemma item_stored_as_keys (items : list (pystr * list pystr))
    (keys : list (cstring * StringSet)) :
  Forall2 item_stored_as items keys ->
  map fst keys = map (fun it => c_key (fst it)) items.
Proof.
  induction 1 as [| item key items keys (wb & Hw & Hk & _) _ IH]; [reflexivity |].
  cbn [map]. f_equal; [| exact IH].
  unfold c_key. now rewrite Hw.
Qed.

(** C7, as the code has it.  After [create_tradeout_table] succeeds on a
    mapping, every key whose C string differs from that of every key before
    it in the mapping is found by the lookup, with a set that holds every
    synonym supplied for it; when the key is exactly one character long and
    that character is ASCII, the set also holds the key itself; the set is
    non-empty when a synonym was supplied or the key is one ASCII character,
    and stays within its capacity. *)
Theorem create_tradeout_table_stores_items
    (before after : list (pystr * list pystr)) (tt : TradeoutTable)
    (w : pystr) (matches : list pystr) :
  create_tradeout_table (before ++ (w, matches) :: after) = Return tt ->
  ~ In (c_key w) (map (fun it => c_key (fst it)) before) ->
  exists wb ts,
    encode_utf8 w = Return wb
    /\ tradeout_table_lookup tt wb = Return (Some ts)
    /\ (forall s, In s matches ->
          exists sb, encode_utf8 s = Return sb /\ string_set_contains ts sb = true)
    /\ (forall c, w = [c] -> (c < 128)%N -> string_set_contains ts wb = true)
    /\ (matches <> [] \/ (exists c, w = [c] /\ (c < 128)%N) -> (0 < ss_size ts)%nat)
    /\ (ss_size ts <= ss_capacity ts)%nat.
Proof.
  intros Hrun Hfresh. unfold create_tradeout_table in Hrun.
  apply (create_loop_inv_first _ _ [] _ (table_inv_first_start _)) in Hrun;
    [| cbn [length tt_capacity]; lia].
  destruct Hrun as (keys & Hinv & Hall). cbn [app] in Hinv.
  apply Forall2_app_inv_l in Hall.
  destruct Hall as (kb & krest & Hb & Hrest & ->).
  inversion Hrest as [| item [k ts] items ka (wb & Hw & Hk & Hadd) _]; subst.
  cbn [fst snd] in *. subst k.
  exists wb, ts. split; [exact Hw |]. split.
  - apply (lookup_first_binding tt _ (cstr wb) wb ts Hinv); [| reflexivity].
    exists kb, ka. split; [reflexivity |].
    rewrite (item_stored_as_keys _ _ Hb).
    unfold c_key in Hfresh. now rewrite Hw in Hfresh.
  - destruct (item_set_contents wb matches ts Hadd) as (Hm & Hself & Hsize & Hcap).
    assert (forall c, w = [c] -> (c < 128)%N -> length wb = 1%nat) as Hone.
    { intros c -> Hc. cbn [encode_utf8] in Hw. unfold encode_code_point in Hw.
      apply N.ltb_lt in Hc. rewrite Hc in Hw. cbn [bind] in Hw.
      inversion Hw. reflexivity. }
    split; [exact Hm |]. split; [intros c Hc Hlt; apply Hself; eauto |].
    split; [| exact Hcap].
    intros [Hne | (c & Hc & Hlt)]; apply Hsize; [now left | right; eauto].
Qed.

Lemma create_tradeout_table_stores_items_witness :
  exists tt wb ts,
    create_tradeout_table bob_and_b = Return tt
    /\ encode_utf8 (pystr_of "B") = Return wb
    /\ tradeout_table_lookup tt wb = Return (Some ts)
    /\ string_set_contains ts wb = true
    /\ (0 < ss_size ts)%nat
    /\ (ss_size ts <= ss_capacity ts)%nat.
Proof.
  destruct (create_tradeout_table bob_and_b) as [tt | e |] eqn:E;
    [| vm_compute in E; discriminate | vm_compute in E; discriminate].
  destruct (create_tradeout_table_stores_items
              [(pystr_of "Bob", [pystr_of "Robert"])] [] tt (pystr_of "B") [])
    as (wb & ts & Hw & Hlook & _ & Hself & Hsize & Hcap).
  - exact E.
  - cbn [map fst]. intros [H | []]. vm_compute in H. discriminate.
  - exists tt, wb, ts. split; [reflexivity |]. split; [exact Hw |].
    split; [exact Hlook |]. split; [apply (Hself 66%N); [reflexivity | lia] |].
    split; [| exact Hcap].
    apply Hsize. right. exists 66%N. split; [reflexivity | lia].
Defined.

(** C7, as stated, fails on the size of the set: the key "Bob" mapped to
    no synonym is stored with an empty tradeout set.  It fails for keys that
    agree up to a zero byte: "a\0b" and "a\0c" are both stored under "a",
    and the lookup of the second answers the set of the first, which lacks
    the synonym "y".  And it fails for a key of one character that takes two
    bytes: the set of "é" does not hold the key itself. *)
Lemma key_without_synonyms_has_empty_set :
  (exists tt ts,
     create_tradeout_table bob_alone = Return tt
     /\ tradeout_table_lookup tt (lit "Bob") = Return (Some ts)
     /\ ss_size ts = 0%nat)
  /\ (exists tt wb ts,
        create_tradeout_table nul_keys = Return tt
        /\ encode_utf8 a_nul_c = Return wb
        /\ tradeout_table_lookup tt wb = Return (Some ts)
        /\ string_set_contains ts (lit "y") = false)
  /\ (exists tt wb ts,
        length e_acute = 1%nat
        /\ create_tradeout_table e_acute_key = Return tt
        /\ encode_utf8 e_acute = Return wb
        /\ tradeout_table_lookup tt wb = Return (Some ts)
        /\ string_set_contains ts wb = false).
Proof.
  split; [| split].
  - eexists. eexists. split; [vm_compute; reflexivity |].
    split; [vm_compute; reflexivity | reflexivity].
  - eexists. eexists. eexists. split; [vm_compute; reflexivity |].
    split; [vm_compute; reflexivity |].
    split; [vm_compute; reflexivity | reflexivity].
  - eexists. eexists. eexists. split; [reflexivity |].
    split; [vm_compute; reflexivity |].
    split; [vm_compute; reflexivity |].
    split; [vm_compute; reflexivity | reflexivity].
Qed.

(** On the table of a non-empty mapping whose keys have pairwise different
    C strings, the lookup answers the stored set for a key and "not found"
    for any other word. *)
Lemma lookup_built_table (word_to_matches : list (pystr * list pystr))
    (tt : TradeoutTable) (q : cstring) :
  word_to_matches <> [] ->
  NoDup (map (fun it => c_key (fst it)) word_to_matches) ->
  create_tradeout_table word_to_matches = Return tt ->
  (forall w ms, In (w, ms) word_to_matches -> c_key w = cstr q ->
     exists ts, tradeout_table_lookup tt q = Return (Some ts)
                /\ exists wb, encode_utf8 w = Return wb
                     /\ add_matches ms (item_set_start wb ms) = Return ts)
  /\ ((forall it, In it word_to_matches -> c_key (fst it) <> cstr q) ->
      tradeout_table_lookup tt q = Return None).
Proof.
  intros Hne Hnd Hrun.
  destruct (create_tradeout_table_inv _ _ Hnd Hrun)
    as (keys & Hinv & Hcap & Hitems & Honly).
  split.
  - intros w ms Hin Hkey. destruct (Hitems w ms Hin) as (wb & ts & Hw & Hk & Hadd).
    exists ts. split; [| eauto].
    eapply lookup_stored; [exact Hinv | exact Hk |].
    unfold c_key in Hkey. rewrite Hw in Hkey. congruence.
  - intros Hq. eapply lookup_absent; [exact Hinv | |].
    + rewrite Hcap. destruct word_to_matches; [contradiction | cbn [length]; lia].
    + intros Hin. apply Honly in Hin. apply in_map_iff in Hin.
      destruct Hin as (it & Hit & Hitin). exact (Hq it Hitin Hit).
Qed.

(** ** Independence of the schedule *)

Lemma same_result_set_trans {B : Type} (r1 r2 r3 : outcome (list B)) :
  same_result_set r1 r2 -> same_result_set r2 r3 -> same_result_set r1 r3.
Proof.
  destruct r1, r2, r3; cbn; try contradiction; try congruence.
  apply Permutation_trans.
Qed.

Section Appending.

Context {A B : Type}.
Variable g : A -> outcome (list B).
Variable body : list B -> A -> outcome (list B).

(** The loop body appends to the buffer what [g] produces for the item. *)
Hypothesis body_appends :
  forall acc x, body acc x = (r <- g x ;; Return (acc ++ r)).
Hypothesis g_clean : forall x, clean (g x).

Lemma for_each_appending (xs : list A) :
  forall acc,
    for_each xs body acc = (rs <- for_each xs body [] ;; Return (acc ++ rs)).
Proof.
  induction xs as [| x xs IH]; intros acc; cbn [for_each bind].
  - now rewrite app_nil_r.
  - rewrite !body_appends. destruct (g x) as [r | |]; cbn [bind app];
      [| reflexivity | reflexivity].
    rewrite (IH (acc ++ r)), (IH r).
    destruct (for_each xs body []); cbn [bind]; try reflexivity.
    now rewrite app_assoc.
Qed.

Lemma for_each_cons_appending (x : A) (xs : list A) :
  for_each (x :: xs) body []
  = (a <- g x ;; rs <- for_each xs body [] ;; Return (a ++ rs)).
Proof.
  cbn [for_each]. rewrite body_appends.
  destruct (g x) as [r | |]; cbn [bind app]; [| reflexivity | reflexivity].
  apply for_each_appending.
Qed.

Lemma for_each_appending_clean (xs : list A) : clean (for_each xs body []).
Proof.
  apply clean_for_each. intros acc x _. rewrite body_appends.
  apply clean_bind; [apply g_clean | intros; exact I].
Qed.

Lemma for_each_appending_perm (xs ys : list A) :
  Permutation xs ys ->
  same_result_set (for_each xs body []) (for_each ys body []).
Proof.
  induction 1 as [| x xs ys Hperm IH | x y xs | xs ys zs _ IH1 _ IH2].
  - cbn. apply Permutation_refl.
  - rewrite !for_each_cons_appending.
    pose proof (g_clean x) as Hx.
    destruct (g x) as [a | e |]; cbn [bind]; [| reflexivity | contradiction].
    destruct (for_each xs body []), (for_each ys body []); cbn in *;
      try contradiction; try assumption.
    now apply Permutation_app_head.
  - rewrite !for_each_cons_appending.
    pose proof (g_clean x) as Hx. pose proof (g_clean y) as Hy.
    pose proof (for_each_appending_clean xs) as Hxs.
    destruct (g x) as [a | ex |], (g y) as [b | ey |], (for_each xs body [])
      as [rs | e |]; cbn in *; try contradiction; try congruence.
    rewrite !app_assoc. apply Permutation_app_tail. apply Permutation_app_comm.
  - eapply same_result_set_trans; eassumption.
Qed.

End Appending.

Lemma scan_row_appends (name_ptrs : list cstring) (n_names : Z) (tt : TradeoutTable)
    (buf : list NamePair) (i : Z) :
  scan_row name_ptrs n_names tt buf i
  = (r <- scan_row name_ptrs n_names tt [] i ;; Return (buf ++ r)).
Proof.
  unfold scan_row.
  apply (for_each_appending
           (fun j => ok <- validate_match (name_at name_ptrs i) (name_at name_ptrs j) tt ;;
                     Return (if ok : bool
                             then [mkNamePair (name_at name_ptrs i) (name_at name_ptrs j)]
                             else []))).
  intros acc j. destruct (validate_match _ _ tt) as [[|] | |]; cbn [bind];
    try reflexivity.
  now rewrite app_nil_r.
Qed.

Lemma scan_row_clean (name_ptrs : list cstring) (n_names : Z) (tt : TradeoutTable)
    (buf : list NamePair) (i : Z) :
  clean (scan_row name_ptrs n_names tt buf i).
Proof.
  unfold scan_row. apply clean_for_each. intros acc j _.
  apply clean_bind; [apply validate_match_clean |].
  intros [|] _; exact I.
Qed.

(** Two workers' claims run by one worker fill one buffer with what they
    fill two buffers with. *)
Lemma parallel_loop_concat (name_ptrs : list cstring) (n_names : Z)
    (tt : TradeoutTable) (sched : list (list Z)) :
  (bufs <- parallel_loop name_ptrs n_names tt sched ;; Return (concat bufs))
  = run_worker name_ptrs n_names tt (concat sched).
Proof.
  induction sched as [| claimed sched IH]; cbn [parallel_loop concat bind];
    [reflexivity |].
  unfold run_worker in *. rewrite for_each_app.
  destruct (for_each claimed _ []) as [buf | |]; cbn [bind];
    [| reflexivity | reflexivity].
  rewrite (for_each_appending _ _ (scan_row_appends name_ptrs n_names tt)).
  rewrite <- IH.
  destruct (parallel_loop name_ptrs n_names tt sched); reflexivity.
Qed.

Lemma collect_concat (bufs : list (list NamePair)) :
  collect bufs = map (fun p => (cstr (name1 p), cstr (name2 p))) (concat bufs).
Proof.
  unfold collect. now rewrite concat_map.
Qed.

Lemma encode_all_outcome (names : list pystr) :
  (exists bs, encode_all names = Return bs) \/ encode_all names = Raise UnicodeEncodeError.
Proof.
  induction names as [| n rest IH]; cbn [encode_all]; [eauto |].
  destruct (encode_utf8_outcome n) as [[b ->] | ->]; cbn [bind]; [| now right].
  destruct IH as [[bs ->] | ->]; cbn [bind]; eauto.
Qed.

(** The pairs collected from the buffers do not depend on the schedule. *)
Lemma scan_schedule_independent (name_ptrs : list cstring) (n_names : Z)
    (tt : TradeoutTable) (sched1 sched2 : list (list Z)) :
  Permutation (concat sched1) (concat sched2) ->
  same_result_set
    (bufs <- parallel_loop name_ptrs n_names tt sched1 ;; Return (collect bufs))
    (bufs <- parallel_loop name_ptrs n_names tt sched2 ;; Return (collect bufs)).
Proof.
  intros Hperm.
  pose proof (for_each_appending_perm _ _ (scan_row_appends name_ptrs n_names tt)
                (fun i => scan_row_clean name_ptrs n_names tt [] i) _ _ Hperm) as H.
  fold (run_worker name_ptrs n_names tt (concat sched1)) in H.
  fold (run_worker name_ptrs n_names tt (concat sched2)) in H.
  rewrite <- !parallel_loop_concat in H.
  destruct (parallel_loop name_ptrs n_names tt sched1) as [b1 | |],
           (parallel_loop name_ptrs n_names tt sched2) as [b2 | |];
    cbn in *; try contradiction; try assumption.
  rewrite !collect_concat. now apply Permutation_map.
Qed.

(** C10.  For a fixed name list and synonym mapping, two runs of
    [parallel_find_matches] under any two worker counts and any two
    schedules of the outer loop raise the same exception or return the same
    pairs up to order. *)
Theorem parallel_find_matches_deterministic (all_names : list pystr)
    (word_to_matches : list (pystr * list pystr))
    (num_threads1 num_threads2 cpu_count1 cpu_count2 : Z)
    (sched1 sched2 : list (list Z)) :
  schedule_of (resolve_threads num_threads1 cpu_count1)
    (Z.of_nat (length (valid_names all_names))) sched1 ->
  schedule_of (resolve_threads num_threads2 cpu_count2)
    (Z.of_nat (length (valid_names all_names))) sched2 ->
  same_result_set
    (parallel_find_matches all_names word_to_matches num_threads1 cpu_count1 sched1)
    (parallel_find_matches all_names word_to_matches num_threads2 cpu_count2 sched2).
Proof.
  intros [_ H1] [_ H2]. unfold parallel_find_matches.
  destruct (create_tradeout_table_total word_to_matches) as [-> | [tt ->]];
    cbn [bind]; [reflexivity |].
  destruct (encode_all_outcome (valid_names all_names)) as [[bs ->] | ->];
    cbn [bind]; [| reflexivity].
  apply scan_schedule_independent.
  eapply Permutation_trans; [exact H1 | apply Permutation_sym; exact H2].
Qed.

Lemma parallel_find_matches_deterministic_witness :
  same_result_set
    (parallel_find_matches
       [pystr_of "Alice Smith"; pystr_of "Alice Jones"; pystr_of "Bob Brown"]
       bob_robert 1 4 [[0; 1; 2]])
    (parallel_find_matches
       [pystr_of "Alice Smith"; pystr_of "Alice Jones"; pystr_of "Bob Brown"]
       bob_robert 2 4 [[2; 0]; [1]]).
Proof.
  apply parallel_find_matches_deterministic.
  - split; [reflexivity | apply Permutation_refl].
  - split; [reflexivity |].
    change (Permutation [2; 0; 1] [0; 1; 2]).
    apply (perm_trans (l' := [0; 2; 1])); [apply perm_swap |].
    apply perm_skip, perm_swap.
Defined.

(** ** The words of a name *)

(** [count_words] counts the maximal runs of non-space bytes. *)
Lemma count_words_loop_words (s : cstring) :
  forall cur count,
    count_words_loop s count (match cur with [] => false | _ => true end)
    + (match cur with [] => 0 | _ => 1 end)
    = count + Z.of_nat (length (words_loop s cur)).
Proof.
  induction s as [| c s IH]; intros cur count; cbn [count_words_loop words_loop].
  - destruct cur; cbn [length]; lia.
  - destruct (is_nul c); [destruct cur; cbn [length]; lia |].
    destruct (is_space c).
    + specialize (IH [] count). cbn beta iota in IH.
      destruct cur; cbn [length]; lia.
    + destruct cur as [| c0 cur]; cbn [negb app].
      * specialize (IH [c] (count + 1)). cbn beta iota in IH. lia.
      * specialize (IH (c0 :: cur ++ [c]) count). cbn beta iota in IH. lia.
Qed.

Lemma count_words_words (s : cstring) : count_words s = Z.of_nat (length (words s)).
Proof.
  pose proof (count_words_loop_words s [] 0) as H. cbn beta iota in H.
  unfold count_words, words. lia.
Qed.

(** [truncate_words] cuts every word to its first [WORD_MAX] bytes. *)
Lemma words_loop_truncate (s : cstring) :
  forall cur,
    words_loop (truncate_words_loop s (length (firstn WORD_MAX cur)))
      (firstn WORD_MAX cur)
    = map (firstn WORD_MAX) (words_loop s cur).
Proof.
  assert (forall cur : cstring, firstn WORD_MAX cur = [] -> cur = []) as Hempty
    by (intros [| c cur]; [reflexivity | discriminate]).
  induction s as [| c s IH]; intros cur; cbn [truncate_words_loop words_loop].
  - destruct (firstn WORD_MAX cur) eqn:E.
    + now rewrite (Hempty cur E).
    + destruct cur; [discriminate |]. cbn [map]. now rewrite E.
  - destruct (is_nul c) eqn:En.
    + cbn [words_loop]. rewrite En. destruct (firstn WORD_MAX cur) eqn:E.
      * now rewrite (Hempty cur E).
      * destruct cur; [discriminate |]. cbn [map]. now rewrite E.
    + destruct (is_space c) eqn:Es.
      * cbn [words_loop]. rewrite En, Es.
        specialize (IH []). rewrite firstn_nil in IH. cbn [length] in IH.
        destruct (firstn WORD_MAX cur) eqn:E.
        -- now rewrite (Hempty cur E).
        -- destruct cur; [discriminate |]. cbn [map]. rewrite E. now f_equal.
      * specialize (IH (cur ++ [c])).
        destruct (Nat.ltb_spec (length (firstn WORD_MAX cur)) WORD_MAX) as [Hlt | Hge].
        -- cbn [words_loop]. rewrite En, Es.
           rewrite length_firstn in Hlt.
           assert (firstn WORD_MAX cur = cur) as Hcur by (apply firstn_all2; lia).
           assert (firstn WORD_MAX (cur ++ [c]) = cur ++ [c]) as Hnext
             by (apply firstn_all2; rewrite length_app; cbn [length]; lia).
           rewrite Hnext in IH. rewrite Hcur.
           rewrite length_app in IH. cbn [length] in IH.
           now replace (S (length cur)) with (length cur + 1)%nat by lia.
        -- rewrite length_firstn in Hge.
           assert (firstn WORD_MAX (cur ++ [c]) = firstn WORD_MAX cur) as Hnext.
           { rewrite firstn_app.
             replace (WORD_MAX - length cur)%nat with 0%nat by lia.
             cbn [firstn]. apply app_nil_r. }
           now rewrite Hnext in IH.
Qed.

Lemma words_truncate (s : cstring) :
  words (truncate_words s) = map (firstn WORD_MAX) (words s).
Proof. exact (words_loop_truncate s []). Qed.

(** ** What [extract_word] extracts *)

Lemma words_loop_head (s : cstring) :
  forall cur, cur <> [] -> hd [] (words_loop s cur) = cur ++ leading_run s.
Proof.
  induction s as [| c s IH]; intros cur Hcur; cbn [words_loop leading_run].
  - destruct cur; [contradiction |]. cbn [hd]. now rewrite app_nil_r.
  - destruct (is_nul c); cbn [orb].
    + destruct cur; [contradiction |]. cbn [hd]. now rewrite app_nil_r.
    + destruct (is_space c).
      * destruct cur; [contradiction |]. cbn [hd]. now rewrite app_nil_r.
      * rewrite IH by (destruct cur; discriminate).
        rewrite <- app_assoc. reflexivity.
Qed.

(** Once the first word is over, nothing more is stored for index 0. *)
Lemma extract_word_loop_past_first (s : cstring) (max_len : Z) :
  forall current_word in_word out_idx,
    2 <= current_word \/ (current_word = 1 /\ in_word = false) ->
    extract_word_loop s 0 max_len current_word in_word out_idx = [].
Proof.
  induction s as [| c s IH]; intros cw iw oi H; cbn [extract_word_loop];
    [reflexivity |].
  destruct (is_nul c); [reflexivity |].
  destruct (is_space c).
  - destruct (iw && (cw =? 0)); [reflexivity |]. apply IH. lia.
  - cbv zeta.
    replace ((if negb iw then cw + 1 else cw) =? 0 + 1) with false.
    + cbn [andb]. apply IH. destruct iw; cbn [negb]; lia.
    + symmetry. apply Z.eqb_neq.
      destruct H as [H | [H1 H2]]; subst; cbn [negb]; [destruct iw; cbn [negb] |];
        lia.
Qed.

(** Inside the first word the rest of the word is stored, as far as the
    buffer has room. *)
Lemma extract_word_loop_in_first (s : cstring) :
  forall out_idx,
    0 <= out_idx ->
    extract_word_loop s 0 WORD_BUF 1 true out_idx
    = firstn (Z.to_nat (WORD_BUF - 1 - out_idx)) (leading_run s).
Proof.
  unfold WORD_BUF.
  induction s as [| c s IH]; intros oi Hoi; cbn [extract_word_loop leading_run].
  - now rewrite firstn_nil.
  - destruct (is_nul c); cbn [orb]; [now rewrite firstn_nil |].
    destruct (is_space c).
    + cbn [andb Z.eqb]. rewrite firstn_nil.
      apply extract_word_loop_past_first. now right.
    + cbv zeta. cbn [negb]. cbn [Z.add Z.eqb Pos.eqb andb].
      destruct (Z.ltb_spec oi (1024 - 1)) as [Hlt | Hge].
      * rewrite IH by lia.
        replace (Z.to_nat (1024 - 1 - oi)) with (S (Z.to_nat (1024 - 1 - (oi + 1))))
          by lia.
        reflexivity.
      * replace (Z.to_nat (1024 - 1 - oi)) with 0%nat by lia.
        rewrite IH by lia.
        replace (Z.to_nat (1024 - 1 - oi)) with 0%nat by lia. reflexivity.
Qed.

(** Index 0 yields the first word of the name, cut to [WORD_MAX] bytes. *)
Lemma extract_word_first (s : cstring) :
  extract_word s 0 WORD_BUF = firstn WORD_MAX (hd [] (words s)).
Proof.
  unfold extract_word, words.
  induction s as [| c s IH]; cbn [extract_word_loop words_loop]; [reflexivity |].
  destruct (is_nul c); [reflexivity |].
  destruct (is_space c); [exact IH |].
  cbv zeta. cbn [negb Z.add Z.eqb Pos.eqb andb app].
  unfold WORD_BUF at 1. cbn [Z.ltb Z.sub Z.add Z.opp Z.pos_sub Z.compare Pos.compare
                             Pos.compare_cont Z.succ_double Z.pred_double Z.double
                             Pos.pred_double].
  rewrite extract_word_loop_in_first by lia.
  rewrite words_loop_head by discriminate.
  reflexivity.
Qed.

(* ====================================================================== *)
(** * Further properties of the matching engine                            *)
(* ====================================================================== *)

(** ** Word extraction and counting *)

(** X1.  Asked for any word but the first, [extract_word] stores the empty
    string, whatever the name and the buffer size. *)
Theorem extract_word_past_first_is_empty (s : cstring) (word_index max_len : Z) :
  1 <= word_index -> extract_word s word_index max_len = [].
Proof.
  intros Hi. unfold extract_word.
  apply extract_word_loop_later. left. lia.
Qed.

Lemma extract_word_past_first_is_empty_witness :
  1 <= 2 /\ extract_word (lit "Alice B Smith") 2 WORD_BUF = [].
Proof.
  split; [lia |].
  apply (extract_word_past_first_is_empty (lit "Alice B Smith") 2 WORD_BUF). lia.
Defined.

(** X2.  Asked for word 0 with the buffer of [validate_match],
    [extract_word] stores the first maximal run of non-space bytes of the
    name, cut to its first 1023 bytes (the empty string when the name has no
    word). *)
Theorem extract_word_zero_is_first_word (s : cstring) :
  extract_word s 0 WORD_BUF = firstn 1023 (hd [] (words s))
  /\ (words s = [] -> extract_word s 0 WORD_BUF = []).
Proof.
  pose proof (extract_word_first s) as H. unfold WORD_MAX in H.
  split; [exact H |].
  intros Hw. rewrite H, Hw. reflexivity.
Qed.

Lemma extract_word_zero_is_first_word_witness :
  words (lit "  ") = [] /\ extract_word (lit "  ") 0 WORD_BUF = [].
Proof.
  split; [reflexivity |].
  apply (extract_word_zero_is_first_word (lit "  ")). reflexivity.
Defined.

Lemma extract_word_loop_bound (s : cstring) (word_index max_len : Z) :
  forall current_word in_word out_idx,
    Z.of_nat (length (extract_word_loop s word_index max_len
                        current_word in_word out_idx))
    <= Z.max 0 (max_len - 1 - out_idx)
    /\ Forall (fun c => is_nul c = false /\ is_space c = false)
         (extract_word_loop s word_index max_len current_word in_word out_idx).
Proof.
  induction s as [| c s IH]; intros cw iw oi; cbn [extract_word_loop].
  - cbn [length]. split; [lia | constructor].
  - destruct (is_nul c) eqn:En; [cbn [length]; split; [lia | constructor] |].
    destruct (is_space c) eqn:Es.
    + destruct (iw && (cw =? word_index));
        [cbn [length]; split; [lia | constructor] | apply IH].
    + cbv zeta.
      destruct (((if negb iw then cw + 1 else cw) =? word_index + 1)) ; cbn [andb];
        [| apply IH].
      destruct (Z.ltb_spec oi (max_len - 1)) as [Hlt | Hge]; [| apply IH].
      destruct (IH (if negb iw then cw + 1 else cw) true (oi + 1)) as [Hlen Hall].
      cbn [length]. split; [lia |]. constructor; [split; assumption | exact Hall].
Qed.

(** X3.  [extract_word] never writes past its buffer: with a buffer of
    [max_len >= 1] bytes it stores at most [max_len - 1] bytes before the
    terminator, none of them a space or a zero byte. *)
Theorem extract_word_fits_buffer (s : cstring) (word_index max_len : Z) :
  1 <= max_len ->
  Z.of_nat (length (extract_word s word_index max_len)) <= max_len - 1
  /\ Forall (fun c => is_nul c = false /\ is_space c = false)
       (extract_word s word_index max_len).
Proof.
  intros Hmax. unfold extract_word.
  destruct (extract_word_loop_bound s word_index max_len 0 false 0) as [Hlen Hall].
  split; [lia | exact Hall].
Qed.

Lemma extract_word_fits_buffer_witness :
  1 <= 4
  /\ Z.of_nat (length (extract_word (lit "Alice Smith") 0 4)) <= 4 - 1
  /\ Forall (fun c => is_nul c = false /\ is_space c = false)
       (extract_word (lit "Alice Smith") 0 4).
Proof.
  split; [lia |].
  apply (extract_word_fits_buffer (lit "Alice Smith") 0 4). lia.
Defined.

Lemma count_words_loop_lower (s : cstring) :
  forall count in_word, count <= count_words_loop s count in_word.
Proof.
  induction s as [| c s IH]; intros count iw; cbn [count_words_loop]; [lia |].
  destruct (is_nul c); [lia |].
  destruct (is_space c); [apply IH |].
  destruct (negb iw); [specialize (IH (count + 1) true); lia | apply IH].
Qed.

(** X4.  [count_words] returns the number of maximal runs of non-space
    bytes before the terminator; it is never negative, and bytes after a
    zero byte are not counted. *)
Theorem count_words_counts_runs (s : cstring) :
  count_words s = Z.of_nat (length (words s))
  /\ 0 <= count_words s
  /\ count_words (cstr s) = count_words s.
Proof.
  split; [apply count_words_words |].
  split; [apply count_words_loop_lower | apply count_words_cstr].
Qed.

(** ** Hashing *)

Lemma hash_loop_range (s : cstring) :
  forall h, 0 <= h < ULONG_MOD -> 0 <= hash_loop s h < ULONG_MOD.
Proof.
  induction s as [| c s IH]; intros h Hh; cbn [hash_loop]; [exact Hh |].
  destruct (is_nul c); [exact Hh |].
  apply IH. apply Z.mod_pos_bound. reflexivity.
Qed.

Lemma hash_loop_app (s t : cstring) :
  Forall (fun c => is_nul c = false) s ->
  forall h, hash_loop (s ++ t) h = hash_loop t (hash_loop s h).
Proof.
  induction 1 as [| c s Hc _ IH]; intros h; cbn [app hash_loop]; [reflexivity |].
  rewrite Hc. apply IH.
Qed.

(** X5.  [hash_string] is the djb2 hash on 64 bits: it starts from 5381,
    each further byte [c] of the string takes the hash [h] to
    [(33 * h + c) mod 2^64] with [c] read as a signed [char], and the value
    stays within [unsigned long]. *)
Theorem hash_string_djb2 (s : cstring) (c : ascii) :
  Forall (fun b => is_nul b = false) s -> is_nul c = false ->
  hash_string [] = 5381
  /\ hash_string (s ++ [c]) = (33 * hash_string s + char_to_int c) mod 2 ^ 64
  /\ 0 <= hash_string (s ++ [c]) < 2 ^ 64.
Proof.
  intros Hs Hc. split; [reflexivity |]. split.
  - unfold hash_string. rewrite hash_loop_app by exact Hs.
    cbn [hash_loop]. rewrite Hc. unfold ULONG_MOD.
    rewrite Z.shiftl_mul_pow2 by lia.
    change (2 ^ 5) with 32. generalize (hash_loop s 5381); intros h.
    generalize (char_to_int c); intros k.
    assert (2 ^ 64 <> 0) as HM by lia. revert HM. generalize (2 ^ 64); intros M HM.
    rewrite (Z.add_mod_idemp_l ((h * 32) mod M + h) k M HM).
    rewrite <- Z.add_assoc, (Z.add_mod_idemp_l (h * 32) (h + k) M HM).
    f_equal. lia.
  - apply hash_loop_range. unfold ULONG_MOD. lia.
Qed.

Lemma hash_string_djb2_witness :
  hash_string (lit "Bo" ++ ["b"%char])
  = (33 * hash_string (lit "Bo") + char_to_int "b"%char) mod 2 ^ 64.
Proof.
  apply (hash_string_djb2 (lit "Bo") "b"%char).
  - repeat constructor.
  - reflexivity.
Defined.

(** ** Lookup *)

Lemma lookup_loop_found (tt : TradeoutTable) (q : cstring) (r : option StringSet)
    (start : nat) :
  forall fuel index,
    lookup_loop fuel tt q start index = Return r ->
    r = None
    \/ exists j stored, word (entry_at tt j) = Some stored
                        /\ strcmp stored q = 0
                        /\ tradeouts (entry_at tt j) = r.
Proof.
  induction fuel as [| fuel IH]; intros index H; cbn [lookup_loop] in H;
    [discriminate |].
  destruct (word (entry_at tt index)) as [stored |] eqn:E.
  - destruct (Z.eqb_spec (strcmp stored q) 0) as [Hc | _].
    + inversion H; subst r. right. exists index, stored. auto.
    + destruct (_ =? start)%nat; [inversion H; now left |].
      eapply IH; eassumption.
  - inversion H. now left.
Qed.

(** X6.  On every table with at least one slot, full or not and however it
    was filled, [tradeout_table_lookup] returns: the cycle guard ends the
    probe loop within [capacity] iterations.  What it returns is "not found"
    or the set of a slot whose word compares equal to the word looked up. *)
Theorem tradeout_table_lookup_total (tt : TradeoutTable) (w : cstring) :
  tt_capacity tt <> 0%nat ->
  exists r,
    tradeout_table_lookup tt w = Return r
    /\ (r = None
        \/ exists j stored, word (entry_at tt j) = Some stored
                            /\ cstr stored = cstr w
                            /\ tradeouts (entry_at tt j) = r).
Proof.
  intros Hcap. destruct (tradeout_table_lookup_returns tt w Hcap) as [r Hr].
  exists r. split; [exact Hr |].
  unfold tradeout_table_lookup in Hr.
  destruct (tt_capacity tt =? 0)%nat; [discriminate |].
  apply lookup_loop_found in Hr.
  destruct Hr as [-> | (j & stored & Hw & Hcmp & Ht)]; [now left |].
  right. exists j, stored. rewrite <- strcmp_zero. auto.
Qed.

Lemma tradeout_table_lookup_total_witness :
  exists r,
    tradeout_table_lookup
      (mkTradeoutTable
         [mkWordTradeouts (Some (lit "a")) None; mkWordTradeouts (Some (lit "b")) None]
         2 2)
      (lit "zz") = Return r.
Proof.
  destruct (tradeout_table_lookup_total
              (mkTradeoutTable
                 [mkWordTradeouts (Some (lit "a")) None;
                  mkWordTradeouts (Some (lit "b")) None] 2 2)
              (lit "zz")) as (r & Hr & _).
  - cbn. discriminate.
  - exists r. exact Hr.
Defined.

(** ** Shape of the table *)

Lemma create_loop_shape (items : list (pystr * list pystr)) :
  forall tt tt',
    length (entries tt) = tt_capacity tt ->
    (filled_count (entries tt) + length items <= tt_capacity tt)%nat ->
    for_each items insert_item tt = Return tt' ->
    tt_capacity tt' = tt_capacity tt
    /\ tt_size tt' = tt_size tt
    /\ length (entries tt') = tt_capacity tt
    /\ filled_count (entries tt') = (filled_count (entries tt) + length items)%nat.
Proof.
  induction items as [| [w ms] items IH]; intros tt tt' Hlen Hroom Hrun;
    cbn [for_each length] in *.
  - inversion Hrun; subst tt'. repeat split; [exact Hlen | lia].
  - destruct (insert_item tt (w, ms)) as [tt1 | |] eqn:Eins; cbn [bind] in Hrun;
      try discriminate.
    pose proof Eins as Eret. apply insert_item_return in Eret.
    destruct Eret as (wb & r & ts & _ & Hcap & Hr & _ & ->).
    destruct (find_slot_free tt (slot_of tt wb)) as (d & Hd & Hr' & Hfree & _);
      [exact Hlen | lia | now apply slot_of_bound |].
    rewrite Hr in Hr'. injection Hr' as Hrd. rewrite <- Hrd in Hfree.
    assert (r < length (entries tt))%nat as Hrlen
      by (rewrite Hrd, Hlen; apply Nat.mod_upper_bound; exact Hcap).
    destruct (IH (set_tradeouts (set_word tt r (strcpy wb)) r ts) tt')
      as (H1 & H2 & H3 & H4).
    + rewrite length_insert. exact Hlen.
    + rewrite filled_count_insert by assumption.
      change (tt_capacity (set_tradeouts (set_word tt r (strcpy wb)) r ts))
        with (tt_capacity tt). lia.
    + exact Hrun.
    + rewrite filled_count_insert in H4 by assumption.
      repeat split; [exact H1 | exact H2 | exact H3 | lia].
Qed.

(** X7.  [create_tradeout_table] always ends: it returns a table, or a key
    or a match cannot be encoded.  The table it returns has twice as many
    slots as the mapping has items, exactly one slot filled per item, and
    records the number of items as its size. *)
Theorem create_tradeout_table_shape (word_to_matches : list (pystr * list pystr)) :
  create_tradeout_table word_to_matches = Raise UnicodeEncodeError
  \/ exists tt,
       create_tradeout_table word_to_matches = Return tt
       /\ tt_capacity tt = (2 * length word_to_matches)%nat
       /\ length (entries tt) = (2 * length word_to_matches)%nat
       /\ filled_count (entries tt) = length word_to_matches
       /\ tt_size tt = length word_to_matches.
Proof.
  destruct (create_tradeout_table_total word_to_matches) as [H | [tt H]];
    [now left | right].
  exists tt. split; [exact H |].
  unfold create_tradeout_table in H.
  apply create_loop_shape in H; cbn [entries tt_capacity tt_size] in *.
  - rewrite filled_count_repeat_empty in H.
    destruct H as (H1 & H2 & H3 & H4). repeat split; lia.
  - apply repeat_length.
  - rewrite filled_count_repeat_empty. lia.
Qed.

(** X8.  On the table built from a non-empty mapping whose keys have
    pairwise different C strings, the lookup answers "not found" exactly for
    the words that are the C string of no key. *)
Theorem lookup_missing_key (word_to_matches : list (pystr * list pystr))
    (tt : TradeoutTable) (q : cstring) :
  word_to_matches <> [] ->
  NoDup (map (fun it => c_key (fst it)) word_to_matches) ->
  create_tradeout_table word_to_matches = Return tt ->
  (tradeout_table_lookup tt q = Return None
   <-> forall it, In it word_to_matches -> c_key (fst it) <> cstr q).
Proof.
  intros Hne Hnd Hrun.
  destruct (lookup_built_table word_to_matches tt q Hne Hnd Hrun) as [Hkey Hmiss].
  split; [| exact Hmiss].
  intros Hnone [w ms] Hin Heq. cbn [fst] in Heq.
  destruct (Hkey w ms Hin Heq) as (ts & Hts & _). congruence.
Qed.

Lemma lookup_missing_key_witness :
  exists tt,
    create_tradeout_table bob_robert = Return tt
    /\ (tradeout_table_lookup tt (lit "Alice") = Return None
        <-> forall it, In it bob_robert -> c_key (fst it) <> cstr (lit "Alice")).
Proof.
  eexists. split; [vm_compute; reflexivity |].
  apply (lookup_missing_key bob_robert).
  - discriminate.
  - cbn [map bob_robert]. constructor; [intros [] | constructor].
  - vm_compute. reflexivity.
Defined.

(** ** What [validate_match] decides *)

Lemma range_split (n : Z) :
  1 <= n ->
  exists tl, range n = 0 :: tl
             /\ (forall j, In j tl -> 1 <= j < n)
             /\ Z.of_nat (length tl) = n - 1.
Proof.
  intros Hn. unfold range.
  destruct (Z.to_nat n) as [| k] eqn:E; [lia |].
  cbn [seq map]. exists (map Z.of_nat (seq 1 k)).
  split; [reflexivity |]. split.
  - intros j Hj. apply in_map_iff in Hj. destruct Hj as (i & <- & Hi).
    apply in_seq in Hi. lia.
  - rewrite length_map, length_seq. lia.
Qed.

Lemma existsb_constant {A : Type} (f : A -> bool) (y : bool) (l : list A) :
  l <> [] -> (forall x, In x l -> f x = y) -> existsb f l = y.
Proof.
  induction l as [| x l IH]; intros Hne Hf; [contradiction |].
  cbn [existsb]. rewrite (Hf x) by now left.
  destruct l as [| x' l]; [cbn; apply orb_false_r |].
  rewrite IH; [apply orb_diag | discriminate | intros; apply Hf; now right].
Qed.

(** Over the words of a name with two words or more, a test sees the first
    word and then the empty string only. *)
Lemma existsb_words (f : cstring -> bool) (b : cstring) (len_b : Z) :
  2 <= len_b ->
  existsb (fun j => f (extract_word b j WORD_BUF)) (range len_b)
  = f (first_word b) || f [].
Proof.
  intros Hb. destruct (range_split len_b) as (tl & -> & Htl & Hlen); [lia |].
  cbn [existsb]. fold (first_word b). f_equal.
  apply existsb_constant.
  - destruct tl; [cbn [length] in Hlen; lia | discriminate].
  - intros j Hj. rewrite extract_word_later_empty; [reflexivity |].
    specialize (Htl j Hj). lia.
Qed.

Lemma first_word_starts (s : cstring) :
  forall count, count < count_words_loop s count false ->
  exists c rest, extract_word_loop s 0 WORD_BUF 0 false 0 = c :: rest
                 /\ is_nul c = false.
Proof.
  induction s as [| c s IH]; intros count H; cbn [count_words_loop] in H; [lia |].
  cbn [extract_word_loop].
  destruct (is_nul c) eqn:En; [lia |].
  destruct (is_space c); [eapply IH; exact H |].
  cbv zeta. cbn [negb Z.add Z.eqb Pos.eqb andb].
  unfold WORD_BUF at 1. cbn [Z.ltb Z.sub Z.add Z.opp Z.pos_sub Z.compare Pos.compare
                             Pos.compare_cont Z.succ_double Z.pred_double Z.double
                             Pos.pred_double].
  eauto.
Qed.

(** The first word of a name that has a word is not the empty string. *)
Lemma first_word_nonempty (s : cstring) :
  1 <= count_words s -> (strcmp (first_word s) [] =? 0) = false.
Proof.
  intros H. destruct (first_word_starts s 0) as (c & rest & E & Hc);
    [unfold count_words in H; lia |].
  unfold first_word, extract_word. rewrite E. cbn [strcmp].
  apply Z.eqb_neq. intros Hz. apply uchar_nul in Hz. congruence.
Qed.

Lemma strcmp_nil_l (s : cstring) : (strcmp [] s =? 0) = (strcmp s [] =? 0).
Proof.
  destruct s as [| c s]; [reflexivity |]. cbn [strcmp].
  destruct (Z.eqb_spec (uchar c) 0) as [E | E].
  - rewrite E. reflexivity.
  - apply Z.eqb_neq. lia.
Qed.

(** The first counting loop: every word past the first counts as matched,
    and the first word counts when [first_word_matches] says so. *)
Lemma matches_a_in_b_first (a b : cstring) (tt : TradeoutTable) :
  2 <= count_words a -> 2 <= count_words b ->
  matches_a_in_b a b (count_words a) (count_words b) tt
  = (m <- first_word_matches tt a b ;;
     Return ((if m : bool then 1 else 0) + (count_words a - 1))).
Proof.
  intros Ha Hb. unfold matches_a_in_b.
  destruct (range_split (count_words a)) as (tl & -> & Htl & Hlen); [lia |].
  cbn [for_each].
  assert (forall acc,
             for_each tl
               (fun matches i =>
                  let word_buf := extract_word a i WORD_BUF in
                  if existsb
                       (fun j => strcmp word_buf (extract_word b j WORD_BUF) =? 0)
                       (range (count_words b))
                  then Return (matches + 1)
                  else
                    found <- tradeout_table_lookup tt word_buf ;;
                    match found with
                    | Some ts =>
                        if existsb
                             (fun j => string_set_contains ts (extract_word b j WORD_BUF))
                             (range (count_words b))
                        then Return (matches + 1)
                        else Return matches
                    | None => Return matches
                    end) acc
             = Return (acc + (count_words a - 1))) as Htail.
  { intros acc. rewrite for_each_count; [now rewrite Hlen |].
    intros acc' i Hi. cbv zeta.
    rewrite extract_word_later_empty by (specialize (Htl i Hi); lia).
    rewrite (existsb_words (fun w => strcmp [] w =? 0) b) by exact Hb.
    cbn [strcmp Z.eqb]. rewrite orb_true_r. reflexivity. }
  cbv zeta. fold (first_word a).
  rewrite (existsb_words (fun w => strcmp (first_word a) w =? 0) b) by exact Hb.
  rewrite first_word_nonempty by lia. rewrite orb_false_r.
  unfold first_word_matches.
  destruct (strcmp (first_word a) (first_word b) =? 0); cbn [bind];
    [apply Htail |].
  destruct (tradeout_table_lookup tt (first_word a)) as [[ts |] | |]; cbn [bind];
    try reflexivity; [| apply Htail].
  rewrite (existsb_words (string_set_contains ts) b) by exact Hb.
  destruct (_ || _); apply Htail.
Qed.

(** X9.  What [validate_match] decides on two names of two words or more:
    only their first words are looked at.  Each side's first word is matched
    by equality or through its tradeout set, every later word counts as
    matched, and the rules are applied to the word counts and these two
    verdicts. *)
Theorem validate_match_first_words (a b : cstring) (tt : TradeoutTable) :
  2 <= count_words a -> 2 <= count_words b ->
  validate_match a b tt
  = (match_a <- first_word_matches tt a b ;;
     match_b <- first_word_matches tt b a ;;
     Return (accepts (count_words a) (count_words b) match_a match_b)).
Proof.
  intros Ha Hb. unfold validate_match.
  replace (count_words a <? 2) with false by (symmetry; apply Z.ltb_ge; lia).
  replace (count_words b <? 2) with false by (symmetry; apply Z.ltb_ge; lia).
  cbn [orb]. rewrite matches_b_in_a_swap, !matches_a_in_b_first by assumption.
  destruct (first_word_matches tt a b) as [ma | |]; cbn [bind]; try reflexivity.
  destruct (first_word_matches tt b a) as [mb | |]; cbn [bind]; try reflexivity.
  unfold accepts.
  destruct ma, mb;
    destruct (Z.eqb_spec (count_words a) 3), (Z.eqb_spec (count_words b) 3),
             (Z.eqb_spec (count_words a) 2), (Z.eqb_spec (count_words b) 2);
    try lia;
    repeat match goal with
      | |- context [?x <? ?y] => destruct (Z.ltb_spec x y); try lia
      | |- context [?x =? ?y] => destruct (Z.eqb_spec x y); try lia
      | |- context [?x >=? ?y] =>
          let E := fresh in
          destruct (x >=? y) eqn:E;
          [apply Z.geb_le in E | rewrite Z.geb_leb in E; apply Z.leb_gt in E];
          try lia
      end;
    reflexivity.
Qed.

Lemma validate_match_first_words_witness :
  validate_match (lit "Alice Smith") (lit "Bob Jones") (mkTradeoutTable [] 0 0)
  = (match_a <- first_word_matches (mkTradeoutTable [] 0 0)
                  (lit "Alice Smith") (lit "Bob Jones") ;;
     match_b <- first_word_matches (mkTradeoutTable [] 0 0)
                  (lit "Bob Jones") (lit "Alice Smith") ;;
     Return (accepts (count_words (lit "Alice Smith")) (count_words (lit "Bob Jones"))
               match_a match_b)).
Proof.
  apply (validate_match_first_words (lit "Alice Smith") (lit "Bob Jones"));
    vm_compute; discriminate.
Defined.

Lemma first_word_matches_returns (tt : TradeoutTable) (a b : cstring) :
  tt_capacity tt <> 0%nat -> exists m, first_word_matches tt a b = Return m.
Proof.
  intros Hcap. unfold first_word_matches.
  destruct (_ =? 0); [eauto |].
  destruct (tradeout_table_lookup_returns tt (first_word a) Hcap) as [r ->].
  cbn [bind]. eauto.
Qed.

Lemma strcmp_sym_zero (a b : cstring) : strcmp a b = 0 -> strcmp b a = 0.
Proof.
  rewrite !strcmp_zero. congruence.
Qed.

(** X10.  On a table with at least one slot, any two names with four words
    or more each are accepted, whatever their words. *)
Theorem validate_match_accepts_long_names (a b : cstring) (tt : TradeoutTable) :
  4 <= count_words a -> 4 <= count_words b -> tt_capacity tt <> 0%nat ->
  validate_match a b tt = Return true.
Proof.
  intros Ha Hb Hcap. unfold validate_match.
  replace (count_words a <? 2) with false by (symmetry; apply Z.ltb_ge; lia).
  replace (count_words b <? 2) with false by (symmetry; apply Z.ltb_ge; lia).
  cbn [orb]. rewrite matches_b_in_a_swap, !matches_a_in_b_first by lia.
  destruct (first_word_matches_returns tt a b Hcap) as [ma ->].
  destruct (first_word_matches_returns tt b a Hcap) as [mb ->].
  cbn [bind].
  replace (count_words a =? 3) with false by (symmetry; apply Z.eqb_neq; lia).
  replace (count_words b =? 3) with false by (symmetry; apply Z.eqb_neq; lia).
  cbn [andb].
  destruct ma, mb;
    repeat match goal with
      | |- context [?x <? ?y] => destruct (Z.ltb_spec x y); try lia
      end;
    reflexivity.
Qed.

Lemma validate_match_accepts_long_names_witness :
  exists tt,
    create_tradeout_table bob_robert = Return tt
    /\ validate_match (lit "W X Y Z") (lit "A B C D") tt = Return true.
Proof.
  eexists. split; [vm_compute; reflexivity |].
  apply (validate_match_accepts_long_names (lit "W X Y Z") (lit "A B C D"));
    vm_compute; discriminate.
Defined.

(** X11.  Two names of two words or more whose first words are equal (up to
    the 1023 bytes kept) are accepted on every table, whatever their other
    words; no lookup is made. *)
Theorem validate_match_accepts_same_first_word (a b : cstring) (tt : TradeoutTable) :
  2 <= count_words a -> 2 <= count_words b ->
  strcmp (first_word a) (first_word b) = 0 ->
  validate_match a b tt = Return true.
Proof.
  intros Ha Hb Hsame. pose proof (strcmp_sym_zero _ _ Hsame) as Hsame'.
  unfold validate_match.
  replace (count_words a <? 2) with false by (symmetry; apply Z.ltb_ge; lia).
  replace (count_words b <? 2) with false by (symmetry; apply Z.ltb_ge; lia).
  cbn [orb]. rewrite matches_b_in_a_swap, !matches_a_in_b_first by lia.
  unfold first_word_matches. rewrite Hsame, Hsame'. cbn [Z.eqb bind].
  replace (count_words a - (1 + (count_words a - 1))) with 0 by lia.
  replace (count_words b - (1 + (count_words b - 1))) with 0 by lia.
  cbn [Z.eqb negb andb]. rewrite !andb_false_r. cbn [andb].
  rewrite !Z.sub_0_r.
  replace (count_words a <? 2) with false by (symmetry; apply Z.ltb_ge; lia).
  replace (count_words b <? 2) with false by (symmetry; apply Z.ltb_ge; lia).
  reflexivity.
Qed.

Lemma validate_match_accepts_same_first_word_witness :
  validate_match (lit "Alice Smith") (lit "Alice Jones Brown") (mkTradeoutTable [] 0 0)
  = Return true.
Proof.
  apply (validate_match_accepts_same_first_word
           (lit "Alice Smith") (lit "Alice Jones Brown"));
    vm_compute; try discriminate; reflexivity.
Defined.

(** X12.  On a table without slots (the table of an empty mapping),
    [validate_match] raises [ZeroDivisionError] on every two names of two
    words or more whose first words differ; on a table with a slot it always
    returns a truth value. *)
Theorem validate_match_raises_without_slots (a b : cstring) (tt : TradeoutTable) :
  2 <= count_words a -> 2 <= count_words b ->
  strcmp (first_word a) (first_word b) <> 0 ->
  (tt_capacity tt = 0%nat -> validate_match a b tt = Raise ZeroDivisionError)
  /\ (tt_capacity tt <> 0%nat -> exists r, validate_match a b tt = Return r).
Proof.
  intros Ha Hb Hdiff. unfold validate_match.
  replace (count_words a <? 2) with false by (symmetry; apply Z.ltb_ge; lia).
  replace (count_words b <? 2) with false by (symmetry; apply Z.ltb_ge; lia).
  cbn [orb]. rewrite matches_b_in_a_swap, !matches_a_in_b_first by lia.
  split.
  - intros Hcap. unfold first_word_matches at 1.
    apply Z.eqb_neq in Hdiff. rewrite Hdiff.
    unfold tradeout_table_lookup. rewrite Hcap. reflexivity.
  - intros Hcap.
    destruct (first_word_matches_returns tt a b Hcap) as [ma ->].
    destruct (first_word_matches_returns tt b a Hcap) as [mb ->].
    cbn [bind].
    repeat match goal with |- context [if ?c then _ else _] => destruct c end;
      eauto.
Qed.

Lemma validate_match_raises_without_slots_witness :
  validate_match (lit "Alice Smith") (lit "Bob Jones") (mkTradeoutTable [] 0 0)
  = Raise ZeroDivisionError.
Proof.
  apply (validate_match_raises_without_slots
           (lit "Alice Smith") (lit "Bob Jones") (mkTradeoutTable [] 0 0));
    vm_compute; try discriminate; reflexivity.
Defined.

(** ** What the scan returns *)

Section AppendingLoops.

Context {A B : Type}.
Variable g : A -> outcome (list B).
Variable body : list B -> A -> outcome (list B).
Hypothesis body_appends :
  forall acc x, body acc x = (r <- g x ;; Return (acc ++ r)).

Lemma for_each_appending_in (xs : list A) :
  forall r, for_each xs body [] = Return r ->
  (forall x, In x xs -> exists l, g x = Return l)
  /\ (forall p, In p r <-> exists x l, In x xs /\ g x = Return l /\ In p l).
Proof.
  induction xs as [| x xs IH]; intros r Hr.
  - inversion Hr. split; [intros x [] |].
    intros p. split; [intros [] | intros (x & l & [] & _)].
  - rewrite (for_each_cons_appending g body body_appends) in Hr.
    destruct (g x) as [a | |] eqn:Ex; cbn [bind] in Hr; try discriminate.
    destruct (for_each xs body []) as [rs | |]; cbn [bind] in Hr; try discriminate.
    inversion Hr; subst r. destruct (IH rs eq_refl) as [Hall Hin]. split.
    + intros y [<- | Hy]; [eauto | now apply Hall].
    + intros p. rewrite in_app_iff, Hin. split.
      * intros [Hp | (y & l & Hy & Hl & Hp)];
          [exists x, a; auto using in_eq | exists y, l; auto using in_cons].
      * intros (y & l & [<- | Hy] & Hl & Hp).
        -- left. congruence.
        -- right. eauto.
Qed.

Hypothesis g_clean : forall x, clean (g x).

Lemma for_each_appending_raise (xs : list A) (x : A) (e : exn) :
  In x xs -> g x = Raise e -> for_each xs body [] = Raise ZeroDivisionError.
Proof.
  induction xs as [| y xs IH]; intros Hin Hx; [contradiction |].
  rewrite (for_each_cons_appending g body body_appends).
  pose proof (g_clean y) as Hy.
  destruct Hin as [-> | Hin].
  - rewrite Hx in *. cbn in Hy. subst e. reflexivity.
  - rewrite (IH Hin Hx).
    destruct (g y) as [a | e' |]; cbn in *; [reflexivity | now subst | contradiction].
Qed.

End AppendingLoops.

Lemma scan_body_appends (name_ptrs : list cstring) (tt : TradeoutTable) (i : Z) :
  forall acc j,
    (ok <- validate_match (name_at name_ptrs i) (name_at name_ptrs j) tt ;;
     if ok : bool
     then Return (acc ++ [mkNamePair (name_at name_ptrs i) (name_at name_ptrs j)])
     else Return acc)
    = (r <- pair_if_accepted name_ptrs tt i j ;; Return (acc ++ r)).
Proof.
  intros acc j. unfold pair_if_accepted.
  destruct (validate_match _ _ tt) as [[|] | |]; cbn [bind]; try reflexivity.
  now rewrite app_nil_r.
Qed.

Lemma pair_if_accepted_clean (name_ptrs : list cstring) (tt : TradeoutTable) (i j : Z) :
  clean (pair_if_accepted name_ptrs tt i j).
Proof.
  unfold pair_if_accepted.
  apply clean_bind; [apply validate_match_clean | intros; exact I].
Qed.

(** The pairs one outer iteration stores. *)
Lemma scan_row_pairs (name_ptrs : list cstring) (n_names : Z) (tt : TradeoutTable)
    (i : Z) (row : list NamePair) :
  scan_row name_ptrs n_names tt [] i = Return row ->
  forall p, In p row <->
    exists j, i + 1 <= j < n_names
      /\ validate_match (name_at name_ptrs i) (name_at name_ptrs j) tt = Return true
      /\ p = mkNamePair (name_at name_ptrs i) (name_at name_ptrs j).
Proof.
  unfold scan_row. intros Hrow p.
  apply (for_each_appending_in _ _ (scan_body_appends name_ptrs tt i)) in Hrow.
  destruct Hrow as [_ Hin]. rewrite Hin. split.
  - intros (j & l & Hj & Hl & Hp). apply in_range_from in Hj.
    unfold pair_if_accepted in Hl.
    destruct (validate_match _ _ tt) as [[|] | |] eqn:Ev; cbn [bind] in Hl;
      inversion Hl; subst l; [| contradiction].
    destruct Hp as [<- | []]. exists j. auto.
  - intros (j & Hj & Hv & ->). exists j. eexists.
    split; [now apply in_range_from |].
    unfold pair_if_accepted. rewrite Hv. cbn [bind].
    split; [reflexivity | now left].
Qed.

(** The pairs all the workers store, under a schedule of the outer loop. *)
Lemma parallel_loop_pairs (name_ptrs : list cstring) (n_names n_threads : Z)
    (tt : TradeoutTable) (sched : list (list Z)) (bufs : list (list NamePair)) :
  schedule_of n_threads n_names sched ->
  parallel_loop name_ptrs n_names tt sched = Return bufs ->
  forall p, In p (concat bufs) <->
    exists i j, 0 <= i /\ i < j /\ j < n_names
      /\ validate_match (name_at name_ptrs i) (name_at name_ptrs j) tt = Return true
      /\ p = mkNamePair (name_at name_ptrs i) (name_at name_ptrs j).
Proof.
  intros [_ Hperm] Hloop p.
  pose proof (parallel_loop_concat name_ptrs n_names tt sched) as Hcat.
  rewrite Hloop in Hcat. cbn [bind] in Hcat. symmetry in Hcat.
  unfold run_worker in Hcat.
  apply (for_each_appending_in _ _ (scan_row_appends name_ptrs n_names tt)) in Hcat.
  destruct Hcat as [Hall Hin]. rewrite Hin. split.
  - intros (i & row & Hi & Hrow & Hp).
    apply (Permutation_in _ Hperm) in Hi. apply in_range in Hi.
    apply (scan_row_pairs _ _ _ _ _ Hrow) in Hp.
    destruct Hp as (j & Hj & Hv & ->). exists i, j. repeat split; auto; lia.
  - intros (i & j & Hi & Hij & Hj & Hv & ->).
    assert (In i (concat sched)) as Hisched
      by (apply (Permutation_in _ (Permutation_sym Hperm)); apply in_range; lia).
    destruct (Hall i Hisched) as [row Hrow].
    exists i, row. split; [exact Hisched |]. split; [exact Hrow |].
    apply (scan_row_pairs _ _ _ _ _ Hrow). exists j. repeat split; auto; lia.
Qed.

(** X13.  What [parallel_find_matches] returns, under every schedule of its
    outer loop: exactly the pairs of valid names at list positions [i < j]
    that [validate_match] accepts, each given by the C strings of the two
    names. *)
Theorem parallel_find_matches_pairs (all_names : list pystr)
    (word_to_matches : list (pystr * list pystr)) (num_threads cpu_count : Z)
    (sched : list (list Z)) (res : list (cstring * cstring)) :
  schedule_of (resolve_threads num_threads cpu_count)
    (Z.of_nat (length (valid_names all_names))) sched ->
  parallel_find_matches all_names word_to_matches num_threads cpu_count sched
    = Return res ->
  exists tt bytes_list,
    create_tradeout_table word_to_matches = Return tt
    /\ encode_all (valid_names all_names) = Return bytes_list
    /\ forall o1 o2, In (o1, o2) res <->
         exists i j, 0 <= i /\ i < j /\ j < Z.of_nat (length (valid_names all_names))
           /\ validate_match (name_at bytes_list i) (name_at bytes_list j) tt
              = Return true
           /\ o1 = cstr (name_at bytes_list i)
           /\ o2 = cstr (name_at bytes_list j).
Proof.
  intros Hsched Hres. unfold parallel_find_matches in Hres.
  destruct (create_tradeout_table word_to_matches) as [tt | |];
    cbn [bind] in Hres; try discriminate.
  destruct (encode_all _) as [bytes_list | |]; cbn [bind] in Hres; try discriminate.
  destruct (parallel_loop _ _ tt sched) as [bufs | |] eqn:Eloop; cbn [bind] in Hres;
    try discriminate.
  inversion Hres; subst res. exists tt, bytes_list.
  split; [reflexivity |]. split; [reflexivity |].
  intros o1 o2. rewrite collect_concat, in_map_iff.
  pose proof (parallel_loop_pairs _ _ _ _ _ _ Hsched Eloop) as Hpairs. split.
  - intros (p & Hp & Hin). apply Hpairs in Hin.
    destruct Hin as (i & j & Hi & Hij & Hj & Hv & ->). cbn [name1 name2] in Hp.
    inversion Hp; subst. exists i, j. auto 10.
  - intros (i & j & Hi & Hij & Hj & Hv & -> & ->).
    exists (mkNamePair (name_at bytes_list i) (name_at bytes_list j)).
    split; [reflexivity |]. apply Hpairs. exists i, j. auto 10.
Qed.

Lemma parallel_find_matches_pairs_witness :
  exists tt bytes_list,
    create_tradeout_table bob_robert = Return tt
    /\ encode_all (valid_names [pystr_of "Alice Smith"; pystr_of "Al";
                                pystr_of "Alice Jones"]) = Return bytes_list
    /\ forall o1 o2,
         In (o1, o2) [(lit "Alice Smith", lit "Alice Jones")] <->
         exists i j, 0 <= i /\ i < j
           /\ j < Z.of_nat (length (valid_names [pystr_of "Alice Smith"; pystr_of "Al";
                                                pystr_of "Alice Jones"]))
           /\ validate_match (name_at bytes_list i) (name_at bytes_list j) tt
              = Return true
           /\ o1 = cstr (name_at bytes_list i)
           /\ o2 = cstr (name_at bytes_list j).
Proof.
  apply (parallel_find_matches_pairs
           [pystr_of "Alice Smith"; pystr_of "Al"; pystr_of "Alice Jones"]
           bob_robert 2 4 [[1]; [0]]).
  - split; [reflexivity |].
    change (Permutation [1; 0] [0; 1]). apply perm_swap.
  - vm_compute. reflexivity.
Defined.

Lemma for_each_idle {A S : Type} (xs : list A) (body : S -> A -> outcome S) :
  (forall acc x, In x xs -> body acc x = Return acc) ->
  forall acc, for_each xs body acc = Return acc.
Proof.
  induction xs as [| x xs IH]; intros Hb acc; cbn [for_each]; [reflexivity |].
  rewrite Hb by now left. cbn [bind]. apply IH. intros; apply Hb; now right.
Qed.

(** X14.  With fewer than two valid names the scan compares nothing:
    [parallel_find_matches] returns the empty list, for every mapping (the
    empty one too), unless a key, a match or a name cannot be encoded. *)
Theorem parallel_find_matches_few_names (all_names : list pystr)
    (word_to_matches : list (pystr * list pystr)) (num_threads cpu_count : Z)
    (sched : list (list Z)) :
  schedule_of (resolve_threads num_threads cpu_count)
    (Z.of_nat (length (valid_names all_names))) sched ->
  (length (valid_names all_names) <= 1)%nat ->
  parallel_find_matches all_names word_to_matches num_threads cpu_count sched
    = Return []
  \/ parallel_find_matches all_names word_to_matches num_threads cpu_count sched
    = Raise UnicodeEncodeError.
Proof.
  intros [_ Hperm] Hfew. unfold parallel_find_matches.
  destruct (create_tradeout_table_total word_to_matches) as [-> | [tt ->]];
    cbn [bind]; [now right |].
  destruct (encode_all_outcome (valid_names all_names)) as [[bs ->] | ->];
    cbn [bind]; [left | now right].
  pose proof (parallel_loop_concat bs (Z.of_nat (length (valid_names all_names)))
                tt sched) as Hcat.
  unfold run_worker in Hcat. rewrite for_each_idle in Hcat.
  - destruct (parallel_loop bs _ tt sched) as [bufs | |]; cbn [bind] in *;
      try discriminate.
    inversion Hcat as [Hnil]. now rewrite collect_concat, Hnil.
  - intros acc i Hi. apply (Permutation_in _ Hperm) in Hi. apply in_range in Hi.
    unfold scan_row, range_from.
    replace (Z.to_nat (Z.of_nat (length (valid_names all_names)) - (i + 1)))
      with 0%nat by lia.
    reflexivity.
Qed.

Lemma parallel_find_matches_few_names_witness :
  parallel_find_matches [pystr_of "Alice Smith"; pystr_of "Bob"] [] 1 4 [[0]]
    = Return []
  \/ parallel_find_matches [pystr_of "Alice Smith"; pystr_of "Bob"] [] 1 4 [[0]]
    = Raise UnicodeEncodeError.
Proof.
  apply parallel_find_matches_few_names.
  - split; [reflexivity | apply Permutation_refl].
  - vm_compute. lia.
Defined.

(** X15.  An exception of [validate_match] on any pair of positions [i < j]
    ends the whole scan: [parallel_find_matches] raises [ZeroDivisionError]
    under every schedule, whichever worker meets the pair and whatever the
    other workers have stored. *)
Theorem parallel_find_matches_propagates (all_names : list pystr)
    (word_to_matches : list (pystr * list pystr)) (num_threads cpu_count : Z)
    (sched : list (list Z)) (tt : TradeoutTable) (bytes_list : list cstring)
    (i j : Z) (e : exn) :
  schedule_of (resolve_threads num_threads cpu_count)
    (Z.of_nat (length (valid_names all_names))) sched ->
  create_tradeout_table word_to_matches = Return tt ->
  encode_all (valid_names all_names) = Return bytes_list ->
  0 <= i -> i < j -> j < Z.of_nat (length (valid_names all_names)) ->
  validate_match (name_at bytes_list i) (name_at bytes_list j) tt = Raise e ->
  parallel_find_matches all_names word_to_matches num_threads cpu_count sched
    = Raise ZeroDivisionError.
Proof.
  intros [_ Hperm] Htt Hbytes Hi Hij Hj Hraise.
  unfold parallel_find_matches. rewrite Htt, Hbytes. cbn [bind].
  set (n := Z.of_nat (length (valid_names all_names))) in *.
  assert (scan_row bytes_list n tt [] i = Raise ZeroDivisionError) as Hrow.
  { unfold scan_row.
    apply (for_each_appending_raise _ _ (scan_body_appends bytes_list tt i)
             (pair_if_accepted_clean bytes_list tt i) _ j e).
    - apply in_range_from. lia.
    - unfold pair_if_accepted. rewrite Hraise. reflexivity. }
  pose proof (parallel_loop_concat bytes_list n tt sched) as Hcat.
  unfold run_worker in Hcat.
  rewrite (for_each_appending_raise _ _ (scan_row_appends bytes_list n tt)
             (fun k => scan_row_clean bytes_list n tt [] k) _ i ZeroDivisionError) in Hcat.
  - destruct (parallel_loop bytes_list n tt sched) as [bufs | e' |];
      cbn [bind] in *; try discriminate.
    congruence.
  - apply (Permutation_in _ (Permutation_sym Hperm)). apply in_range. lia.
  - exact Hrow.
Qed.

Lemma parallel_find_matches_propagates_witness :
  parallel_find_matches [pystr_of "Alice Smith"; pystr_of "Bob Jones"] [] 2 4
    [[1]; [0]]
  = Raise ZeroDivisionError.
Proof.
  apply (parallel_find_matches_propagates
           [pystr_of "Alice Smith"; pystr_of "Bob Jones"] [] 2 4 [[1]; [0]]
           (mkTradeoutTable [] 0 0) [lit "Alice Smith"; lit "Bob Jones"] 0 1
           ZeroDivisionError).
  - split; [reflexivity |]. change (Permutation [1; 0] [0; 1]). apply perm_swap.
  - reflexivity.
  - vm_compute. reflexivity.
  - lia.
  - lia.
  - vm_compute. reflexivity.
  - vm_compute. reflexivity.
Defined.

(* ====================================================================== *)
(** * Properties of the lookup utility                                     *)
(* ====================================================================== *)

(** ** [transform_string] *)

Lemma cstr_nul_free (s : cstring) : Forall (fun c => is_nul c = false) (cstr s).
Proof.
  induction s as [| c s IH]; cbn [cstr]; [constructor |].
  destruct (is_nul c) eqn:E; constructor; assumption.
Qed.

Lemma cstr_of_nul_free (s : cstring) :
  Forall (fun c => is_nul c = false) s -> cstr s = s.
Proof.
  induction 1 as [| c s Hc _ IH]; cbn [cstr]; [reflexivity |].
  rewrite Hc. now f_equal.
Qed.

Lemma nth_cstr (s : cstring) (d : ascii) :
  forall i, (i < length (cstr s))%nat -> nth i (cstr s) d = nth i s d.
Proof.
  induction s as [| c s IH]; intros i Hi; cbn [cstr] in *; [reflexivity |].
  destruct (is_nul c); [cbn [length] in Hi; lia |].
  destruct i as [| i]; [reflexivity |]. cbn [nth length] in *. apply IH. lia.
Qed.

Lemma fold_left_collect {A B : Type} (keep : A -> bool) (f : A -> B) (l : list A) :
  forall out,
    fold_left (fun out i => if keep i then out ++ [f i] else out) l out
    = out ++ flat_map (fun i => if keep i then [f i] else []) l.
Proof.
  induction l as [| x l IH]; intros out; cbn [fold_left flat_map].
  - now rewrite app_nil_r.
  - rewrite IH. destruct (keep x); [now rewrite <- app_assoc | reflexivity].
Qed.

Lemma collect_prefix (bound : Z) (f : Z -> ascii) (r : cstring) :
  forall a,
    (forall k, (k < length r)%nat -> f (Z.of_nat (a + k)) = nth k r NUL) ->
    flat_map (fun i => if i <? bound then [f i] else [])
      (map Z.of_nat (seq a (length r)))
    = firstn (Z.to_nat (bound - Z.of_nat a)) r.
Proof.
  induction r as [| x r IH]; intros a Hf; cbn [length seq map flat_map].
  - now rewrite firstn_nil.
  - rewrite (IH (S a)).
    + pose proof (Hf 0%nat ltac:(cbn [length]; lia)) as H0.
      rewrite Nat.add_0_r in H0. cbn [nth] in H0. rewrite H0.
      destruct (Z.ltb_spec (Z.of_nat a) bound) as [Hlt | Hge].
      * replace (Z.to_nat (bound - Z.of_nat a))
          with (S (Z.to_nat (bound - Z.of_nat (S a)))) by lia.
        reflexivity.
      * replace (Z.to_nat (bound - Z.of_nat a)) with 0%nat by lia.
        replace (Z.to_nat (bound - Z.of_nat (S a))) with 0%nat by lia.
        reflexivity.
    + intros k Hk. specialize (Hf (S k) ltac:(cbn [length]; lia)).
      cbn [nth] in Hf. rewrite <- Hf. f_equal. lia.
Qed.

Lemma transform_string_eq (input : cstring) (max_len : Z) :
  transform_string input max_len
  = firstn (Z.to_nat ((max_len - 1) mod SIZE_MOD)) (rev (cstr input)).
Proof.
  unfold transform_string, strlen, range.
  rewrite fold_left_collect. cbn [app].
  rewrite Nat2Z.id, <- (length_rev (cstr input)).
  rewrite (collect_prefix _ _ (rev (cstr input)) 0).
  - now rewrite Z.sub_0_r.
  - intros k Hk. rewrite length_rev in *. cbn [Nat.add].
    rewrite rev_nth by exact Hk.
    rewrite nth_cstr by lia. f_equal. lia.
Qed.

(** X16.  [transform_string] stores the bytes of its input in reverse
    order, cut to the [max_len - 1] bytes the buffer has room for before the
    terminator. *)
Theorem transform_string_reverses (input : cstring) (max_len : Z) :
  1 <= max_len < 2 ^ 64 ->
  transform_string input max_len
  = firstn (Z.to_nat (max_len - 1)) (rev (cstr input))
  /\ Z.of_nat (length (transform_string input max_len)) <= max_len - 1.
Proof.
  intros Hmax. rewrite transform_string_eq. unfold SIZE_MOD.
  rewrite Z.mod_small by lia. split; [reflexivity |].
  rewrite length_firstn. lia.
Qed.

Lemma transform_string_reverses_witness :
  transform_string (lit "abcdef") 4 = firstn (Z.to_nat (4 - 1)) (rev (cstr (lit "abcdef")))
  /\ Z.of_nat (length (transform_string (lit "abcdef") 4)) <= 4 - 1.
Proof.
  apply (transform_string_reverses (lit "abcdef") 4). lia.
Defined.

(** X17.  On a string that fits the buffer, [transform_string] applied
    twice gives the string back. *)
Theorem transform_string_involutive (input : cstring) (max_len : Z) :
  1 <= max_len < 2 ^ 64 ->
  Z.of_nat (strlen input) < max_len ->
  transform_string (transform_string input max_len) max_len = cstr input.
Proof.
  intros Hmax Hfit. unfold strlen in Hfit.
  rewrite !transform_string_eq. unfold SIZE_MOD. rewrite Z.mod_small by lia.
  rewrite (firstn_all2 (rev (cstr input))) by (rewrite length_rev; lia).
  rewrite cstr_of_nul_free by (apply Forall_rev, cstr_nul_free).
  rewrite rev_involutive. apply firstn_all2. lia.
Qed.

Lemma transform_string_involutive_witness :
  transform_string (transform_string (lit "Smith") 1000) 1000 = cstr (lit "Smith").
Proof.
  apply (transform_string_involutive (lit "Smith") 1000); [lia |].
  vm_compute. reflexivity.
Defined.

(** ** The hash table *)

Lemma ht_exists_free_slot (es : list HashEntry) :
  (ht_filled_count es < length es)%nat ->
  exists i, (i < length es)%nat /\ he_exists (nth i es empty_entry) = false.
Proof.
  unfold ht_filled_count. induction es as [| e es IH]; cbn [filter length]; [lia |].
  destruct (he_exists e) eqn:E.
  - cbn [length]. intros H. destruct IH as (i & Hi & Hw); [lia |].
    exists (S i). split; [lia | exact Hw].
  - intros _. exists 0%nat. split; [lia | exact E].
Qed.

Lemma ht_filled_count_fill (n : nat) (e' : HashEntry) (es : list HashEntry) :
  (n < length es)%nat -> he_exists (nth n es empty_entry) = false ->
  he_exists e' = true ->
  ht_filled_count (update_nth n (fun _ => e') es) = S (ht_filled_count es).
Proof.
  unfold ht_filled_count. intros Hn Hw He.
  revert n Hn Hw; induction es as [| e es IH]; intros [| n] Hn Hw;
    cbn [length] in Hn; try lia; cbn [update_nth filter nth] in *.
  - rewrite He, Hw. reflexivity.
  - destruct (he_exists e); cbn [length]; rewrite IH by (auto; lia); reflexivity.
Qed.

Lemma ht_filled_count_repeat (n : nat) : ht_filled_count (repeat empty_entry n) = 0%nat.
Proof.
  unfold ht_filled_count. induction n as [| n IH]; [reflexivity | exact IH].
Qed.

Lemma ht_find_slot_finds (ht : HashTable) :
  forall fuel index d,
    (index < ht_capacity ht)%nat -> (d < fuel)%nat ->
    he_exists (ht_entry_at ht ((index + d) mod ht_capacity ht)) = false ->
    exists d', (d' <= d)%nat
      /\ ht_find_slot fuel ht index = Return ((index + d') mod ht_capacity ht)%nat
      /\ he_exists (ht_entry_at ht ((index + d') mod ht_capacity ht)) = false
      /\ forall j, (j < d')%nat ->
           he_exists (ht_entry_at ht ((index + j) mod ht_capacity ht)) = true.
Proof.
  induction fuel as [| fuel IH]; intros index d Hi Hd Hfree; [lia |].
  cbn [ht_find_slot].
  destruct (he_exists (ht_entry_at ht index)) eqn:E.
  - destruct d as [| d].
    { rewrite Nat.add_0_r, Nat.mod_small in Hfree by exact Hi. congruence. }
    destruct (IH ((index + 1) mod ht_capacity ht)%nat d) as (d' & Hd' & Hr & Hf & Hk).
    + apply Nat.mod_upper_bound. lia.
    + lia.
    + rewrite probe_shift. exact Hfree.
    + exists (S d'). rewrite probe_shift in Hr, Hf.
      repeat split; [lia | exact Hr | exact Hf |].
      intros [| j] Hlt.
      * rewrite Nat.add_0_r, Nat.mod_small by exact Hi. exact E.
      * specialize (Hk j ltac:(lia)). now rewrite probe_shift in Hk.
  - exists 0%nat. rewrite Nat.add_0_r, Nat.mod_small by exact Hi.
    repeat split; [lia | exact E | intros; lia].
Qed.

Lemma ht_find_slot_free (ht : HashTable) (start : nat) :
  length (ht_entries ht) = ht_capacity ht ->
  (ht_filled_count (ht_entries ht) < ht_capacity ht)%nat ->
  (start < ht_capacity ht)%nat ->
  exists d, (d < ht_capacity ht)%nat
    /\ ht_find_slot (ht_capacity ht) ht start
       = Return ((start + d) mod ht_capacity ht)%nat
    /\ he_exists (ht_entry_at ht ((start + d) mod ht_capacity ht)) = false
    /\ forall j, (j < d)%nat ->
         he_exists (ht_entry_at ht ((start + j) mod ht_capacity ht)) = true.
Proof.
  intros Hlen Hcount Hstart.
  destruct (ht_exists_free_slot (ht_entries ht)) as (i & Hi & Hfree); [lia |].
  destruct (probe_reaches (ht_capacity ht) start i) as (d & Hd & Hreach); [lia | lia |].
  destruct (ht_find_slot_finds ht (ht_capacity ht) start d)
    as (d' & Hd' & Hr & Hf & Hk);
    [exact Hstart | exact Hd | unfold ht_entry_at; now rewrite Hreach |].
  exists d'. repeat split; [lia | exact Hr | exact Hf | exact Hk].
Qed.

(** Storing one more key keeps the table in order. *)
Lemma ht_insert_key_inv (ht : HashTable) (stored : list cstring) (k : pystr) :
  ht_inv ht stored ->
  (length stored < ht_capacity ht)%nat ->
  ht_insert_key ht k = Raise UnicodeEncodeError
  \/ exists kb ht',
       encode_utf8 k = Return kb
       /\ ht_insert_key ht k = Return ht'
       /\ ht_capacity ht' = ht_capacity ht
       /\ ht_size ht' = ht_size ht
       /\ ht_inv ht' (kb :: stored).
Proof.
  intros Hinv Hroom. unfold ht_insert_key.
  destruct (encode_utf8_outcome k) as [[kb ->] | ->]; cbn [bind]; [right | now left].
  destruct (Nat.eqb_spec (ht_capacity ht) 0) as [E | Hcap]; [lia |].
  pose proof (hti_length _ _ Hinv) as Hlen.
  fold (ht_slot_of ht kb).
  destruct (ht_find_slot_free ht (ht_slot_of ht kb)) as (d & Hd & -> & Hfree & Hused);
    [exact Hlen | rewrite (hti_count _ _ Hinv); exact Hroom
     | now apply hash_slot_bound |].
  cbn [bind]. set (r := ((ht_slot_of ht kb + d) mod ht_capacity ht)%nat) in *.
  assert (r < length (ht_entries ht))%nat as Hrlen
    by (rewrite Hlen; apply Nat.mod_upper_bound; exact Hcap).
  exists kb. eexists. split; [reflexivity |]. split; [reflexivity |].
  split; [reflexivity |]. split; [reflexivity |].
  assert (forall i, he_exists (ht_entry_at ht i) = true -> i <> r) as Hother
    by (intros i Hi ->; congruence).
  constructor; cbn [ht_entries ht_capacity].
  - rewrite length_update_nth. exact Hlen.
  - rewrite ht_filled_count_fill by (auto using Hrlen).
    rewrite (hti_count _ _ Hinv). reflexivity.
  - intros i Hi. unfold ht_entry_at in *. cbn [ht_entries] in *.
    destruct (Nat.eq_dec i r) as [-> | Hne].
    + rewrite nth_update_nth_eq by exact Hrlen. exists kb. split; [reflexivity | now left].
    + rewrite nth_update_nth_neq in * by congruence.
      destruct (hti_keys _ _ Hinv i Hi) as (k0 & Hk0 & Hin). exists k0.
      split; [exact Hk0 | now right].
  - intros k0 [<- | Hin].
    + exists d. split; [exact Hd |]. unfold ht_entry_at, ht_slot_of in *.
      cbn [ht_entries ht_capacity]. fold r. split.
      * now rewrite nth_update_nth_eq by exact Hrlen.
      * intros j Hj. rewrite nth_update_nth_neq; [now apply Hused |].
        intros Heq. symmetry in Heq. revert Heq. apply Hother. now apply Hused.
    + destruct (hti_stored _ _ Hinv k0 Hin) as (d0 & Hd0 & Hentry & Hbefore).
      exists d0. split; [exact Hd0 |]. unfold ht_entry_at, ht_slot_of in *.
      cbn [ht_entries ht_capacity]. split.
      * rewrite nth_update_nth_neq; [exact Hentry |].
        intros Heq. symmetry in Heq. revert Heq. apply Hother.
        unfold ht_entry_at. now rewrite Hentry.
      * intros j Hj. rewrite nth_update_nth_neq; [now apply Hbefore |].
        intros Heq. symmetry in Heq. revert Heq. apply Hother. now apply Hbefore.
Qed.

Lemma ht_inv_start (n : nat) :
  ht_inv (mkHashTable (repeat empty_entry (n * 2)) (n * 2) n) [].
Proof.
  constructor; cbn [ht_entries ht_capacity length].
  - apply repeat_length.
  - apply ht_filled_count_repeat.
  - intros i. unfold ht_entry_at. cbn [ht_entries]. rewrite nth_repeat. discriminate.
  - intros k [].
Qed.

Lemma create_hash_loop (keys : list pystr) :
  forall ht stored,
    ht_inv ht stored ->
    (length stored + length keys <= ht_capacity ht)%nat ->
    for_each keys ht_insert_key ht = Raise UnicodeEncodeError
    \/ exists ht' stored',
         for_each keys ht_insert_key ht = Return ht'
         /\ ht_capacity ht' = ht_capacity ht
         /\ ht_size ht' = ht_size ht
         /\ ht_inv ht' stored'
         /\ length stored' = (length stored + length keys)%nat
         /\ (forall kb, In kb stored' <->
               In kb stored \/ exists k, In k keys /\ encode_utf8 k = Return kb).
Proof.
  induction keys as [| k keys IH]; intros ht stored Hinv Hroom;
    cbn [for_each length] in *.
  - right. exists ht, stored. split; [reflexivity |].
    split; [reflexivity |]. split; [reflexivity |]. split; [exact Hinv |].
    split; [lia |]. intros kb. split; [now left |].
    intros [H | (k & [] & _)]. exact H.
  - destruct (ht_insert_key_inv ht stored k Hinv ltac:(lia))
      as [-> | (kb & ht1 & Hkb & -> & Hcap & Hsize & Hinv1)]; cbn [bind];
      [now left |].
    destruct (IH ht1 (kb :: stored) Hinv1) as
      [-> | (ht' & stored' & -> & Hcap' & Hsize' & Hinv' & Hlen' & Hin')];
      [cbn [length]; lia | now left | right].
    exists ht', stored'. split; [reflexivity |].
    split; [congruence |]. split; [congruence |]. split; [exact Hinv' |].
    split; [cbn [length] in Hlen'; lia |].
    intros kb0. rewrite Hin'. cbn [In]. split.
    + intros [[<- | H] | (k0 & Hk0 & He)]; eauto 6.
    + intros [H | (k0 & [<- | Hk0] & He)]; eauto 6.
      left. left. congruence.
Qed.

(** [create_hash_table] returns a table in order, unless a key cannot be
    encoded; every slot it marks as existing holds a key. *)
Lemma create_hash_table_keys (py_dict : list pystr) :
  create_hash_table py_dict = Raise UnicodeEncodeError
  \/ exists ht stored,
       create_hash_table py_dict = Return ht
       /\ ht_capacity ht = (2 * length py_dict)%nat
       /\ ht_size ht = length py_dict
       /\ ht_inv ht stored
       /\ length stored = length py_dict
       /\ (forall kb, In kb stored <->
             exists k, In k py_dict /\ encode_utf8 k = Return kb).
Proof.
  unfold create_hash_table.
  destruct (create_hash_loop py_dict _ [] (ht_inv_start (length py_dict)))
    as [H | (ht & stored & H & Hcap & Hsize & Hinv & Hlen & Hin)];
    [cbn [length ht_capacity]; lia | now left | right].
  exists ht, stored. cbn [ht_capacity ht_size length] in *.
  split; [exact H |]. split; [lia |]. split; [exact Hsize |].
  split; [exact Hinv |]. split; [lia |].
  intros kb. rewrite Hin. cbn [In]. tauto.
Qed.

Lemma ht_contains_loop_returns (ht : HashTable) (q : cstring) (start : nat) :
  (start < ht_capacity ht)%nat ->
  forall fuel k, (k + fuel = ht_capacity ht)%nat -> (k < ht_capacity ht)%nat ->
  exists b, ht_contains_loop fuel ht q start ((start + k) mod ht_capacity ht)%nat
            = Return b.
Proof.
  intros Hstart. induction fuel as [| fuel IH]; intros k Hk Hlt; [lia |].
  cbn [ht_contains_loop].
  destruct (he_exists (ht_entry_at ht _)); [| eauto].
  destruct (strcmp _ q =? 0); [eauto |].
  rewrite probe_next.
  destruct (Nat.eqb_spec ((start + (k + 1)) mod ht_capacity ht) start) as [E | E];
    [eauto |].
  apply IH; [lia |].
  destruct (Nat.eq_dec (k + 1) (ht_capacity ht)) as [Hc | Hc]; [| lia].
  exfalso. apply E. rewrite Hc. now apply probe_wrap.
Qed.

Lemma ht_contains_loop_true (ht : HashTable) (q : cstring) (start : nat) :
  forall fuel index,
    ht_contains_loop fuel ht q start index = Return true ->
    exists i, he_exists (ht_entry_at ht i) = true /\ strcmp (ht_key_at ht i) q = 0.
Proof.
  induction fuel as [| fuel IH]; intros index H; cbn [ht_contains_loop] in H;
    [discriminate |].
  destruct (he_exists (ht_entry_at ht index)) eqn:E; [| discriminate].
  destruct (Z.eqb_spec (strcmp (ht_key_at ht index) q) 0) as [Hc | _]; [eauto |].
  destruct (_ =? start)%nat; [discriminate |]. eapply IH; eassumption.
Qed.

Lemma ht_contains_loop_walk (ht : HashTable) (q : cstring) (start d : nat) :
  (start < ht_capacity ht)%nat -> (d < ht_capacity ht)%nat ->
  he_exists (ht_entry_at ht ((start + d) mod ht_capacity ht)) = true ->
  strcmp (ht_key_at ht ((start + d) mod ht_capacity ht)) q = 0 ->
  (forall j, (j < d)%nat ->
     he_exists (ht_entry_at ht ((start + j) mod ht_capacity ht)) = true) ->
  forall fuel k, (k <= d)%nat -> (d < k + fuel)%nat ->
    ht_contains_loop fuel ht q start ((start + k) mod ht_capacity ht)%nat
    = Return true.
Proof.
  intros Hs Hd Hex Hcmp Hbefore.
  induction fuel as [| fuel IH]; intros k Hk Hf; [lia |].
  cbn [ht_contains_loop].
  destruct (Nat.eq_dec k d) as [-> | Hne].
  - rewrite Hex, Hcmp. reflexivity.
  - rewrite (Hbefore k) by lia.
    destruct (strcmp _ q =? 0); [reflexivity |].
    rewrite probe_next.
    destruct (Nat.eqb_spec ((start + (k + 1)) mod ht_capacity ht) start) as [E | _].
    + exfalso. revert E. apply probe_neq_start; lia.
    + apply IH; lia.
Qed.

(** X18.  On the table [create_hash_table] builds from a non-empty dict,
    [hash_table_contains] returns a truth value, and it answers true exactly
    when the word looked up has the C string of one of the keys. *)
Theorem hash_table_contains_keys (py_dict : list pystr) (ht : HashTable)
    (q : cstring) :
  py_dict <> [] ->
  create_hash_table py_dict = Return ht ->
  exists b,
    hash_table_contains ht q = Return b
    /\ (b = true <->
        exists k kb, In k py_dict /\ encode_utf8 k = Return kb /\ cstr kb = cstr q).
Proof.
  intros Hne Hrun.
  destruct (create_hash_table_keys py_dict)
    as [H | (ht' & stored & H & Hcap & _ & Hinv & _ & Hin)]; [congruence |].
  rewrite Hrun in H. injection H as <-.
  assert (ht_capacity ht <> 0%nat) as Hcap0
    by (destruct py_dict; [contradiction | cbn [length] in Hcap; lia]).
  pose proof (hash_slot_bound (hash_string q) _ Hcap0) as Hb.
  unfold hash_table_contains.
  destruct (Nat.eqb_spec (ht_capacity ht) 0) as [E | _]; [contradiction |].
  set (start := Z.to_nat (hash_string q mod Z.of_nat (ht_capacity ht))) in *.
  destruct (ht_contains_loop_returns ht q start Hb (ht_capacity ht) 0%nat)
    as [b Hloop]; [lia | lia |].
  rewrite Nat.add_0_r, Nat.mod_small in Hloop by exact Hb.
  exists b. split; [exact Hloop |]. split.
  - intros ->. apply ht_contains_loop_true in Hloop.
    destruct Hloop as (i & Hex & Hcmp).
    destruct (hti_keys _ _ Hinv i Hex) as (kb & Hkb & Hstored).
    apply Hin in Hstored. destruct Hstored as (k & Hk & Henc).
    exists k, kb. split; [exact Hk |]. split; [exact Henc |].
    apply strcmp_zero. unfold ht_key_at in Hcmp. now rewrite Hkb in Hcmp.
  - intros (k & kb & Hk & Henc & Hsame).
    assert (In kb stored) as Hstored by (apply Hin; eauto).
    destruct (hti_stored _ _ Hinv kb Hstored) as (d & Hd & Hentry & Hbefore).
    assert (ht_slot_of ht kb = start) as Hslot.
    { unfold ht_slot_of, start.
      rewrite <- (hash_string_cstr kb), Hsame, hash_string_cstr. reflexivity. }
    rewrite Hslot in *.
    assert (ht_contains_loop (ht_capacity ht) ht q start start = Return true) as Ht.
    { rewrite <- (Nat.mod_small start (ht_capacity ht)) at 2 by exact Hb.
      rewrite <- (Nat.add_0_r start) at 2.
      apply ht_contains_loop_walk with (d := d); try lia; try exact Hb.
      - now rewrite Hentry.
      - unfold ht_key_at. rewrite Hentry. cbn [he_key].
        now apply strcmp_zero.
      - exact Hbefore. }
    congruence.
Qed.

Lemma hash_table_contains_keys_witness :
  exists ht b,
    create_hash_table [pystr_of "cba"; pystr_of "x"] = Return ht
    /\ hash_table_contains ht (lit "cba") = Return b
    /\ (b = true <->
        exists k kb, In k [pystr_of "cba"; pystr_of "x"]
                     /\ encode_utf8 k = Return kb /\ cstr kb = cstr (lit "cba")).
Proof.
  destruct (create_hash_table [pystr_of "cba"; pystr_of "x"]) as [ht | e |] eqn:E;
    [| vm_compute in E; discriminate | vm_compute in E; discriminate].
  destruct (hash_table_contains_keys [pystr_of "cba"; pystr_of "x"] ht (lit "cba"))
    as (b & Hb & Hiff).
  - discriminate.
  - exact E.
  - exists ht, b. split; [reflexivity |]. split; [exact Hb | exact Hiff].
Defined.

(** X19.  [create_hash_table] always ends: it returns a table, or a key
    cannot be encoded.  The table has twice as many slots as the dict has
    keys, one slot marked as existing per key, each holding the bytes of a
    key of the dict. *)
Theorem create_hash_table_shape (py_dict : list pystr) :
  create_hash_table py_dict = Raise UnicodeEncodeError
  \/ exists ht,
       create_hash_table py_dict = Return ht
       /\ ht_capacity ht = (2 * length py_dict)%nat
       /\ length (ht_entries ht) = (2 * length py_dict)%nat
       /\ ht_size ht = length py_dict
       /\ ht_filled_count (ht_entries ht) = length py_dict
       /\ forall i, he_exists (ht_entry_at ht i) = true ->
            exists k kb, In k py_dict /\ encode_utf8 k = Return kb
                         /\ he_key (ht_entry_at ht i) = Some kb.
Proof.
  destruct (create_hash_table_keys py_dict)
    as [H | (ht & stored & H & Hcap & Hsize & Hinv & Hlen & Hin)];
    [now left | right].
  exists ht. split; [exact H |]. split; [exact Hcap |].
  split; [rewrite (hti_length _ _ Hinv); exact Hcap |]. split; [exact Hsize |].
  split; [rewrite (hti_count _ _ Hinv); exact Hlen |].
  intros i Hi. destruct (hti_keys _ _ Hinv i Hi) as (kb & Hkb & Hstored).
  apply Hin in Hstored. destruct Hstored as (k & Hk & Henc). eauto.
Qed.

(** ** [parallel_lookup] *)

Lemma results_loop {R : Type} (h : Z -> outcome R) (d : R) :
  forall k a acc res,
    for_each (map Z.of_nat (seq a k))
      (fun results i => r <- h i ;; Return (results ++ [r])) acc = Return res ->
    exists rs, res = acc ++ rs /\ length rs = k
               /\ forall j, (j < k)%nat -> h (Z.of_nat (a + j)) = Return (nth j rs d).
Proof.
  induction k as [| k IH]; intros a acc res H; cbn [seq map for_each] in H.
  - inversion H; subst res. exists []. rewrite app_nil_r.
    split; [reflexivity |]. split; [reflexivity | intros; lia].
  - destruct (h (Z.of_nat a)) as [r | |] eqn:Er; cbn [bind] in H; try discriminate.
    apply IH in H. destruct H as (rs & -> & Hlen & Hnth).
    exists (r :: rs). rewrite <- app_assoc. split; [reflexivity |].
    split; [cbn [length]; lia |].
    intros [| j] Hj; cbn [nth].
    + now rewrite Nat.add_0_r.
    + rewrite <- (Hnth j) by lia. do 2 f_equal. lia.
Qed.

Lemma sorted_filter {A : Type} (R : A -> A -> Prop) (f : A -> bool) (l : list A) :
  StronglySorted R l -> StronglySorted R (filter f l).
Proof.
  induction 1 as [| x l Hl IH Hx]; cbn [filter]; [constructor |].
  destruct (f x); [| exact IH]. constructor; [exact IH |].
  rewrite Forall_forall in *. intros y Hy. apply Hx.
  apply filter_In in Hy. tauto.
Qed.

Lemma range_sorted (n : Z) : StronglySorted Z.lt (range n).
Proof.
  unfold range. generalize 0%nat as a.
  induction (Z.to_nat n) as [| k IH]; intros a; cbn [seq map]; constructor.
  - apply IH.
  - rewrite Forall_forall. intros y Hy. apply in_map_iff in Hy.
    destruct Hy as (j & <- & Hj). apply in_seq in Hj. lia.
Qed.

Lemma firstn_nul_free (n : nat) (s : cstring) :
  Forall (fun c => is_nul c = false) s ->
  Forall (fun c => is_nul c = false) (firstn n s).
Proof.
  intros H. revert n. induction H as [| c s Hc _ IH]; intros [| n]; cbn [firstn];
    constructor; auto.
Qed.

(** X20.  On a non-empty dict, [parallel_lookup] returns, in increasing
    order, exactly the positions of the strings whose bytes in reverse order
    (cut to 999 bytes) are the C string of a key of the dict. *)
Theorem parallel_lookup_matches (strings lookup_dict : list pystr)
    (matches : list Z) :
  lookup_dict <> [] ->
  parallel_lookup strings lookup_dict = Return matches ->
  exists bytes_list,
    encode_all strings = Return bytes_list
    /\ StronglySorted Z.lt matches
    /\ forall i, In i matches <->
         0 <= i < Z.of_nat (length strings)
         /\ exists k kb, In k lookup_dict /\ encode_utf8 k = Return kb
              /\ cstr kb = firstn 999 (rev (cstr (name_at bytes_list i))).
Proof.
  intros Hne Hrun. unfold parallel_lookup in Hrun.
  destruct (create_hash_table lookup_dict) as [ht | |] eqn:Eht; cbn [bind] in Hrun;
    try discriminate.
  destruct (encode_all strings) as [bytes_list | |]; cbn [bind] in Hrun;
    try discriminate.
  destruct (for_each _ _ []) as [results | |] eqn:Eres; cbn [bind] in Hrun;
    try discriminate.
  inversion Hrun; subst matches. exists bytes_list. split; [reflexivity |].
  split; [apply sorted_filter, range_sorted |].
  unfold range in Eres.
  apply (results_loop
           (fun i => hash_table_contains ht
                       (transform_string (name_at bytes_list i) max_transform_len))
           false) in Eres.
  destruct Eres as (rs & -> & Hlen & Hnth). cbn [app] in *.
  assert (forall i, cstr (transform_string (name_at bytes_list i) max_transform_len)
                    = firstn 999 (rev (cstr (name_at bytes_list i)))) as Htr.
  { intros i. rewrite transform_string_eq.
    rewrite cstr_of_nul_free by (apply firstn_nul_free, Forall_rev, cstr_nul_free).
    reflexivity. }
  intros i. rewrite filter_In, in_range. split.
  - intros [Hi Hres]. split; [exact Hi |].
    specialize (Hnth (Z.to_nat i) ltac:(lia)). cbn [Nat.add] in Hnth.
    rewrite Z2Nat.id, Hres in Hnth by lia.
    destruct (hash_table_contains_keys lookup_dict ht
                (transform_string (name_at bytes_list i) max_transform_len) Hne Eht)
      as (b & Hb & Hiff).
    assert (b = true) as Hbt by congruence.
    apply Hiff in Hbt. destruct Hbt as (k & kb & Hk & Henc & Hsame).
    exists k, kb. rewrite <- Htr. auto.
  - intros [Hi (k & kb & Hk & Henc & Hsame)]. split; [exact Hi |].
    specialize (Hnth (Z.to_nat i) ltac:(lia)). cbn [Nat.add] in Hnth.
    rewrite Z2Nat.id in Hnth by lia.
    destruct (hash_table_contains_keys lookup_dict ht
                (transform_string (name_at bytes_list i) max_transform_len) Hne Eht)
      as (b & Hb & Hiff).
    assert (b = true) as Hbt by (apply Hiff; exists k, kb; rewrite Htr; auto).
    congruence.
Qed.

Lemma parallel_lookup_matches_witness :
  exists bytes_list,
    encode_all [pystr_of "abc"; pystr_of "q"; pystr_of "x"] = Return bytes_list
    /\ StronglySorted Z.lt [0; 2]
    /\ forall i, In i [0; 2] <->
         0 <= i < Z.of_nat (length [pystr_of "abc"; pystr_of "q"; pystr_of "x"])
         /\ exists k kb, In k [pystr_of "cba"; pystr_of "x"]
              /\ encode_utf8 k = Return kb
              /\ cstr kb = firstn 999 (rev (cstr (name_at bytes_list i))).
Proof.
  apply (parallel_lookup_matches [pystr_of "abc"; pystr_of "q"; pystr_of "x"]
           [pystr_of "cba"; pystr_of "x"] [0; 2]).
  - discriminate.
  - vm_compute. reflexivity.
Defined.

(** X21.  With an empty dict, [parallel_lookup] returns the empty list when
    there is no string to look up, and raises as soon as there is one: the
    first lookup divides by the capacity 0 of the table (or a string cannot
    be encoded). *)
Theorem parallel_lookup_empty_dict (strings : list pystr) :
  (strings = [] -> parallel_lookup strings [] = Return [])
  /\ (strings <> [] ->
      parallel_lookup strings [] = Raise ZeroDivisionError
      \/ parallel_lookup strings [] = Raise UnicodeEncodeError).
Proof.
  split.
  - intros ->. reflexivity.
  - intros Hne. unfold parallel_lookup.
    change (create_hash_table []) with (Return (mkHashTable [] 0 0)). cbn [bind].
    destruct (encode_all_outcome strings) as [[bs ->] | ->]; cbn [bind];
      [left | now right].
    destruct (range_split (Z.of_nat (length strings))) as (tl & -> & _).
    + destruct strings; [contradiction | cbn [length]; lia].
    + reflexivity.
Qed.

Lemma parallel_lookup_empty_dict_witness :
  [pystr_of "abc"] <> []
  /\ (parallel_lookup [pystr_of "abc"] [] = Raise ZeroDivisionError
      \/ parallel_lookup [pystr_of "abc"] [] = Raise UnicodeEncodeError).
Proof.
  split; [discriminate |].
  apply (parallel_lookup_empty_dict [pystr_of "abc"]). discriminate.
Defined.

(** X22.  On every hash table with at least one slot, full or not,
    [hash_table_contains] returns a truth value: the "full circle" test ends
    the probe loop within [capacity] iterations.  It answers true only if a
    slot marked as existing holds a key that compares equal to the word. *)
Theorem hash_table_contains_total (ht : HashTable) (q : cstring) :
  ht_capacity ht <> 0%nat ->
  exists b,
    hash_table_contains ht q = Return b
    /\ (b = true ->
        exists i, he_exists (ht_entry_at ht i) = true
                  /\ cstr (ht_key_at ht i) = cstr q).
Proof.
  intros Hcap. unfold hash_table_contains.
  destruct (Nat.eqb_spec (ht_capacity ht) 0) as [E | _]; [contradiction |].
  pose proof (hash_slot_bound (hash_string q) _ Hcap) as Hb.
  destruct (ht_contains_loop_returns ht q _ Hb (ht_capacity ht) 0%nat) as [b Hloop];
    [lia | lia |].
  rewrite Nat.add_0_r, Nat.mod_small in Hloop by exact Hb.
  exists b. split; [exact Hloop |].
  intros ->. apply ht_contains_loop_true in Hloop.
  destruct Hloop as (i & Hex & Hcmp). exists i. split; [exact Hex |].
  now apply strcmp_zero.
Qed.

Lemma hash_table_contains_total_witness :
  exists b,
    hash_table_contains
      (mkHashTable [mkHashEntry (Some (lit "a")) true; mkHashEntry (Some (lit "b")) true]
         2 2)
      (lit "zz") = Return b.
Proof.
  destruct (hash_table_contains_total
              (mkHashTable [mkHashEntry (Some (lit "a")) true;
                            mkHashEntry (Some (lit "b")) true] 2 2)
              (lit "zz")) as (b & Hb & _).
  - cbn. discriminate.
  - exists b. exact Hb.
Defined.

(** ** The filter and the word count *)

Lemma byte_value (n : N) : (n < 256)%N -> uchar (byte n) = Z.of_N n.
Proof.
  intros H. unfold uchar, byte. now rewrite N_ascii_embedding.
Qed.

Lemma is_space_byte (n : N) : (n < 256)%N -> is_space (byte n) = (n =? 32)%N.
Proof.
  intros H. unfold is_space. fold (uchar (byte n)). rewrite byte_value by exact H.
  destruct (N.eqb_spec n 32) as [-> | Hne]; [reflexivity |].
  apply Z.eqb_neq. lia.
Qed.

Lemma is_nul_byte (n : N) : (n < 256)%N -> is_nul (byte n) = (n =? 0)%N.
Proof.
  intros H. destruct (N.eqb_spec n 0) as [-> | Hne]; [reflexivity |].
  destruct (is_nul (byte n)) eqn:E; [| reflexivity].
  apply uchar_nul in E. rewrite byte_value in E by exact H. lia.
Qed.

(** A byte of a UTF-8 sequence of two bytes or more. *)
Lemma high_byte_plain (n : N) :
  (128 <= n < 256)%N -> is_nul (byte n) = false /\ is_space (byte n) = false.
Proof.
  intros H. rewrite is_nul_byte, is_space_byte by lia.
  split; apply N.eqb_neq; lia.
Qed.

Ltac solve_byte_range :=
  match goal with
  | |- (_ <= _ < _)%N =>
      zify; Z.to_euclidean_division_equations; lia
  end.

(** The encoding of a code point that is neither U+0000 nor a separator of
    [str.split()] has no zero byte and no space, and is not empty. *)
Lemma encode_code_point_plain (c : N) (bs : list ascii) :
  encode_code_point c = Some bs -> c <> 0%N -> c <> 32%N ->
  bs <> [] /\ Forall (fun b => is_nul b = false /\ is_space b = false) bs.
Proof.
  unfold encode_code_point. intros H H0 H32.
  destruct (N.ltb_spec c 128) as [H1 | H1].
  { assert (bs = [byte c]) as -> by congruence. split; [discriminate |].
    apply Forall_cons; [| apply Forall_nil].
    rewrite is_nul_byte, is_space_byte by lia. split; apply N.eqb_neq; lia. }
  destruct (N.ltb_spec c 2048) as [H2 | H2].
  { assert (bs = [byte (192 + c / 64); byte (128 + c mod 64)]%N) as ->
      by congruence.
    split; [discriminate |].
    repeat (apply Forall_cons; [apply high_byte_plain; solve_byte_range |]).
    apply Forall_nil. }
  destruct (N.ltb_spec c 65536) as [H3 | H3].
  { destruct ((55296 <=? c) && (c <=? 57343))%N; [discriminate |].
    assert (bs = [byte (224 + c / 4096); byte (128 + (c / 64) mod 64);
                  byte (128 + c mod 64)]%N) as -> by congruence.
    split; [discriminate |].
    repeat (apply Forall_cons; [apply high_byte_plain; solve_byte_range |]).
    apply Forall_nil. }
  destruct (N.ltb_spec c 1114112) as [H4 | H4]; [| discriminate].
  assert (bs = [byte (240 + c / 262144); byte (128 + (c / 4096) mod 64);
                byte (128 + (c / 64) mod 64); byte (128 + c mod 64)]%N) as ->
    by congruence.
  split; [discriminate |].
  repeat (apply Forall_cons; [apply high_byte_plain; solve_byte_range |]).
  apply Forall_nil.
Qed.

Lemma count_words_loop_run (bs rest : cstring) :
  Forall (fun b => is_nul b = false /\ is_space b = false) bs -> bs <> [] ->
  forall count in_word,
    count_words_loop (bs ++ rest) count in_word
    = count_words_loop rest (if in_word then count else count + 1) true.
Proof.
  induction 1 as [| b bs [Hn Hs] Hall IH]; intros Hne count iw; [contradiction |].
  cbn [app count_words_loop]. rewrite Hn, Hs.
  destruct bs as [| b' bs].
  - destruct iw; reflexivity.
  - destruct iw; cbn [negb]; rewrite IH by discriminate; reflexivity.
Qed.

Lemma py_split_loop_count (s : pystr) :
  plain_name s ->
  forall cur bytes count,
    encode_utf8 s = Return bytes ->
    count_words_loop bytes count (match cur with [] => false | _ => true end)
    + (match cur with [] => 0 | _ => 1 end)
    = count + Z.of_nat (length (py_split_loop s cur)).
Proof.
  induction 1 as [| c s [Hc0 Hcsp] Hs IH]; intros cur bytes count Henc;
    cbn [encode_utf8 py_split_loop] in *.
  - inversion Henc; subst bytes. destruct cur; cbn [count_words_loop length]; lia.
  - destruct (encode_code_point c) as [bs |] eqn:Ec; [| discriminate].
    destruct (encode_utf8 s) as [rest | |]; cbn [bind] in Henc; try discriminate.
    inversion Henc; subst bytes.
    destruct (py_isspace c) eqn:Esp.
    + rewrite (Hcsp eq_refl) in Ec. inversion Ec; subst bs.
      cbn [app count_words_loop].
      change (is_nul (ascii_of_pos 32)) with false.
      change (is_space (ascii_of_pos 32)) with true.
      cbn iota. specialize (IH [] rest count eq_refl). cbn beta iota in IH.
      destruct cur; cbn [length]; lia.
    + assert (c <> 32%N) as H32 by (intros ->; discriminate).
      destruct (encode_code_point_plain c bs Ec Hc0 H32) as [Hne Hall].
      rewrite count_words_loop_run by assumption.
      destruct cur as [| c0 cur]; cbn [app].
      * specialize (IH [c] rest (count + 1) eq_refl). cbn beta iota in IH. lia.
      * specialize (IH (c0 :: cur ++ [c]) rest count eq_refl). cbn beta iota in IH.
        lia.
Qed.

(** X23.  On a name without U+0000 whose only whitespace is the space
    character, the filter of [parallel_find_matches] and [count_words] agree:
    [str.split()] yields as many words as [count_words] counts in the UTF-8
    bytes of the name, so such a name is kept by the filter exactly when
    [validate_match] sees two words or more in it. *)
Theorem filter_agrees_with_count_words (n : pystr) (bytes : cstring) :
  plain_name n ->
  encode_utf8 n = Return bytes ->
  count_words bytes = Z.of_nat (length (py_split n))
  /\ (In n (valid_names [n]) <-> 2 <= count_words bytes).
Proof.
  intros Hplain Henc.
  pose proof (py_split_loop_count n Hplain [] bytes 0 Henc) as H.
  cbn beta iota in H. fold (py_split n) in H. fold (count_words bytes) in H.
  split; [lia |].
  rewrite valid_names_split. split.
  - intros [_ Hlen]. lia.
  - intros Hcount. split; [now left | lia].
Qed.

Lemma filter_agrees_with_count_words_witness :
  count_words (lit "Alice B Smith") = Z.of_nat (length (py_split (pystr_of "Alice B Smith")))
  /\ (In (pystr_of "Alice B Smith") (valid_names [pystr_of "Alice B Smith"])
      <-> 2 <= count_words (lit "Alice B Smith")).
Proof.
  apply (filter_agrees_with_count_words (pystr_of "Alice B Smith") (lit "Alice B Smith")).
  - unfold plain_name.
    repeat (apply Forall_cons;
            [split; [discriminate | intros H; vm_compute in H; try discriminate H; reflexivity] |]).
    apply Forall_nil.
  - vm_compute. reflexivity.
Defined.
